(** * Quantum simulation kernel and stabilizer error correction

    A shallow embedding of
    - [services/quantum-algebra/src/quantum_operations.py]
      (circuits, gate expansion, measurement histogram), and
    - [services/quantum-fault-tolerance/src/error_correction.py]
      (Steane-7, Shor-9 and surface code correctors, fault-tolerant cycle).

    numpy's float64 / complex128 values are idealised as real numbers and
    pairs of real numbers; the only non-finite value the code can produce
    on finite inputs, the NaN of [np.sqrt] on a negative argument, is
    modelled explicitly.  Python integers are [Z] where they may be
    negative and [nat] where they index or size an array. *)

From Stdlib Require Import Reals Lra Lia ZArith List Ascii String Permutation.
From stdpp Require Import gmap strings list.

(** ** Complex numbers (numpy's complex128, idealised) *)

Module Cplx.
Local Open Scope R_scope.

Definition C : Type := (R * R)%type.

Definition RtoC (x : R) : C := (x, 0).
Definition C0 : C := (0, 0).
Definition C1 : C := (1, 0).
Definition Ci : C := (0, 1).

Definition Re (z : C) : R := fst z.
Definition Im (z : C) : R := snd z.

Definition Cplus (a b : C) : C := (fst a + fst b, snd a + snd b).
Definition Copp (a : C) : C := (- fst a, - snd a).
Definition Cminus (a b : C) : C := Cplus a (Copp b).
Definition Cmult (a b : C) : C :=
  (fst a * fst b - snd a * snd b, fst a * snd b + snd a * fst b).
Definition Cconj (a : C) : C := (fst a, - snd a).

(** [np.abs(z) ** 2] is [Cmod z ^ 2]; [Cnorm2] is the same number without
    the square root. *)
Definition Cnorm2 (a : C) : R := fst a * fst a + snd a * snd a.
Definition Cmod (a : C) : R := sqrt (Cnorm2 a).

Lemma C_eq (a b : C) : fst a = fst b -> snd a = snd b -> a = b.
Proof. destruct a, b; simpl; intros -> ->; reflexivity. Qed.

Ltac csimp := apply C_eq; simpl; try ring; try lra.

Lemma Cplus_comm a b : Cplus a b = Cplus b a.
Proof. unfold Cplus; csimp. Qed.

Lemma Cplus_assoc a b c : Cplus a (Cplus b c) = Cplus (Cplus a b) c.
Proof. unfold Cplus; csimp. Qed.

Lemma Cplus_0_l a : Cplus C0 a = a.
Proof. unfold Cplus, C0; csimp. Qed.

Lemma Cplus_0_r a : Cplus a C0 = a.
Proof. unfold Cplus, C0; csimp. Qed.

Lemma Cmult_comm a b : Cmult a b = Cmult b a.
Proof. unfold Cmult; csimp. Qed.

Lemma Cmult_assoc a b c : Cmult a (Cmult b c) = Cmult (Cmult a b) c.
Proof. unfold Cmult; csimp. Qed.

Lemma Cmult_0_l a : Cmult C0 a = C0.
Proof. unfold Cmult, C0; csimp. Qed.

Lemma Cmult_0_r a : Cmult a C0 = C0.
Proof. unfold Cmult, C0; csimp. Qed.

Lemma Cmult_1_l a : Cmult C1 a = a.
Proof. unfold Cmult, C1; csimp. Qed.

Lemma Cmult_1_r a : Cmult a C1 = a.
Proof. unfold Cmult, C1; csimp. Qed.

Lemma Cmult_plus_distr_l a b c :
  Cmult a (Cplus b c) = Cplus (Cmult a b) (Cmult a c).
Proof. unfold Cmult, Cplus; csimp. Qed.

Lemma Cmult_plus_distr_r a b c :
  Cmult (Cplus a b) c = Cplus (Cmult a c) (Cmult b c).
Proof. unfold Cmult, Cplus; csimp. Qed.

Lemma Cconj_plus a b : Cconj (Cplus a b) = Cplus (Cconj a) (Cconj b).
Proof. unfold Cconj, Cplus; csimp. Qed.

Lemma Cconj_mult a b : Cconj (Cmult a b) = Cmult (Cconj a) (Cconj b).
Proof. unfold Cconj, Cmult; csimp. Qed.

Lemma Cconj_0 : Cconj C0 = C0.
Proof. unfold Cconj, C0; csimp. Qed.

Lemma Cnorm2_conj_mult a : Cmult (Cconj a) a = RtoC (Cnorm2 a).
Proof. unfold Cmult, Cconj, RtoC, Cnorm2; csimp. Qed.

Lemma Cnorm2_nonneg a : 0 <= Cnorm2 a.
Proof. unfold Cnorm2. nra. Qed.

Lemma Cnorm2_0 : Cnorm2 C0 = 0.
Proof. unfold Cnorm2, C0; simpl; ring. Qed.

Lemma Cmod_sqr a : Cmod a ^ 2 = Cnorm2 a.
Proof.
  unfold Cmod. simpl. rewrite Rmult_1_r.
  apply sqrt_sqrt, Cnorm2_nonneg.
Qed.

End Cplx.
Export Cplx.

(** ** Python exceptions *)

Inductive exn : Type :=
| ValueError (msg : string)
| IndexError (msg : string)
| OverflowError (msg : string)
| AttributeError (msg : string)
| KeyError (msg : string)
| TypeError (msg : string).

(** Computations that may raise. *)
Definition result (A : Type) : Type := (exn + A)%type.

Definition ret {A : Type} (a : A) : result A := inr a.
Definition raise {A : Type} (e : exn) : result A := inl e.
Definition bind {A B : Type} (m : result A) (k : A -> result B) : result B :=
  match m with
  | inl e => inl e
  | inr a => k a
  end.

Notation "x <- m ;; k" := (bind m (fun x => k))
  (at level 100, m at next level, right associativity).

Definition raises {A : Type} (r : result A) : Prop :=
  match r with inl _ => True | inr _ => False end.

Lemma bind_ret {A B : Type} (a : A) (k : A -> result B) : bind (ret a) k = k a.
Proof. reflexivity. Qed.

Lemma bind_raise {A B : Type} (e : exn) (k : A -> result B) :
  bind (raise e) k = raise e.
Proof. reflexivity. Qed.

(** [max(xs)] on a Python list of ints. *)
Definition py_max (xs : list Z) : result Z :=
  match xs with
  | [] => raise (ValueError "max() arg is an empty sequence")
  | x :: rest => ret (fold_left Z.max rest x)
  end.

(** [for x in xs: ys.append(f(x))] where [f] may raise. *)
Fixpoint mapM {A B : Type} (f : A -> result B) (xs : list A) : result (list B) :=
  match xs with
  | [] => ret []
  | x :: rest => y <- f x ;; ys <- mapM f rest ;; ret (y :: ys)
  end.

(** ** numpy arrays

    A one-dimensional complex array is a [list C]; a two-dimensional one
    is its shape together with its entries. *)

Module NdArray.
Local Open Scope R_scope.

Fixpoint Csum (f : nat -> C) (n : nat) : C :=
  match n with
  | O => C0
  | S k => Cplus (Csum f k) (f k)
  end.

Fixpoint Rsum (f : nat -> R) (n : nat) : R :=
  match n with
  | O => 0
  | S k => Rsum f k + f k
  end.

Abbreviation vec := (list C).

Definition zeros (n : nat) : vec := repeat C0 n.
Definition getitem (v : vec) (i : nat) : C := nth i v C0.
Definition setitem (v : vec) (i : nat) (x : C) : vec := <[i := x]> v.
Definition vscale (a : C) (v : vec) : vec := map (Cmult a) v.
Definition vadd (u v : vec) : vec := zip_with Cplus u v.
Definition vconj (v : vec) : vec := map Cconj v.
Definition copy (v : vec) : vec := map (fun x => x) v.

(** Squared Euclidean norm, [sum(abs(v)**2)]. *)
Definition norm2 (v : vec) : R := Rsum (fun i => Cnorm2 (getitem v i)) (length v).

(** [np.vdot(a, b)]: conjugates its first argument. *)
Definition vdot (a b : vec) : result C :=
  if decide (length a = length b)
  then ret (Csum (fun i => Cmult (Cconj (getitem a i)) (getitem b i)) (length a))
  else raise (ValueError "vdot: size mismatch").

Record matrix : Type := mkMatrix {
  nrows : nat;
  ncols : nat;
  mx : nat -> nat -> C
}.

(** [np.zeros((n, m))], [np.eye(n)], [np.array([[..], ..])]. *)
Definition mzeros (n m : nat) : matrix := mkMatrix n m (fun _ _ => C0).
Definition eye (n : nat) : matrix :=
  mkMatrix n n (fun i j => if (i =? j)%nat then C1 else C0).
Definition of_rows (rows : list (list C)) : matrix :=
  mkMatrix (length rows) (length (nth 0 rows []))
           (fun i j => nth j (nth i rows []) C0).

(** [M[i, j] = x]. *)
Definition msetitem (M : matrix) (i j : nat) (x : C) : matrix :=
  mkMatrix (nrows M) (ncols M)
           (fun a b => if ((a =? i) && (b =? j))%nat then x else mx M a b).

(** [np.kron(A, B)]. *)
Definition kron (A B : matrix) : matrix :=
  mkMatrix (nrows A * nrows B) (ncols A * ncols B)
           (fun x y => Cmult (mx A (x / nrows B) (y / ncols B))
                             (mx B (x mod nrows B) (y mod ncols B))).

(** [u @ M] for a 1-D [u]: the row vector times the matrix. *)
Definition vecmat (u : vec) (M : matrix) : result vec :=
  if decide (length u = nrows M)
  then ret (map (fun j => Csum (fun i => Cmult (getitem u i) (mx M i j)) (nrows M))
                (seq 0 (ncols M)))
  else raise (ValueError "matmul: dimension mismatch").

(** [M @ v] for a 1-D [v]. *)
Definition matvec (M : matrix) (v : vec) : result vec :=
  if decide (ncols M = length v)
  then ret (map (fun i => Csum (fun j => Cmult (mx M i j) (getitem v j)) (ncols M))
                (seq 0 (nrows M)))
  else raise (ValueError "matmul: dimension mismatch").

(** [u @ v] for two 1-D arrays: the plain (unconjugated) inner product. *)
Definition inner (u v : vec) : result C :=
  if decide (length u = length v)
  then ret (Csum (fun i => Cmult (getitem u i) (getitem v i)) (length u))
  else raise (ValueError "matmul: dimension mismatch").

(** [state.conj().T @ M @ state]; [@] associates to the left and [.T] is
    the identity on 1-D arrays. *)
Definition sandwich (state : vec) (M : matrix) : result C :=
  row <- vecmat (vconj state) M ;;
  inner row state.

(** float64 values that may be NaN. *)
Definition float : Type := option R.
Definition NaN : float := None.

Definition fsqrt (x : float) : float :=
  match x with
  | Some r => if Rlt_dec r 0 then NaN else Some (sqrt r)
  | None => NaN
  end.
Definition flift2 (op : R -> R -> R) (x y : float) : float :=
  match x, y with
  | Some a, Some b => Some (op a b)
  | _, _ => NaN
  end.
Definition fadd := flift2 Rplus.
Definition fmul := flift2 Rmult.
Definition fdiv := flift2 Rdiv.
Definition fsquare (x : float) : float := fmul x x.

(** [x > 0]; every comparison with NaN is false. *)
Definition fgt0 (x : float) : bool :=
  match x with
  | Some r => if Rlt_dec 0 r then true else false
  | None => false
  end.

(** Cast of a float to a complex entry (only applied to finite values
    below; NaN is given the dummy value 0). *)
Definition fcomplex (x : float) : C :=
  match x with
  | Some r => RtoC r
  | None => C0
  end.

End NdArray.
Export NdArray.

(** ** quantum_operations.py *)

Module QuantumOperations.

Inductive GateType : Type :=
| PAULI_X | PAULI_Y | PAULI_Z | HADAMARD | CNOT | PHASE | T_GATE
| QFT | GROVER_DIFFUSER | CUSTOM.

(** A value of the [parameters] dict: a Python int or a float. *)
Inductive pvalue : Type :=
| PInt (z : Z)
| PFloat (r : R).

Record QuantumGate : Type := mkGate {
  gate_type : GateType;
  qubits : list Z;
  parameters : option (list (string * pvalue))
}.

Record QuantumCircuit : Type := mkCircuit {
  num_qubits : nat;
  gates : list QuantumGate;
  state_vector : list C
}.

(** [QuantumCircuit.__init__]: the state |0...0>. *)
Definition new_circuit (n : nat) : QuantumCircuit :=
  {| num_qubits := n;
     gates := [];
     state_vector := <[0%nat := C1]> (repeat C0 (2 ^ n)) |}.

(** [QuantumCircuit.add_gate]. *)
Definition add_gate (c : QuantumCircuit) (g : QuantumGate)
  : result QuantumCircuit :=
  m <- py_max (qubits g) ;;
  if (m >=? Z.of_nat (num_qubits c))%Z
  then raise (ValueError "Gate qubit index exceeds circuit size")
  else ret {| num_qubits := num_qubits c;
              gates := gates c ++ [g];
              state_vector := state_vector c |}.

Definition in_range (n : nat) (q : Z) : Prop := (0 <= q < Z.of_nat n)%Z.

Local Open Scope R_scope.

(** [gate.parameters.get(key, default)]. *)
Definition param_get (ps : option (list (string * pvalue))) (key : string)
  : option pvalue :=
  match ps with
  | Some l => snd <$> find (fun kv => String.eqb (fst kv) key) l
  | None => None
  end.

Definition pvalue_real (d : R) (v : option pvalue) : R :=
  match v with
  | Some (PInt z) => IZR z
  | Some (PFloat r) => r
  | None => d
  end.

(** An exponent [n] for [2**n] used as an array dimension: it has to be
    a non-negative int. *)
Definition pvalue_dim (d : nat) (v : option pvalue) : result nat :=
  match v with
  | Some (PInt z) =>
      if (0 <=? z)%Z then ret (Z.to_nat z)
      else raise (TypeError "'float' object cannot be interpreted as an integer")
  | Some (PFloat _) =>
      raise (TypeError "'float' object cannot be interpreted as an integer")
  | None => ret d
  end.

(** [np.exp(1j * theta)] and [z ** k]. *)
Definition Cexp_i (theta : R) : C := (cos theta, sin theta).
Fixpoint Cpow (z : C) (k : nat) : C :=
  match k with
  | O => C1
  | S k' => Cmult z (Cpow z k')
  end.

Definition mscale (a : C) (M : matrix) : matrix :=
  mkMatrix (nrows M) (ncols M) (fun i j => Cmult a (mx M i j)).

(** The entries of [_initialize_standard_gates]. *)
Definition pauli_x : matrix := of_rows [[C0; C1]; [C1; C0]].
Definition pauli_y : matrix := of_rows [[C0; Copp Ci]; [Ci; C0]].
Definition pauli_z : matrix := of_rows [[C1; C0]; [C0; RtoC (-1)]].
Definition hadamard : matrix :=
  mscale (RtoC (1 / sqrt 2)) (of_rows [[C1; C1]; [C1; RtoC (-1)]]).
Definition cnot : matrix :=
  of_rows [[C1; C0; C0; C0]; [C0; C1; C0; C0]; [C0; C0; C0; C1]; [C0; C0; C1; C0]].
Definition t_gate : matrix := of_rows [[C1; C0]; [C0; Cexp_i (PI / 4)]].

Definition qft_matrix (n : nat) : matrix :=
  let N := (2 ^ n)%nat in
  let omega := Cexp_i (2 * PI / INR N) in
  mkMatrix N N (fun i j => Cmult (Cpow omega (i * j)) (RtoC (1 / sqrt (INR N)))).

Definition grover_diffuser_matrix (n : nat) : matrix :=
  let N := (2 ^ n)%nat in
  let s := RtoC (1 / sqrt (INR N)) in
  mkMatrix N N (fun i j => Cminus (Cmult (RtoC 2) (Cmult s (Cconj s)))
                                  (if (i =? j)%nat then C1 else C0)).

(** [get_gate_matrix].  The cache only memoises this function of
    (kind, parameters) and is not modelled; [None] is Python's [None]. *)
Definition get_gate_matrix (kind : GateType)
    (ps : option (list (string * pvalue))) : result (option matrix) :=
  match kind with
  | PHASE =>
      let theta := pvalue_real 0 (param_get ps "theta") in
      ret (Some (of_rows [[C1; C0]; [C0; Cexp_i theta]]))
  | QFT => n <- pvalue_dim 2 (param_get ps "n_qubits") ;; ret (Some (qft_matrix n))
  | GROVER_DIFFUSER =>
      n <- pvalue_dim 2 (param_get ps "n_qubits") ;; ret (Some (grover_diffuser_matrix n))
  | PAULI_X => ret (Some pauli_x)
  | PAULI_Y => ret (Some pauli_y)
  | PAULI_Z => ret (Some pauli_z)
  | HADAMARD => ret (Some hadamard)
  | CNOT => ret (Some cnot)
  | T_GATE => ret (Some t_gate)
  | CUSTOM => ret None
  end.

(** [tensor_product_gates] *)
Definition tensor_product_gates (gates : list matrix) : matrix :=
  match gates with
  | [] => eye 1
  | first :: rest => fold_left kron rest first
  end.

(** [_single_qubit_full_matrix] *)
Definition single_qubit_full_matrix (gate : matrix) (target : Z) (n : nat) : matrix :=
  tensor_product_gates
    (map (fun i => if (Z.of_nat i =? target)%Z then gate else eye 2) (seq 0 n)).

(** [lst[k]] for a Python list and a Python int. *)
Definition py_index {A : Type} (l : list A) (k : Z) : result A :=
  let len := Z.of_nat (length l) in
  let pos := if (k <? 0)%Z then (len + k)%Z else k in
  if ((0 <=? pos) && (pos <? len))%Z then
    match nth_error l (Z.to_nat pos) with
    | Some x => ret x
    | None => raise (IndexError "list index out of range")
    end
  else raise (IndexError "list index out of range").

(** [gate[i, j]] for non-negative indices. *)
Definition matrix_item (M : matrix) (i j : nat) : result C :=
  if ((i <? nrows M) && (j <? ncols M))%nat then ret (mx M i j)
  else raise (IndexError "index out of bounds").

(** [[(i >> k) & 1 for k in range(num_qubits)]] *)
Definition index_bits (i n : nat) : list nat :=
  map (fun k => Nat.land (Nat.shiftr i k) 1) (seq 0 n).

(** [sum(bits[targets[k]] * (2**k) for k in range(len(targets)))] *)
Definition target_index (bits : list nat) (targets : list Z) : result nat :=
  terms <- mapM (fun k => t <- py_index targets (Z.of_nat k) ;;
                          b <- py_index bits t ;;
                          ret (b * 2 ^ k)%nat)
                (seq 0 (length targets)) ;;
  ret (list_sum terms).

(** [all(i_bits[k] == j_bits[k] for k in range(n) if k not in targets)] *)
Definition non_targets_match (i_bits j_bits : list nat) (targets : list Z) (n : nat) : bool :=
  forallb (fun k => (nth k i_bits 0 =? nth k j_bits 0)%nat)
          (List.filter (fun k => negb (existsb (Z.eqb (Z.of_nat k)) targets)) (seq 0 n)).

(** One pass of the body of the double loop of
    [_multi_qubit_full_matrix]: the value left in [full_matrix[i, j]]. *)
Definition multi_qubit_entry (gate : matrix) (targets : list Z) (n i j : nat) : result C :=
  let i_bits := index_bits i n in
  let j_bits := index_bits j n in
  if non_targets_match i_bits j_bits targets n then
    i_target <- target_index i_bits targets ;;
    j_target <- target_index j_bits targets ;;
    matrix_item gate i_target j_target
  else ret (mx (eye (2 ^ n)) i j).

(** A matrix from its rows, with the shape given. *)
Definition matrix_of_rows (r c : nat) (rows : list (list C)) : matrix :=
  mkMatrix r c (fun i j => nth j (nth i rows []) C0).

(** [_multi_qubit_full_matrix] *)
Definition multi_qubit_full_matrix (gate : matrix) (targets : list Z) (n : nat)
  : result matrix :=
  let N := (2 ^ n)%nat in
  rows <- mapM (fun i => mapM (fun j => multi_qubit_entry gate targets n i j) (seq 0 N))
               (seq 0 N) ;;
  ret (matrix_of_rows N N rows).

(** [_two_qubit_full_matrix] *)
Definition two_qubit_full_matrix (gate : matrix) (targets : list Z) (n : nat)
  : result matrix :=
  t0 <- py_index targets 0 ;;
  t1 <- py_index targets 1 ;;
  if (Z.abs (t0 - t1) =? 1)%Z then
    let lo := Z.min t0 t1 in
    let hi := Z.max t0 t1 in
    ret (tensor_product_gates
           (flat_map (fun i => if (Z.of_nat i =? lo)%Z then [gate]
                               else if (Z.of_nat i =? hi)%Z then []
                               else [eye 2])
                     (seq 0 n)))
  else multi_qubit_full_matrix gate targets n.

(** [_build_full_gate_matrix] *)
Definition build_full_gate_matrix (gate_matrix : matrix) (target_qubits : list Z)
    (n : nat) : result matrix :=
  if (length target_qubits =? 1)%nat then
    t <- py_index target_qubits 0 ;;
    ret (single_qubit_full_matrix gate_matrix t n)
  else if (length target_qubits =? 2)%nat then
    two_qubit_full_matrix gate_matrix target_qubits n
  else multi_qubit_full_matrix gate_matrix target_qubits n.

(** [apply_gate_to_circuit]: returns the circuit with its new state. *)
Definition apply_gate_to_circuit (c : QuantumCircuit) (g : QuantumGate)
  : result QuantumCircuit :=
  resolved <- get_gate_matrix (gate_type g) (parameters g) ;;
  match resolved with
  | None => raise (ValueError "Unknown gate type")
  | Some gate_matrix =>
      full_gate <- build_full_gate_matrix gate_matrix (qubits g) (num_qubits c) ;;
      new_state <- matvec full_gate (state_vector c) ;;
      ret {| num_qubits := num_qubits c;
             gates := gates c;
             state_vector := new_state |}
  end.

(** *** Measurement *)

(** [format(outcome, '0{n}b')]: binary digits, zero-padded to width [n]. *)
Fixpoint bin_pos (p : positive) : string :=
  match p with
  | xH => "1"
  | xO q => bin_pos q ++ "0"
  | xI q => bin_pos q ++ "1"
  end.

Definition bin (k : N) : string :=
  match k with
  | N0 => "0"
  | Npos p => bin_pos p
  end.

Fixpoint zeros_string (k : nat) : string :=
  match k with
  | O => EmptyString
  | S k' => String "0" (zeros_string k')
  end.

Definition format_bits (n outcome : nat) : string :=
  let digits := bin (N.of_nat outcome) in
  zeros_string (n - String.length digits) ++ digits.

(** The draw [np.random.choice(a, size=size, p=p)] when it does not
    raise: [size] indices below [a]. *)
Record sampler : Type := mkSampler {
  sample : nat -> nat -> list R -> list nat;
  sample_length : forall a size p, length (sample a size p) = size;
  sample_range : forall a size p, (0 < a)%nat ->
                                  List.Forall (fun k => (k < a)%nat) (sample a size p)
}.

(** The checks [np.random.choice] makes on [p]. *)
Definition is_distribution (a : nat) (p : list R) : bool :=
  (length p =? a)%nat &&
  forallb (fun x => if Rle_dec 0 x then true else false) p &&
  (if Req_dec_T (fold_right Rplus 0 p) 1 then true else false).

Definition random_choice (S : sampler) (a size : nat) (p : list R) : result (list nat) :=
  if (a =? 0)%nat then raise (ValueError "a must be greater than 0")
  else if is_distribution a p then ret (sample S a size p)
  else raise (ValueError "probabilities do not sum to 1").

(** The counting loop [counts[bit_string] = counts.get(bit_string, 0) + 1]. *)
Definition count_outcomes (n : nat) (outcomes : list nat) : gmap string nat :=
  fold_left (fun counts outcome =>
               let bit_string := format_bits n outcome in
               <[bit_string := (default 0 (counts !! bit_string) + 1)%nat]> counts)
            outcomes (∅ : gmap string nat).

Record SimulationResult : Type := mkSimulationResult {
  counts : gmap string nat;
  probabilities : list R;
  result_state_vector : list C;
  result_num_qubits : nat;
  num_gates : nat;
  result_shots : nat
}.

Fixpoint apply_gates (c : QuantumCircuit) (gs : list QuantumGate) : result QuantumCircuit :=
  match gs with
  | [] => ret c
  | g :: rest => c' <- apply_gate_to_circuit c g ;; apply_gates c' rest
  end.

(** What [simulate_circuit] takes from outside the repository: the draw
    of [np.random.choice] and tensorly's decomposition behind
    [decompose_circuit_tensor], whose result only feeds a log line but
    which may raise. *)
Record backend : Type := mkBackend {
  draws : sampler;
  decompose_circuit_tensor : QuantumCircuit -> result unit
}.

(** [simulate_circuit], without a Redis client ([redis_url = None]); the
    wall-clock timer is left out. *)
Definition simulate_circuit (B : backend) (c : QuantumCircuit) (shots : nat)
    (optimize : bool) : result (SimulationResult * QuantumCircuit) :=
  _ <- (if (optimize && (4 <? num_qubits c)%nat)%bool
        then decompose_circuit_tensor B c else ret tt) ;;
  c' <- apply_gates c (gates c) ;;
  let probs := map (fun z => Cmod z ^ 2) (state_vector c') in
  outcomes <- random_choice (draws B) (length probs) shots probs ;;
  let histogram := count_outcomes (num_qubits c') outcomes in
  ret ({| counts := histogram;
          probabilities := probs;
          result_state_vector := state_vector c';
          result_num_qubits := num_qubits c';
          num_gates := length (gates c');
          result_shots := shots |}, c').

End QuantumOperations.

(** ** error_correction.py *)

Module ErrorCorrection.
Local Open Scope R_scope.

Inductive ErrorType : Type :=
| BIT_FLIP | PHASE_FLIP | BOTH | MEASUREMENT | DECOHERENCE.

Inductive CorrectionCode : Type :=
| STEANE_7 | SHOR_9 | SURFACE | COLOR | REPETITION | STABILIZER.

(** The wall-clock fields ([timestamp], [measurement_time]) carry no
    information used by the computation and are left out. *)
Record QubitError : Type := mkQubitError {
  qubit_id : nat;
  error_type : ErrorType;
  probability : R;
  corrected : bool
}.

Record SyndromeResult : Type := mkSyndromeResult {
  syndrome : list nat;
  measured_qubits : list nat;
  confidence : R
}.

(** [int(np.log2(len(state)))]. *)
Definition log2_len (state : vec) : result Z :=
  if decide (length state = 0%nat)
  then raise (OverflowError "cannot convert float infinity to integer")
  else ret (Z.of_nat (Nat.log2 (length state))).

(** [state[k]] for a Python int [k]; negative indices count from the end. *)
Definition item (state : vec) (k : Z) : result C :=
  let len := Z.of_nat (length state) in
  if ((0 <=? k) && (k <? len))%Z then ret (getitem state (Z.to_nat k))
  else if ((- len <=? k) && (k <? 0))%Z then ret (getitem state (Z.to_nat (len + k)))
  else raise (IndexError "index out of bounds").

(** [1 << k] and [i >> k]; a negative shift count raises. *)
Definition shl1 (k : Z) : result Z :=
  if (k <? 0)%Z then raise (ValueError "negative shift count")
  else ret (Z.shiftl 1 k).
Definition shr (i k : Z) : result Z :=
  if (k <? 0)%Z then raise (ValueError "negative shift count")
  else ret (Z.shiftr i k).

Definition indices (state : vec) : list Z := map Z.of_nat (seq 0 (length state)).

(** The loop [for i in range(len(state)): out[i] = state[i ^ (1 << sh)]]. *)
Definition flip_loop (state : vec) (sh : Z) : result vec :=
  mapM (fun i => m <- shl1 sh ;; item state (Z.lxor i m)) (indices state).

(** The loop [for i in range(len(state)): if (i >> sh) & 1: out[i] *= -1]. *)
Definition phase_loop (state : vec) (sh : Z) : result vec :=
  mapM (fun i => b <- shr i sh ;;
                 ret (if (Z.land b 1 =? 0)%Z then getitem state (Z.to_nat i)
                      else Cmult (getitem state (Z.to_nat i)) (RtoC (-1))))
       (indices state).

(** The three 2x2 matrices of [_measure_pauli_operator]. *)
Definition single_op_X : matrix := of_rows [[C0; C1]; [C1; C0]].
Definition single_op_Z : matrix := of_rows [[C1; C0]; [C0; RtoC (-1)]].
Definition identity : matrix := of_rows [[C1; C0]; [C0; C1]].

(** [_measure_pauli_operator] (defined on [SteaneCodeCorrector] only). *)
Definition build_operator (operator_bits : list nat) (pauli_type : string) : matrix :=
  let single_op := if String.eqb pauli_type "X" then single_op_X else single_op_Z in
  fold_left (fun operator b =>
               if (b =? 1)%nat then kron operator single_op
               else kron operator identity)
            operator_bits (of_rows [[C1]]).

Definition measure_pauli_operator (state : vec) (operator_bits : list nat)
    (pauli_type : string) : result R :=
  e <- sandwich state (build_operator operator_bits pauli_type) ;;
  ret (Re e).

(** [int(measurement < 0)]. *)
Definition syndrome_bit (measurement : R) : nat :=
  if Rlt_dec measurement 0 then 1%nat else 0%nat.

(** [np.abs(np.vdot(a, b)) ** 2]. *)
Definition fidelity (a b : vec) : result R :=
  z <- vdot a b ;; ret (Cmod z ^ 2).

(** *** SteaneCodeCorrector *)

Module Steane.

Definition num_physical_qubits : nat := 7.

Definition x_stabilizers : list (list nat) :=
  [ [1; 1; 1; 1; 0; 0; 0];
    [1; 1; 0; 0; 1; 1; 0];
    [1; 0; 1; 0; 1; 0; 1] ]%nat.

Definition z_stabilizers : list (list nat) :=
  [ [1; 1; 1; 1; 0; 0; 0];
    [1; 1; 0; 0; 1; 1; 0];
    [1; 0; 1; 0; 1; 0; 1] ]%nat.

(** [tuple((sum(stab[j] for j in range(7) if j == i) % 2) for stab in stabs)] *)
Definition error_syndrome (stabs : list (list nat)) (i : nat) : list nat :=
  map (fun stab =>
         (list_sum (map (fun j => nth j stab 0%nat)
                        (List.filter (fun j => (j =? i)%nat) (seq 0 7))) mod 2)%nat)
      stabs.

(** [_build_syndrome_table]: a dict from syndrome tuples to (kind, qubit). *)
Definition build_syndrome_table : gmap (list nat) (string * Z) :=
  let t0 : gmap (list nat) (string * Z) := ∅ in
  let t1 := fold_left (fun t i => <[error_syndrome x_stabilizers i := ("X"%string, Z.of_nat i)]> t)
                      (seq 0 7) t0 in
  let t2 := fold_left (fun t i => <[error_syndrome z_stabilizers i := ("Z"%string, Z.of_nat i)]> t)
                      (seq 0 7) t1 in
  <[ [0; 0; 0]%nat := ("I"%string, (-1)%Z) ]> t2.

Definition syndrome_table : gmap (list nat) (string * Z) := build_syndrome_table.

(** The basis indices of the two codewords, as written in [encode] and in
    [_get_logical_projector]:
    0b0000000 0b1010101 0b0110011 0b1100110 0b0001111 0b1011010 0b0111100 0b1101001
    and
    0b1111111 0b0101010 0b1001100 0b0011001 0b1110000 0b0100101 0b1000011 0b0010110. *)
Definition zero_codewords : list nat := [0; 85; 51; 102; 15; 90; 60; 105]%nat.
Definition one_codewords : list nat := [127; 42; 76; 25; 112; 37; 67; 22]%nat.

Definition codeword_state (codewords : list nat) : vec :=
  fold_left (fun v cw => setitem v cw (RtoC (1 / sqrt 8))) codewords (zeros (2 ^ 7)).

Definition encode (logical_state : vec) : result vec :=
  if decide (length logical_state = 2%nat) then
    let alpha := getitem logical_state 0 in
    let beta := getitem logical_state 1 in
    let zero_logical := codeword_state zero_codewords in
    let one_logical := codeword_state one_codewords in
    ret (vadd (vscale alpha zero_logical) (vscale beta one_logical))
  else raise (ValueError "Input must be a single qubit state").

Definition get_logical_projector (logical_bit : nat) : matrix :=
  let codewords := if (logical_bit =? 0)%nat then zero_codewords else one_codewords in
  fold_left (fun proj cw => msetitem proj cw cw (RtoC (1 / 8)))
            codewords (mzeros (2 ^ 7) (2 ^ 7)).

Definition decode (physical_state : vec) : result vec :=
  let logical_zero_proj := get_logical_projector 0 in
  let logical_one_proj := get_logical_projector 1 in
  e0 <- sandwich physical_state logical_zero_proj ;;
  let zero_amplitude := fsqrt (Some (Re e0)) in
  e1 <- sandwich physical_state logical_one_proj ;;
  let one_amplitude := fsqrt (Some (Re e1)) in
  let norm := fsqrt (fadd (fsquare zero_amplitude) (fsquare one_amplitude)) in
  if fgt0 norm
  then ret [fcomplex (fdiv zero_amplitude norm); fcomplex (fdiv one_amplitude norm)]
  else ret [C1; C0].

Definition measure_syndrome (physical_state : vec) : result SyndromeResult :=
  x_syndrome <- mapM (fun stabilizer =>
                        m <- measure_pauli_operator physical_state stabilizer "X" ;;
                        ret (syndrome_bit m)) x_stabilizers ;;
  z_syndrome <- mapM (fun stabilizer =>
                        m <- measure_pauli_operator physical_state stabilizer "Z" ;;
                        ret (syndrome_bit m)) z_stabilizers ;;
  ret {| syndrome := x_syndrome ++ z_syndrome;
         measured_qubits := seq 0 7;
         confidence := 95 / 100 |}.

Definition apply_pauli_correction (state : vec) (qubit : Z) (pauli_type : string)
  : result vec :=
  N <- log2_len state ;;
  if String.eqb pauli_type "X"
  then flip_loop state (N - 1 - qubit)
  else phase_loop state (N - 1 - qubit).

Definition correct_errors (physical_state : vec) (syn : SyndromeResult) : result vec :=
  let x_syndrome := take 3 (syndrome syn) in
  let z_syndrome := drop 3 (syndrome syn) in
  let corrected_state := copy physical_state in
  corrected_state <-
    match syndrome_table !! x_syndrome with
    | Some (error_type, qubit) =>
        if (String.eqb error_type "X" && (qubit >=? 0)%Z)%bool
        then apply_pauli_correction corrected_state qubit "X"
        else ret corrected_state
    | None => ret corrected_state
    end ;;
  match syndrome_table !! z_syndrome with
  | Some (error_type, qubit) =>
      if (String.eqb error_type "Z" && (qubit >=? 0)%Z)%bool
      then apply_pauli_correction corrected_state qubit "Z"
      else ret corrected_state
  | None => ret corrected_state
  end.

End Steane.

(** *** ShorCodeCorrector *)

Module Shor.

Definition num_physical_qubits : nat := 9.

(** 0b000000000, 0b000111111, 0b111000111, 0b111111000 *)
Definition zero_terms : list Z := [0; 63; 455; 504]%Z.
(** 0b000000000, -0b000111111, -0b111000111, 0b111111000 *)
Definition one_terms : list Z := [0; -63; -455; 504]%Z.

(** [encoded_state[k] += x] for a Python int [k]. *)
Definition add_at (v : vec) (k : Z) (x : C) : result vec :=
  old <- item v k ;;
  let len := Z.of_nat (length v) in
  ret (setitem v (Z.to_nat (if (k <? 0)%Z then len + k else k)) (Cplus old x)).

Fixpoint foldM {A B : Type} (f : B -> A -> result B) (xs : list A) (b : B) : result B :=
  match xs with
  | [] => ret b
  | x :: rest => b' <- f b x ;; foldM f rest b'
  end.

Definition enumerate {A : Type} (xs : list A) : list (nat * A) :=
  combine (seq 0 (length xs)) xs.

Definition encode (logical_state : vec) : result vec :=
  alpha <- item logical_state 0 ;;
  beta <- item logical_state 1 ;;
  let encoded_state := zeros (2 ^ 9) in
  let norm := RtoC (1 / (2 * sqrt 2)) in
  encoded_state <-
    foldM (fun st term => add_at st term (Cmult alpha norm)) zero_terms encoded_state ;;
  foldM (fun st '(i, term) =>
           if (i =? 0)%nat then add_at st term (Cmult beta norm)
           else add_at st (Z.abs term)
                       (Cmult (Cmult beta norm)
                              (RtoC (if (term >? 0)%Z then 1 else -1))))
        (enumerate one_terms) encoded_state.

Definition get_shor_projector (logical_bit : nat) : matrix :=
  let coeff := 1 / 8 in
  if (logical_bit =? 0)%nat then
    fold_left (fun proj state => msetitem proj state state (RtoC coeff))
              [0; 63; 455; 504]%nat (mzeros (2 ^ 9) (2 ^ 9))
  else
    fold_left (fun proj '(state, sign) => msetitem proj state state (RtoC (coeff * sign)))
              [(0%nat, 1); (63%nat, -1); (455%nat, -1); (504%nat, 1)]
              (mzeros (2 ^ 9) (2 ^ 9)).

Definition decode (physical_state : vec) : result vec :=
  let zero_proj := get_shor_projector 0 in
  let one_proj := get_shor_projector 1 in
  e0 <- sandwich physical_state zero_proj ;;
  let zero_amp := fsqrt (Some (Re e0)) in
  e1 <- sandwich physical_state one_proj ;;
  let one_amp := fsqrt (Some (Re e1)) in
  let norm := fsqrt (fadd (fsquare zero_amp) (fsquare one_amp)) in
  if fgt0 norm
  then ret [fcomplex (fdiv zero_amp norm); fcomplex (fdiv one_amp norm)]
  else ret [C1; C0].

(** [correct_errors]: copies the state and returns the copy. *)
Definition correct_errors (physical_state : vec) (syn : SyndromeResult) : vec :=
  let corrected_state := copy physical_state in
  corrected_state.

End Shor.

(** *** SurfaceCodeCorrector *)

Module Surface.

Definition num_physical_qubits (distance : nat) : nat := 2 * distance ^ 2 - 1.

Definition decode (physical_state : vec) : vec := [C1; C0].

Definition correct_errors (physical_state : vec) (syn : SyndromeResult) : vec :=
  physical_state.

End Surface.

(** [SurfaceCodeCorrector.encode]: [encoded[0] = logical[0]],
    [encoded[-1] = logical[1]]. *)
Definition surface_encode (distance : nat) (logical_state : vec) : result vec :=
  let encoded_state := zeros (2 ^ Surface.num_physical_qubits distance) in
  a <- item logical_state 0 ;;
  let encoded_state := setitem encoded_state 0 a in
  b <- item logical_state 1 ;;
  ret (setitem encoded_state (length encoded_state - 1) b).

(** *** FaultTolerantQuantumService *)

(** A draw of [np.random.random()]: a float in the half-open interval [0, 1). *)
Record unit_draw : Type := mkDraw {
  draw_value : R;
  draw_range : 0 <= draw_value < 1
}.

(** The injectable random source: generator states, [random()] and the
    index picked by [choice] among [k] alternatives. *)
Record random_source : Type := mkRandomSource {
  gen : Type;
  random : gen -> unit_draw * gen;
  choice : nat -> gen -> nat * gen
}.

#[global] Instance CorrectionCode_eq_dec : EqDecision CorrectionCode.
Proof. solve_decision. Defined.

Record CycleResult : Type := mkCycleResult {
  cycle : nat;
  errors_detected : nat;
  cycle_syndrome : list nat;
  logical_fidelity : R
}.

Record Results : Type := mkResults {
  initial_logical_state : vec;
  code_type : CorrectionCode;
  error_rate : R;
  cycles : list CycleResult;
  final_logical_state : vec;
  final_fidelity : R
}.

Module Service.
Section WithRandomSource.

Variable RS : random_source.

(** The mutable state of the service object together with the state of
    the random generator. *)
Record state : Type := mkState {
  rng : gen RS;
  error_correctors : list CorrectionCode;
  error_history : list QubitError;
  correction_statistics : CorrectionCode -> nat
}.

(** [FaultTolerantQuantumService.__init__] *)
Definition init (g : gen RS) : state :=
  {| rng := g;
     error_correctors := [STEANE_7; SHOR_9];
     error_history := [];
     correction_statistics := fun _ => 0%nat |}.

(** Stateful computations that may raise. *)
Definition svc (A : Type) : Type := state -> result (A * state).

Definition sret {A : Type} (a : A) : svc A := fun st => ret (a, st).
Definition sbind {A B : Type} (m : svc A) (k : A -> svc B) : svc B :=
  fun st => r <- m st ;; k (fst r) (snd r).
Definition lift {A : Type} (r : result A) : svc A :=
  fun st => a <- r ;; ret (a, st).

Notation "x <~ m ;; k" := (sbind m (fun x => k))
  (at level 100, m at next level, right associativity).

Definition registered (code : CorrectionCode) (st : state) : bool :=
  bool_decide (code ∈ error_correctors st).

(** Method dispatch on [self.error_correctors[code_type]]. *)
Definition corrector (code : CorrectionCode) : svc CorrectionCode :=
  fun st => if registered code st then ret (code, st)
            else raise (KeyError "code_type").

Definition corrector_encode (code : CorrectionCode) (logical_state : vec) : result vec :=
  match code with
  | STEANE_7 => Steane.encode logical_state
  | SHOR_9 => Shor.encode logical_state
  | _ => surface_encode 3 logical_state
  end.

Definition corrector_decode (code : CorrectionCode) (physical_state : vec) : result vec :=
  match code with
  | STEANE_7 => Steane.decode physical_state
  | SHOR_9 => Shor.decode physical_state
  | _ => ret (Surface.decode physical_state)
  end.

(** Only [SteaneCodeCorrector] defines [_measure_pauli_operator]. *)
Definition corrector_measure_syndrome (code : CorrectionCode) (physical_state : vec)
  : result SyndromeResult :=
  match code with
  | STEANE_7 => Steane.measure_syndrome physical_state
  | _ => raise (AttributeError "_measure_pauli_operator")
  end.

Definition corrector_correct_errors (code : CorrectionCode) (physical_state : vec)
    (syn : SyndromeResult) : result vec :=
  match code with
  | STEANE_7 => Steane.correct_errors physical_state syn
  | SHOR_9 => ret (Shor.correct_errors physical_state syn)
  | _ => ret (Surface.correct_errors physical_state syn)
  end.

Definition encode_logical_qubit (logical_state : vec) (code : CorrectionCode) : svc vec :=
  fun st =>
    if registered code st then
      encoded_state <- corrector_encode code logical_state ;; ret (encoded_state, st)
    else if decide (code = SURFACE) then
      let st' := {| rng := rng st;
                    error_correctors := error_correctors st ++ [SURFACE];
                    error_history := error_history st;
                    correction_statistics := correction_statistics st |} in
      encoded_state <- corrector_encode code logical_state ;; ret (encoded_state, st')
    else raise (ValueError "Unsupported code type").

Definition apply_bit_flip (st : vec) (qubit : Z) : result vec :=
  num_qubits <- log2_len st ;;
  flip_loop st (num_qubits - 1 - qubit).

Definition apply_phase_flip (st : vec) (qubit : Z) : result vec :=
  num_qubits <- log2_len st ;;
  phase_loop st (num_qubits - 1 - qubit).

Definition draw_random : svc R :=
  fun st => let '(u, g) := random RS (rng st) in
            ret (draw_value u,
                 {| rng := g;
                    error_correctors := error_correctors st;
                    error_history := error_history st;
                    correction_statistics := correction_statistics st |}).

Definition draw_error_type : svc ErrorType :=
  fun st => let '(k, g) := choice RS 3 (rng st) in
            ret (nth (k mod 3) [BIT_FLIP; PHASE_FLIP; BOTH] BIT_FLIP,
                 {| rng := g;
                    error_correctors := error_correctors st;
                    error_history := error_history st;
                    correction_statistics := correction_statistics st |}).

Definition apply_error (noisy_state : vec) (qubit : nat) (kind : ErrorType) : result vec :=
  match kind with
  | BIT_FLIP => apply_bit_flip noisy_state (Z.of_nat qubit)
  | PHASE_FLIP => apply_phase_flip noisy_state (Z.of_nat qubit)
  | BOTH => flipped <- apply_bit_flip noisy_state (Z.of_nat qubit) ;;
            apply_phase_flip flipped (Z.of_nat qubit)
  | _ => ret noisy_state
  end.

(** The body of the loop [for qubit in range(num_qubits)] of
    [simulate_errors]. *)
Fixpoint error_loop (qubits : list nat) (rate : R) (noisy_state : vec)
    (errors : list QubitError) : svc (vec * list QubitError) :=
  match qubits with
  | [] => sret (noisy_state, errors)
  | qubit :: rest =>
      u <~ draw_random ;;
      if Rlt_dec u rate then
        kind <~ draw_error_type ;;
        let error := {| qubit_id := qubit; error_type := kind;
                        probability := rate; corrected := false |} in
        noisy_state' <~ lift (apply_error noisy_state qubit kind) ;;
        error_loop rest rate noisy_state' (errors ++ [error])
      else error_loop rest rate noisy_state errors
  end.

Definition simulate_errors (physical_state : vec) (rate : R)
  : svc (vec * list QubitError) :=
  num_qubits <~ lift (log2_len physical_state) ;;
  out <~ error_loop (seq 0 (Z.to_nat num_qubits)) rate (copy physical_state) [] ;;
  fun st =>
    ret (out, {| rng := rng st;
                 error_correctors := error_correctors st;
                 error_history := error_history st ++ snd out;
                 correction_statistics := correction_statistics st |}).

Definition perform_error_correction (noisy_state : vec) (code : CorrectionCode)
  : svc (vec * SyndromeResult) :=
  c <~ corrector code ;;
  syn <~ lift (corrector_measure_syndrome c noisy_state) ;;
  corrected_state <~ lift (corrector_correct_errors c noisy_state syn) ;;
  fun st =>
    ret ((corrected_state, syn),
         {| rng := rng st;
            error_correctors := error_correctors st;
            error_history := error_history st;
            correction_statistics :=
              fun k => if decide (k = code)
                       then S (correction_statistics st k)
                       else correction_statistics st k |}).

(** The loop [for cycle in range(num_cycles)] of
    [full_error_correction_cycle]; returns the per-cycle records and the
    state carried out of the last cycle. *)
Fixpoint cycle_loop (cycle_ids : list nat) (logical_state : vec)
    (code : CorrectionCode) (rate : R) (current_state : vec)
    (records : list CycleResult) : svc (list CycleResult * vec) :=
  match cycle_ids with
  | [] => sret (records, current_state)
  | cyc :: rest =>
      noisy <~ simulate_errors current_state rate ;;
      fixed <~ perform_error_correction (fst noisy) code ;;
      c <~ corrector code ;;
      decoded_state <~ lift (corrector_decode c (fst fixed)) ;;
      fid <~ lift (fidelity logical_state decoded_state) ;;
      let cycle_result := {| cycle := cyc;
                             errors_detected := length (snd noisy);
                             cycle_syndrome := syndrome (snd fixed);
                             logical_fidelity := fid |} in
      cycle_loop rest logical_state code rate (fst fixed) (records ++ [cycle_result])
  end.

Definition full_error_correction_cycle (logical_state : vec) (code : CorrectionCode)
    (rate : R) (num_cycles : nat) : svc Results :=
  current_state <~ encode_logical_qubit logical_state code ;;
  out <~ cycle_loop (seq 0 num_cycles) logical_state code rate current_state [] ;;
  c <~ corrector code ;;
  final <~ lift (corrector_decode c (snd out)) ;;
  fid <~ lift (fidelity logical_state final) ;;
  sret {| initial_logical_state := logical_state;
          code_type := code;
          error_rate := rate;
          cycles := fst out;
          final_logical_state := final;
          final_fidelity := fid |}.

End WithRandomSource.
End Service.

End ErrorCorrection.

(** ** Results for [QuantumCircuit.add_gate] *)

Module AddGateFacts.
Import QuantumOperations.

Lemma fold_left_max_ge (xs : list Z) (a : Z) :
  (a <= fold_left Z.max xs a)%Z /\
  (forall x, In x xs -> (x <= fold_left Z.max xs a)%Z).
Proof.
  revert a. induction xs as [|y ys IH]; intros a; simpl.
  - split; [lia | tauto].
  - destruct (IH (Z.max a y)) as [H1 H2]. split; [lia|].
    intros x [<- | Hin]; [lia | auto].
Qed.

Lemma fold_left_max_in (xs : list Z) (a : Z) :
  fold_left Z.max xs a = a \/ In (fold_left Z.max xs a) xs.
Proof.
  revert a. induction xs as [|y ys IH]; intros a; simpl; [auto|].
  destruct (IH (Z.max a y)) as [H | H]; [|auto].
  rewrite H. destruct (Z.max_spec a y) as [[_ ->] | [_ ->]]; auto.
Qed.

(** What the guard of [add_gate] really decides: the call raises exactly
    when the target list is empty or some target is [>= num_qubits]. *)
Lemma add_gate_raises_iff (c : QuantumCircuit) (g : QuantumGate) :
  raises (add_gate c g) <->
  qubits g = [] \/ exists q, In q (qubits g) /\ (Z.of_nat (num_qubits c) <= q)%Z.
Proof.
  unfold add_gate, py_max. destruct (qubits g) as [|x rest] eqn:E; simpl.
  unfold raise, ret, bind, raises; simpl. 2: unfold raise, ret, bind, raises; simpl.
  - tauto.
  - destruct (fold_left_max_ge rest x) as [Hx Hrest].
    destruct (Z.geb_spec (fold_left Z.max rest x) (Z.of_nat (num_qubits c)))
      as [Hge | Hlt]; simpl.
    + split; [intros _ | tauto]. right.
      destruct (fold_left_max_in rest x) as [Heq | Hin].
      * exists x. split; [auto | lia].
      * exists (fold_left Z.max rest x). split; [auto | lia].
    + split; [tauto|]. intros [Hnil | [q [[<- | Hin] Hq]]].
      * discriminate.
      * lia.
      * specialize (Hrest q Hin). lia.
Qed.

(** C9: a gate whose only target is the index -1, outside [0, 2), is
    accepted by [add_gate] on a 2-qubit circuit: no error is raised and
    the gate is appended. *)
Theorem add_gate_accepts_negative_index :
  let g := mkGate PAULI_X [(-1)%Z] None in
  ~ in_range 2 (-1) /\
  add_gate (new_circuit 2) g
  = inr {| num_qubits := 2; gates := [g];
           state_vector := state_vector (new_circuit 2) |}.
Proof.
  split.
  - unfold in_range. lia.
  - reflexivity.
Qed.

End AddGateFacts.

(** ** Results for the Steane-7 syndrome table *)

Module SyndromeTableFacts.
Import ErrorCorrection ErrorCorrection.Steane.

Lemma error_syndrome_values :
  map (error_syndrome x_stabilizers) (seq 0 7)
  = [ [1;1;1]; [1;1;0]; [1;0;1]; [1;0;0]; [0;1;1]; [0;1;0]; [0;0;1] ]%nat.
Proof. reflexivity. Qed.

Lemma syndrome_table_contents :
  syndrome_table
  = list_to_map
      [ ([0;0;0]%nat, ("I"%string, (-1)%Z));
        ([1;1;1]%nat, ("Z"%string, 0%Z));
        ([1;1;0]%nat, ("Z"%string, 1%Z));
        ([1;0;1]%nat, ("Z"%string, 2%Z));
        ([1;0;0]%nat, ("Z"%string, 3%Z));
        ([0;1;1]%nat, ("Z"%string, 4%Z));
        ([0;1;0]%nat, ("Z"%string, 5%Z));
        ([0;0;1]%nat, ("Z"%string, 6%Z)) ].
Proof. 
  apply map_eq. intros k. vm_compute. reflexivity.
Qed.

(** C1: the table built by [_build_syndrome_table] is not injective on
    the 15 single-error cases.  The X error and the Z error on the same
    qubit are given the same 3-bit key, so each Z entry overwrites the X
    entry written before it: the finished table has 8 entries, none of
    kind X, and looking up the key of the X error on qubit i yields
    the Z error on qubit i. *)
Theorem syndrome_table_collapses_x_and_z :
  Forall (fun i =>
            error_syndrome x_stabilizers i = error_syndrome z_stabilizers i /\
            syndrome_table !! error_syndrome x_stabilizers i
              = Some ("Z"%string, Z.of_nat i))
         (seq 0 7) /\
  syndrome_table !! [0; 0; 0]%nat = Some ("I"%string, (-1)%Z) /\
  size syndrome_table = 8%nat /\
  map_Forall (fun _ entry => fst entry <> "X"%string) syndrome_table.
Proof.
  split; [|split; [|split]].
  - repeat constructor.
  - reflexivity.
  - reflexivity.
  - rewrite syndrome_table_contents. intros k [kind q] Hk.
    apply elem_of_list_to_map_2 in Hk. simpl.
    repeat (apply elem_of_cons in Hk as [Hk | Hk];
            [inversion Hk; subst; discriminate|]).
    inversion Hk.
Qed.

End SyndromeTableFacts.

(** ** Sums and array lemmas *)

Module ArrayFacts.
Local Open Scope R_scope.

Lemma Csum_ext (f g : nat -> C) (n : nat) :
  (forall i, (i < n)%nat -> f i = g i) -> Csum f n = Csum g n.
Proof.
  induction n as [|n IH]; intros H; simpl; [reflexivity|].
  rewrite IH, H by (intros; try apply H; lia). reflexivity.
Qed.

Lemma Rsum_ext (f g : nat -> R) (n : nat) :
  (forall i, (i < n)%nat -> f i = g i) -> Rsum f n = Rsum g n.
Proof.
  induction n as [|n IH]; intros H; simpl; [reflexivity|].
  rewrite IH, H by (intros; try apply H; lia). reflexivity.
Qed.

Lemma Csum_zero (f : nat -> C) (n : nat) :
  (forall i, (i < n)%nat -> f i = C0) -> Csum f n = C0.
Proof.
  induction n as [|n IH]; intros H; simpl; [reflexivity|].
  rewrite IH, H by (intros; try apply H; lia). apply Cplus_0_l.
Qed.

Lemma Rsum_zero (f : nat -> R) (n : nat) :
  (forall i, (i < n)%nat -> f i = 0) -> Rsum f n = 0.
Proof.
  induction n as [|n IH]; intros H; simpl; [reflexivity|].
  rewrite IH, H by (intros; try apply H; lia). ring.
Qed.

(** A sum with a single non-zero term. *)
Lemma Csum_single (f : nat -> C) (n j : nat) :
  (j < n)%nat -> (forall i, (i < n)%nat -> i <> j -> f i = C0) ->
  Csum f n = f j.
Proof.
  induction n as [|n IH]; intros Hj H; [lia|]. simpl.
  destruct (Nat.eq_dec j n) as [-> | Hne].
  - rewrite Csum_zero by (intros; apply H; lia). apply Cplus_0_l.
  - rewrite IH by (try lia; intros; apply H; lia).
    rewrite (H n) by lia. apply Cplus_0_r.
Qed.

Lemma Re_Csum (f : nat -> C) (n : nat) :
  Re (Csum f n) = Rsum (fun i => Re (f i)) n.
Proof.
  induction n as [|n IH]; simpl; [reflexivity|]. rewrite <- IH. reflexivity.
Qed.

Lemma Im_Csum (f : nat -> C) (n : nat) :
  Im (Csum f n) = Rsum (fun i => Im (f i)) n.
Proof.
  induction n as [|n IH]; simpl; [reflexivity|]. rewrite <- IH. reflexivity.
Qed.

Lemma Rsum_nonneg (f : nat -> R) (n : nat) :
  (forall i, (i < n)%nat -> 0 <= f i) -> 0 <= Rsum f n.
Proof.
  induction n as [|n IH]; intros H; simpl; [lra|].
  specialize (H n ltac:(lia)) as Hn.
  assert (0 <= Rsum f n) by (apply IH; intros; apply H; lia). lra.
Qed.

Lemma Rsum_plus (f g : nat -> R) (n : nat) :
  Rsum (fun i => f i + g i) n = Rsum f n + Rsum g n.
Proof. induction n as [|n IH]; simpl; [ring|]. rewrite IH. ring. Qed.

Lemma Rsum_scale (a : R) (f : nat -> R) (n : nat) :
  Rsum (fun i => a * f i) n = a * Rsum f n.
Proof. induction n as [|n IH]; simpl; [ring|]. rewrite IH. ring. Qed.

(** A sum whose terms vanish outside a duplicate-free list of indices. *)
Lemma Rsum_support (f : nat -> R) (n : nat) (l : list nat) :
  List.NoDup l -> (forall i, In i l -> (i < n)%nat) ->
  (forall i, (i < n)%nat -> ~ In i l -> f i = 0) ->
  Rsum f n = fold_right Rplus 0 (map f l).
Proof.
  revert l. induction n as [|n IH]; intros l Hnd Hlt Hz.
  - destruct l as [|x l]; [reflexivity|]. specialize (Hlt x ltac:(left; reflexivity)). lia.
  - simpl. destruct (in_dec Nat.eq_dec n l) as [Hin | Hnin].
    + apply in_split in Hin as (l1 & l2 & ->).
      assert (Hnd' : List.NoDup (l1 ++ l2)) by (eapply List.NoDup_remove_1; exact Hnd).
      assert (Hn' : ~ In n (l1 ++ l2)) by (eapply List.NoDup_remove_2; exact Hnd).
      rewrite (IH (l1 ++ l2)); trivial.
      * rewrite !map_app, !fold_right_app. simpl.
        generalize (fold_right Rplus 0 (map f l2)); intros r.
        clear. induction l1 as [|a l1 IH1]; simpl; [ring|]. rewrite <- IH1. ring.
      * intros i Hi.
        assert (i <> n) by (intros ->; tauto).
        assert (i < S n)%nat; [|lia].
        apply Hlt. apply in_app_or in Hi. apply in_or_app. simpl. tauto.
      * intros i Hi Hnot. apply Hz; [lia|]. intros Hc. apply Hnot.
        apply in_app_or in Hc. apply in_or_app. simpl in Hc.
        destruct Hc as [?|[?|?]]; [tauto | lia | tauto].
    + rewrite (Hz n) by (trivial; lia). rewrite (IH l); trivial; [ring | |].
      * intros i Hi. assert (i <> n) by (intros ->; tauto).
        specialize (Hlt i Hi). lia.
      * intros i Hi Hnot. apply Hz; [lia | trivial].
Qed.

Lemma getitem_map_seq (f : nat -> C) (n i : nat) :
  (i < n)%nat -> getitem (map f (seq 0 n)) i = f i.
Proof.
  intros Hi. unfold getitem.
  rewrite (nth_indep _ C0 (f 0%nat)) by (rewrite length_map, length_seq; exact Hi).
  rewrite map_nth, seq_nth by exact Hi. reflexivity.
Qed.

Lemma getitem_vconj (v : vec) (i : nat) :
  getitem (vconj v) i = Cconj (getitem v i).
Proof.
  unfold getitem, vconj. rewrite <- Cconj_0 at 1. apply map_nth.
Qed.

Lemma getitem_vscale (a : C) (v : vec) (i : nat) :
  getitem (vscale a v) i = Cmult a (getitem v i).
Proof.
  unfold getitem, vscale. rewrite <- (Cmult_0_r a) at 1. apply map_nth.
Qed.

Lemma getitem_overflow (v : vec) (i : nat) :
  (length v <= i)%nat -> getitem v i = C0.
Proof. intros H. unfold getitem. apply nth_overflow. exact H. Qed.

Lemma getitem_zeros (n i : nat) : getitem (zeros n) i = C0.
Proof.
  unfold getitem, zeros. destruct (Nat.lt_ge_cases i n) as [H|H].
  - apply nth_repeat_lt. exact H.
  - apply nth_overflow. rewrite repeat_length. exact H.
Qed.

Lemma length_setitem (v : vec) (i : nat) (x : C) :
  length (setitem v i x) = length v.
Proof. apply length_insert. Qed.

Lemma getitem_setitem (v : vec) (i j : nat) (x : C) :
  (i < length v)%nat ->
  getitem (setitem v i x) j = if (j =? i)%nat then x else getitem v j.
Proof.
  intros Hi. unfold getitem, setitem. rewrite !nth_lookup.
  destruct (Nat.eqb_spec j i) as [-> | Hne].
  - rewrite list_lookup_insert_eq by exact Hi. reflexivity.
  - rewrite list_lookup_insert_ne by congruence. reflexivity.
Qed.

Lemma length_vadd (u v : vec) :
  length u = length v -> length (vadd u v) = length u.
Proof. intros H. unfold vadd. rewrite length_zip_with. lia. Qed.

Lemma getitem_vadd (u v : vec) (i : nat) :
  length u = length v ->
  getitem (vadd u v) i = Cplus (getitem u i) (getitem v i).
Proof.
  unfold getitem, vadd. revert v i.
  induction u as [|a u IH]; intros [|b v] i H; simpl in *; try discriminate.
  - destruct i; symmetry; apply Cplus_0_l.
  - destruct i; [reflexivity|]. apply IH. lia.
Qed.

Lemma copy_id (v : vec) : copy v = v.
Proof. unfold copy. apply map_id. Qed.

(** A matrix that is diagonal with real entries: the quadratic form
    [conj(s) @ P @ s] is the weighted sum of the squared moduli. *)
Lemma sandwich_diag (s : vec) (P : matrix) (d : nat -> R) :
  nrows P = length s -> ncols P = length s ->
  (forall i j, (i < length s)%nat -> (j < length s)%nat ->
     mx P i j = if (i =? j)%nat then RtoC (d i) else C0) ->
  exists e, sandwich s P = ret e /\
            Re e = Rsum (fun i => d i * Cnorm2 (getitem s i)) (length s).
Proof.
  intros Hr Hc Hd. unfold sandwich, vecmat.
  assert (Hlen : length (vconj s) = nrows P)
    by (unfold vconj; rewrite length_map; auto).
  destruct (decide (length (vconj s) = nrows P)) as [_|]; [|contradiction].
  unfold bind, ret, inner. rewrite length_map, length_seq, Hc.
  destruct (decide (length s = length s)) as [_|]; [|contradiction].
  eexists. split; [reflexivity|].
  rewrite Re_Csum. apply Rsum_ext. intros j Hj.
  rewrite getitem_map_seq by exact Hj. rewrite Hr.
  rewrite (Csum_single _ _ j Hj).
  - rewrite Hd, Nat.eqb_refl, getitem_vconj by exact Hj.
    unfold Cmult, Cconj, RtoC, Re, Cnorm2. simpl. ring.
  - intros i Hi Hne. rewrite Hd by trivial.
    destruct (Nat.eqb_spec i j); [contradiction|]. apply Cmult_0_r.
Qed.

(** With matching shapes the quadratic form never raises. *)
Lemma sandwich_defined (s : vec) (P : matrix) :
  nrows P = length s -> ncols P = length s -> exists e, sandwich s P = ret e.
Proof.
  intros Hr Hc. unfold sandwich, vecmat.
  assert (Hlen : length (vconj s) = nrows P)
    by (unfold vconj; rewrite length_map; auto).
  destruct (decide (length (vconj s) = nrows P)) as [_|]; [|contradiction].
  unfold bind, ret, inner. rewrite length_map, length_seq, Hc.
  destruct (decide (length s = length s)) as [_|]; [|contradiction].
  eexists. reflexivity.
Qed.

End ArrayFacts.

(** ** Results for the [decode] methods *)

Module DecodeFacts.
Import ErrorCorrection ArrayFacts.
Local Open Scope R_scope.

(** The common tail of [SteaneCodeCorrector.decode] and
    [ShorCodeCorrector.decode], as a function of the two projections. *)
Definition normalise (r0 r1 : R) : vec :=
  let zero_amplitude := fsqrt (Some r0) in
  let one_amplitude := fsqrt (Some r1) in
  let norm := fsqrt (fadd (fsquare zero_amplitude) (fsquare one_amplitude)) in
  if fgt0 norm
  then [fcomplex (fdiv zero_amplitude norm); fcomplex (fdiv one_amplitude norm)]
  else [C1; C0].

(** A 2-entry logical state with real, non-negative components and
    Euclidean norm 1. *)
Definition real_unit_logical (v : vec) : Prop :=
  exists a b : R, v = [RtoC a; RtoC b] /\ 0 <= a /\ 0 <= b /\ a * a + b * b = 1.

Lemma real_unit_fallback : real_unit_logical [C1; C0].
Proof. exists 1, 0. repeat split; try lra. Qed.

Lemma normalise_nonneg (r0 r1 : R) :
  0 <= r0 -> 0 <= r1 ->
  normalise r0 r1 =
    if Rlt_dec 0 (sqrt (r0 + r1))
    then [RtoC (sqrt r0 / sqrt (r0 + r1)); RtoC (sqrt r1 / sqrt (r0 + r1))]
    else [C1; C0].
Proof.
  intros H0 H1. unfold normalise, fsqrt, fsquare, fmul, fadd, flift2.
  destruct (Rlt_dec r0 0) as [?|_]; [lra|].
  destruct (Rlt_dec r1 0) as [?|_]; [lra|].
  rewrite !sqrt_sqrt by assumption.
  destruct (Rlt_dec (r0 + r1) 0) as [?|_]; [lra|].
  unfold fgt0. destruct (Rlt_dec 0 (sqrt (r0 + r1))); reflexivity.
Qed.

Lemma normalise_real_unit (r0 r1 : R) : real_unit_logical (normalise r0 r1).
Proof.
  destruct (Rlt_dec r0 0) as [Hn0 | Hp0].
  { unfold normalise, fsqrt. destruct (Rlt_dec r0 0); [|contradiction].
    simpl. apply real_unit_fallback. }
  destruct (Rlt_dec r1 0) as [Hn1 | Hp1].
  { unfold normalise, fsqrt. destruct (Rlt_dec r0 0); [contradiction|].
    destruct (Rlt_dec r1 0); [|contradiction]. simpl. apply real_unit_fallback. }
  rewrite normalise_nonneg by lra.
  destruct (Rlt_dec 0 (sqrt (r0 + r1))) as [Hpos | _]; [|apply real_unit_fallback].
  exists (sqrt r0 / sqrt (r0 + r1)), (sqrt r1 / sqrt (r0 + r1)).
  assert (Hs0 : 0 <= sqrt r0) by apply sqrt_pos.
  assert (Hs1 : 0 <= sqrt r1) by apply sqrt_pos.
  assert (Hinv : 0 < / sqrt (r0 + r1)) by (apply Rinv_0_lt_compat; exact Hpos).
  repeat split.
  - unfold Rdiv. apply Rmult_le_pos; lra.
  - unfold Rdiv. apply Rmult_le_pos; lra.
  - assert (Hsq : sqrt (r0 + r1) * sqrt (r0 + r1) = r0 + r1)
      by (apply sqrt_sqrt; lra).
    assert (H0 : sqrt r0 * sqrt r0 = r0) by (apply sqrt_sqrt; lra).
    assert (H1 : sqrt r1 * sqrt r1 = r1) by (apply sqrt_sqrt; lra).
    assert (Hne : sqrt (r0 + r1) <> 0) by lra.
    replace (sqrt r0 / sqrt (r0 + r1) * (sqrt r0 / sqrt (r0 + r1)) +
             sqrt r1 / sqrt (r0 + r1) * (sqrt r1 / sqrt (r0 + r1)))
      with ((sqrt r0 * sqrt r0 + sqrt r1 * sqrt r1) /
            (sqrt (r0 + r1) * sqrt (r0 + r1))) by (field; exact Hne).
    assert (Hsum : 0 < r0 + r1)
      by (rewrite <- Hsq; apply Rmult_lt_0_compat; exact Hpos).
    rewrite H0, H1, Hsq. field. lra.
Qed.

Lemma steane_projector_shape (b : nat) :
  nrows (Steane.get_logical_projector b) = (2 ^ 7)%nat /\
  ncols (Steane.get_logical_projector b) = (2 ^ 7)%nat.
Proof. unfold Steane.get_logical_projector. destruct (b =? 0)%nat; split; reflexivity. Qed.

Lemma shor_projector_shape (b : nat) :
  nrows (Shor.get_shor_projector b) = (2 ^ 9)%nat /\
  ncols (Shor.get_shor_projector b) = (2 ^ 9)%nat.
Proof. unfold Shor.get_shor_projector. destruct (b =? 0)%nat; split; reflexivity. Qed.

Lemma steane_decode_normalise (s : vec) :
  length s = (2 ^ 7)%nat ->
  exists e0 e1,
    sandwich s (Steane.get_logical_projector 0) = ret e0 /\
    sandwich s (Steane.get_logical_projector 1) = ret e1 /\
    Steane.decode s = ret (normalise (Re e0) (Re e1)).
Proof.
  intros Hlen.
  destruct (steane_projector_shape 0) as [Hr0 Hc0].
  destruct (steane_projector_shape 1) as [Hr1 Hc1].
  destruct (sandwich_defined s (Steane.get_logical_projector 0)) as [e0 He0]; try congruence.
  destruct (sandwich_defined s (Steane.get_logical_projector 1)) as [e1 He1]; try congruence.
  exists e0, e1. repeat split; trivial.
  unfold Steane.decode. rewrite He0, He1. unfold bind, ret, normalise.
  destruct (fgt0 _); reflexivity.
Qed.

Lemma shor_decode_normalise (s : vec) :
  length s = (2 ^ 9)%nat ->
  exists e0 e1,
    sandwich s (Shor.get_shor_projector 0) = ret e0 /\
    sandwich s (Shor.get_shor_projector 1) = ret e1 /\
    Shor.decode s = ret (normalise (Re e0) (Re e1)).
Proof.
  intros Hlen.
  destruct (shor_projector_shape 0) as [Hr0 Hc0].
  destruct (shor_projector_shape 1) as [Hr1 Hc1].
  destruct (sandwich_defined s (Shor.get_shor_projector 0)) as [e0 He0]; try congruence.
  destruct (sandwich_defined s (Shor.get_shor_projector 1)) as [e1 He1]; try congruence.
  exists e0, e1. repeat split; trivial.
  unfold Shor.decode. rewrite He0, He1. unfold bind, ret, normalise.
  destruct (fgt0 _); reflexivity.
Qed.

(** C10: on every physical state of the code's dimension, [decode] of
    the Steane-7 and Shor-9 codes returns a 2-entry state whose components
    are real and non-negative with Euclidean norm 1; the surface-code
    [decode] does so on every input.  No relative phase can therefore be
    present in a decoded state. *)
Theorem decode_real_nonneg_unit (s7 s9 s : vec) :
  length s7 = (2 ^ 7)%nat -> length s9 = (2 ^ 9)%nat ->
  (exists v, Steane.decode s7 = ret v /\ real_unit_logical v) /\
  (exists v, Shor.decode s9 = ret v /\ real_unit_logical v) /\
  real_unit_logical (Surface.decode s).
Proof.
  intros H7 H9. split; [|split].
  - destruct (steane_decode_normalise s7 H7) as (e0 & e1 & _ & _ & ->).
    eexists. split; [reflexivity | apply normalise_real_unit].
  - destruct (shor_decode_normalise s9 H9) as (e0 & e1 & _ & _ & ->).
    eexists. split; [reflexivity | apply normalise_real_unit].
  - apply real_unit_fallback.
Qed.

(** C7: [ShorCodeCorrector.correct_errors] returns its input state
    unchanged, whatever the state and the syndrome. *)
Theorem shor_correct_errors_noop (physical_state : vec) (syn : SyndromeResult) :
  Shor.correct_errors physical_state syn = physical_state.
Proof. unfold Shor.correct_errors. apply copy_id. Qed.

End DecodeFacts.

(** ** Encode / decode round trips *)

Module RoundTripFacts.
Import ErrorCorrection ArrayFacts DecodeFacts.
Local Open Scope R_scope.

Definition mem (i : nat) (l : list nat) : bool := existsb (Nat.eqb i) l.

Lemma mem_In (i : nat) (l : list nat) : mem i l = true <-> In i l.
Proof.
  unfold mem. rewrite existsb_exists. split.
  - intros (x & Hx & He). apply Nat.eqb_eq in He. subst. exact Hx.
  - intros H. exists i. split; [exact H | apply Nat.eqb_refl].
Qed.

(** Repeated [v[cw] = x] over a list of indices. *)
Lemma fold_setitem_spec (x : C) (cws : list nat) (v0 : vec) :
  List.Forall (fun cw => (cw < length v0)%nat) cws ->
  let v := fold_left (fun v cw => setitem v cw x) cws v0 in
  length v = length v0 /\
  forall i, getitem v i = if mem i cws then x else getitem v0 i.
Proof.
  revert v0. induction cws as [|cw cws IH]; intros v0 Hall; simpl.
  - split; reflexivity.
  - inversion Hall as [|? ? Hcw Hrest]; subst.
    destruct (IH (setitem v0 cw x)) as [Hlen Hget].
    { rewrite length_setitem. exact Hrest. }
    split; [rewrite Hlen; apply length_setitem|].
    intros i. rewrite Hget, getitem_setitem by exact Hcw.
    destruct (mem i cws), (i =? cw)%nat; reflexivity.
Qed.

(** Repeated [proj[cw, cw] = x] over a list of indices. *)
Lemma fold_msetitem_spec (x : C) (cws : list nat) (M0 : matrix) :
  let M := fold_left (fun proj cw => msetitem proj cw cw x) cws M0 in
  nrows M = nrows M0 /\ ncols M = ncols M0 /\
  forall i j, mx M i j = if ((i =? j)%nat && mem i cws)%bool then x else mx M0 i j.
Proof.
  revert M0. induction cws as [|cw cws IH]; intros M0; simpl.
  - repeat split. intros i j. rewrite andb_false_r. reflexivity.
  - destruct (IH (msetitem M0 cw cw x)) as (Hr & Hc & Hm).
    repeat split; trivial. intros i j. rewrite Hm. simpl.
    destruct (Nat.eqb_spec i j) as [-> | Hne]; simpl.
    + destruct (mem j cws); [destruct (j =? cw)%nat; reflexivity|].
      rewrite orb_false_r, andb_diag. reflexivity.
    + destruct (Nat.eqb_spec i cw) as [-> | ?]; simpl; [|reflexivity].
      destruct (Nat.eqb_spec j cw) as [-> | ?]; [contradiction | reflexivity].
Qed.

Definition amp : R := 1 / sqrt 8.

Lemma amp_sq : amp * amp = 1 / 8.
Proof.
  unfold amp. assert (H : sqrt 8 * sqrt 8 = 8) by (apply sqrt_sqrt; lra).
  assert (Hne : sqrt 8 <> 0) by (intros Hz; rewrite Hz in H; lra).
  field_simplify; [|exact Hne]. replace (sqrt 8 ^ 2) with (sqrt 8 * sqrt 8) by ring.
  rewrite H. reflexivity.
Qed.

Lemma amp_pos : 0 < amp.
Proof.
  unfold amp. apply Rdiv_lt_0_compat; [lra|]. apply sqrt_lt_R0. lra.
Qed.

Lemma codewords_lt_128 :
  List.Forall (fun cw => (cw < 2 ^ 7)%nat) (Steane.zero_codewords ++ Steane.one_codewords).
Proof. repeat constructor. Qed.

(** The physical state produced by [SteaneCodeCorrector.encode]. *)
Lemma steane_encode_spec (alpha beta : C) :
  exists v, Steane.encode [alpha; beta] = ret v /\ length v = (2 ^ 7)%nat /\
    forall i, getitem v i =
      Cplus (Cmult alpha (if mem i Steane.zero_codewords then RtoC amp else C0))
            (Cmult beta (if mem i Steane.one_codewords then RtoC amp else C0)).
Proof.
  pose proof codewords_lt_128 as Hall. apply Forall_app in Hall as [Hz Ho].
  set (zl := fold_left (fun v cw => setitem v cw (RtoC amp))
                       Steane.zero_codewords (zeros (2 ^ 7))).
  set (ol := fold_left (fun v cw => setitem v cw (RtoC amp))
                       Steane.one_codewords (zeros (2 ^ 7))).
  destruct (fold_setitem_spec (RtoC amp) Steane.zero_codewords (zeros (2 ^ 7))) as [Hlz Hgz].
  { unfold zeros. rewrite repeat_length. exact Hz. }
  destruct (fold_setitem_spec (RtoC amp) Steane.one_codewords (zeros (2 ^ 7))) as [Hlo Hgo].
  { unfold zeros. rewrite repeat_length. exact Ho. }
  fold zl in Hlz, Hgz. fold ol in Hlo, Hgo.
  assert (Hz128 : length (zeros (2 ^ 7)) = (2 ^ 7)%nat) by apply repeat_length.
  assert (Hlen : length (vscale alpha zl) = length (vscale beta ol)).
  { unfold vscale. rewrite !length_map. congruence. }
  exists (vadd (vscale alpha zl) (vscale beta ol)). split; [|split].
  - unfold Steane.encode. simpl length.
    destruct (decide (2 = 2)%nat) as [_|]; [|contradiction]. reflexivity.
  - rewrite length_vadd by exact Hlen. unfold vscale. rewrite length_map. congruence.
  - intros i. rewrite getitem_vadd by exact Hlen.
    rewrite !getitem_vscale, Hgz, Hgo, getitem_zeros. reflexivity.
Qed.

Lemma NoDup_zero_codewords : List.NoDup Steane.zero_codewords.
Proof.
  unfold Steane.zero_codewords.
  repeat (constructor; [simpl; intuition discriminate|]). constructor.
Qed.

Lemma NoDup_one_codewords : List.NoDup Steane.one_codewords.
Proof.
  unfold Steane.one_codewords.
  repeat (constructor; [simpl; intuition discriminate|]). constructor.
Qed.

(** The quadratic form of a Steane projector: one eighth of the weight of
    the state on the eight codeword indices. *)
Lemma steane_projection (s : vec) (b : nat) :
  length s = (2 ^ 7)%nat ->
  exists e, sandwich s (Steane.get_logical_projector b) = ret e /\
    Re e = fold_right Rplus 0
             (map (fun i => 1 / 8 * Cnorm2 (getitem s i))
                  (if (b =? 0)%nat then Steane.zero_codewords else Steane.one_codewords)).
Proof.
  intros Hlen. unfold Steane.get_logical_projector.
  set (cws := if (b =? 0)%nat then Steane.zero_codewords else Steane.one_codewords).
  destruct (fold_msetitem_spec (RtoC (1 / 8)) cws (mzeros (2 ^ 7) (2 ^ 7)))
    as (Hr & Hc & Hm).
  destruct (sandwich_diag s
              (fold_left (fun proj cw => msetitem proj cw cw (RtoC (1 / 8))) cws
                         (mzeros (2 ^ 7) (2 ^ 7)))
              (fun i => if mem i cws then 1 / 8 else 0))
    as (e & He & HRe).
  - rewrite Hr, Hlen. reflexivity.
  - rewrite Hc, Hlen. reflexivity.
  - intros i j _ _. rewrite Hm. simpl.
    destruct (i =? j)%nat; simpl; [|reflexivity].
    destruct (mem i cws); reflexivity.
  - exists e. split; [exact He|]. rewrite HRe.
    assert (Hcws : List.NoDup cws /\ List.Forall (fun cw => (cw < 2 ^ 7)%nat) cws).
    { pose proof codewords_lt_128 as Hall. apply Forall_app in Hall as [Hz Ho].
      subst cws. destruct (b =? 0)%nat; split;
        auto using NoDup_zero_codewords, NoDup_one_codewords. }
    destruct Hcws as [Hnd Hlt].
    rewrite (Rsum_support _ _ cws Hnd).
    + apply f_equal. apply map_ext_in. intros i Hi.
      apply mem_In in Hi. rewrite Hi. reflexivity.
    + intros i Hi. rewrite Hlen. rewrite List.Forall_forall in Hlt. apply Hlt, Hi.
    + intros i _ Hni. destruct (mem i cws) eqn:E; [|ring].
      apply mem_In in E. contradiction.
Qed.

Lemma Cnorm2_scaled_amp (alpha beta : C) :
  Cnorm2 (Cplus (Cmult alpha (RtoC amp)) (Cmult beta C0)) = Cnorm2 alpha / 8.
Proof.
  destruct alpha as [a1 a2], beta as [b1 b2].
  unfold Cnorm2, Cplus, Cmult, RtoC, C0. simpl.
  replace ((a1 * amp - a2 * 0 + (b1 * 0 - b2 * 0)) * (a1 * amp - a2 * 0 + (b1 * 0 - b2 * 0)) +
           (a1 * 0 + a2 * amp + (b1 * 0 + b2 * 0)) * (a1 * 0 + a2 * amp + (b1 * 0 + b2 * 0)))
    with ((amp * amp) * (a1 * a1 + a2 * a2)) by ring.
  rewrite amp_sq. field.
Qed.

Lemma Cnorm2_amp_scaled (alpha beta : C) :
  Cnorm2 (Cplus (Cmult alpha C0) (Cmult beta (RtoC amp))) = Cnorm2 beta / 8.
Proof.
  destruct alpha as [a1 a2], beta as [b1 b2].
  unfold Cnorm2, Cplus, Cmult, RtoC, C0. simpl.
  replace ((a1 * 0 - a2 * 0 + (b1 * amp - b2 * 0)) * (a1 * 0 - a2 * 0 + (b1 * amp - b2 * 0)) +
           (a1 * 0 + a2 * 0 + (b1 * 0 + b2 * amp)) * (a1 * 0 + a2 * 0 + (b1 * 0 + b2 * amp)))
    with ((amp * amp) * (b1 * b1 + b2 * b2)) by ring.
  rewrite amp_sq. field.
Qed.

(** Steane-7: decoding a freshly encoded normalised state gives the
    moduli of its two amplitudes. *)
Lemma steane_roundtrip_moduli (alpha beta : C) :
  Cnorm2 alpha + Cnorm2 beta = 1 ->
  exists physical,
    Steane.encode [alpha; beta] = ret physical /\
    length physical = (2 ^ 7)%nat /\
    Steane.decode physical = ret [RtoC (Cmod alpha); RtoC (Cmod beta)].
Proof.
  intros Hnorm.
  destruct (steane_encode_spec alpha beta) as (v & Henc & Hlen & Hget).
  exists v. split; [exact Henc|]. split; [exact Hlen|].
  destruct (steane_decode_normalise v Hlen) as (e0 & e1 & He0 & He1 & ->).
  destruct (steane_projection v 0 Hlen) as (e0' & He0' & HRe0).
  destruct (steane_projection v 1 Hlen) as (e1' & He1' & HRe1).
  rewrite He0 in He0'. injection He0' as <-.
  rewrite He1 in He1'. injection He1' as <-.
  assert (H0 : Re e0 = Cnorm2 alpha / 8).
  { rewrite HRe0. simpl. rewrite !Hget. simpl. rewrite !Cnorm2_scaled_amp. field. }
  assert (H1 : Re e1 = Cnorm2 beta / 8).
  { rewrite HRe1. simpl. rewrite !Hget. simpl. rewrite !Cnorm2_amp_scaled. field. }
  rewrite H0, H1. f_equal.
  pose proof (Cnorm2_nonneg alpha) as Ha. pose proof (Cnorm2_nonneg beta) as Hb.
  rewrite normalise_nonneg by lra.
  replace (Cnorm2 alpha / 8 + Cnorm2 beta / 8) with (1 / 8) by lra.
  assert (Hs : 0 < sqrt (1 / 8)) by (apply sqrt_lt_R0; lra).
  destruct (Rlt_dec 0 (sqrt (1 / 8))) as [_|]; [|contradiction].
  unfold Cmod.
  replace (Cnorm2 alpha / 8) with (Cnorm2 alpha * (1 / 8)) by field.
  replace (Cnorm2 beta / 8) with (Cnorm2 beta * (1 / 8)) by field.
  rewrite !sqrt_mult by lra.
  f_equal; [|f_equal]; f_equal; field; lra.
Qed.

End RoundTripFacts.

(** ** The Shor-9 encoder and projectors *)

Module ShorFacts.
Import ErrorCorrection ArrayFacts DecodeFacts RoundTripFacts.
Local Open Scope R_scope.

Definition shor_norm : R := 1 / (2 * sqrt 2).

Lemma shor_norm_sq : shor_norm * shor_norm = 1 / 8.
Proof.
  unfold shor_norm. assert (H : sqrt 2 * sqrt 2 = 2) by (apply sqrt_sqrt; lra).
  assert (Hne : sqrt 2 <> 0) by (intros Hz; rewrite Hz in H; lra).
  field_simplify; [|exact Hne]. replace (sqrt 2 ^ 2) with (sqrt 2 * sqrt 2) by ring.
  rewrite H. field.
Qed.

Lemma item_in_range (v : vec) (k : Z) :
  (0 <= k < Z.of_nat (length v))%Z -> item v k = ret (getitem v (Z.to_nat k)).
Proof.
  intros [H0 H1]. unfold item.
  destruct (Z.leb_spec 0 k); [|lia]. destruct (Z.ltb_spec k (Z.of_nat (length v))); [|lia].
  reflexivity.
Qed.

Lemma add_at_spec (v : vec) (k : Z) (x : C) :
  (0 <= k < Z.of_nat (length v))%Z ->
  exists v', Shor.add_at v k x = ret v' /\ length v' = length v /\
    forall i, getitem v' i =
      if (i =? Z.to_nat k)%nat then Cplus (getitem v (Z.to_nat k)) x else getitem v i.
Proof.
  intros Hk. unfold Shor.add_at. rewrite item_in_range by exact Hk.
  unfold bind, ret. destruct (Z.ltb_spec k 0); [lia|].
  eexists. split; [reflexivity|]. split; [apply length_setitem|].
  intros i. apply getitem_setitem. lia.
Qed.

(** The four non-zero entries written by [ShorCodeCorrector.encode]. *)
Definition shor_entry (alpha beta : C) (i : nat) : C :=
  let a := Cplus C0 (Cmult alpha (RtoC shor_norm)) in
  let b := Cmult beta (RtoC shor_norm) in
  if (i =? 0)%nat then Cplus a b
  else if (i =? 63)%nat then Cplus a (Cmult b (RtoC (-1)))
  else if (i =? 455)%nat then Cplus a (Cmult b (RtoC (-1)))
  else if (i =? 504)%nat then Cplus a (Cmult b (RtoC 1))
  else C0.

Ltac step_add_at H v' Hlen Hget :=
  match goal with
  | |- context [Shor.add_at ?v ?k ?x] =>
      destruct (add_at_spec v k x) as (v' & H & Hlen & Hget);
      [ try (rewrite ?Hlen; unfold zeros; rewrite ?repeat_length); simpl Z.abs;
        repeat match goal with Hl : length _ = _ |- _ => rewrite Hl end;
        unfold zeros; rewrite ?repeat_length; split; [lia | reflexivity]
      | rewrite H, !bind_ret ]
  end.

Lemma shor_encode_spec (alpha beta : C) :
  exists v, Shor.encode [alpha; beta] = ret v /\ length v = (2 ^ 9)%nat /\
            forall i, getitem v i = shor_entry alpha beta i.
Proof.
  unfold Shor.encode.
  rewrite (item_in_range [alpha; beta] 0) by (simpl; lia).
  rewrite (item_in_range [alpha; beta] 1) by (simpl; lia).
  rewrite !bind_ret. fold shor_norm.
  change (getitem [alpha; beta] (Z.to_nat 0)) with alpha.
  change (getitem [alpha; beta] (Z.to_nat 1)) with beta.
  unfold Shor.zero_terms, Shor.one_terms, Shor.enumerate.
  cbn [Shor.foldM length seq combine Nat.eqb].
  assert (L0 : length (zeros (2 ^ 9)) = 512%nat) by apply repeat_length.
  step_add_at H1 v1 L1 G1. step_add_at H2 v2 L2 G2.
  step_add_at H3 v3 L3 G3. step_add_at H4 v4 L4 G4.
  step_add_at H5 v5 L5 G5. step_add_at H6 v6 L6 G6.
  step_add_at H7 v7 L7 G7. step_add_at H8 v8 L8 G8.
  exists v8. split; [reflexivity|].
  split; [rewrite L8, L7, L6, L5, L4, L3, L2, L1; apply repeat_length|].
  intros i.
  repeat progress (rewrite ?G8, ?G7, ?G6, ?G5, ?G4, ?G3, ?G2, ?G1).
  rewrite !getitem_zeros. unfold shor_entry.
  change (Z.to_nat 0) with 0%nat. change (Z.to_nat 63) with 63%nat.
  change (Z.to_nat 455) with 455%nat. change (Z.to_nat 504) with 504%nat.
  change (Z.to_nat (Z.abs (-63))) with 63%nat.
  change (Z.to_nat (Z.abs (-455))) with 455%nat.
  change (Z.to_nat (Z.abs 504)) with 504%nat.
  change (-63 >? 0)%Z with false. change (-455 >? 0)%Z with false.
  change (504 >? 0)%Z with true. cbv iota.
  change (0 =? 63)%nat with false. change (0 =? 455)%nat with false.
  change (0 =? 504)%nat with false. change (63 =? 0)%nat with false.
  change (63 =? 455)%nat with false. change (63 =? 504)%nat with false.
  change (455 =? 0)%nat with false. change (455 =? 63)%nat with false.
  change (455 =? 504)%nat with false. change (504 =? 0)%nat with false.
  change (504 =? 63)%nat with false. change (504 =? 455)%nat with false.
  change (0 =? 0)%nat with true. change (63 =? 63)%nat with true.
  change (455 =? 455)%nat with true. change (504 =? 504)%nat with true.
  cbv iota.
  destruct (Nat.eqb_spec i 0) as [-> | ?]; [reflexivity|].
  destruct (Nat.eqb_spec i 63) as [-> | ?]; [reflexivity|].
  destruct (Nat.eqb_spec i 455) as [-> | ?]; [reflexivity|].
  destruct (Nat.eqb_spec i 504) as [-> | ?]; reflexivity.
Qed.

Definition shor_support : list nat := [0; 63; 455; 504]%nat.

Lemma NoDup_shor_support : List.NoDup shor_support.
Proof.
  unfold shor_support.
  repeat (constructor; [simpl; intuition discriminate|]). constructor.
Qed.

Lemma shor_support_lt : forall i, In i shor_support -> (i < 2 ^ 9)%nat.
Proof.
  intros i Hi. change (2 ^ 9)%nat with 512%nat.
  simpl in Hi. intuition (subst; lia).
Qed.

Lemma Rsum_shor_support (f : nat -> R) :
  (forall i, ~ In i shor_support -> f i = 0) ->
  Rsum f (2 ^ 9) = f 0%nat + f 63%nat + f 455%nat + f 504%nat.
Proof.
  intros Hz.
  rewrite (Rsum_support f (2 ^ 9) shor_support NoDup_shor_support shor_support_lt)
    by (intros i _ Hi; apply Hz, Hi).
  simpl. ring.
Qed.

Lemma not_in_shor_support (i : nat) :
  ~ In i shor_support ->
  (i =? 0)%nat = false /\ (i =? 63)%nat = false /\
  (i =? 455)%nat = false /\ (i =? 504)%nat = false.
Proof.
  intros H. unfold shor_support in H. simpl in H.
  repeat split; apply Nat.eqb_neq; intros ->; tauto.
Qed.

(** Squared norm of the state returned by [ShorCodeCorrector.encode]:
    half the squared norm of the logical input. *)
Lemma shor_encode_norm2 (alpha beta : C) :
  exists v, Shor.encode [alpha; beta] = ret v /\
            norm2 v = (Cnorm2 alpha + Cnorm2 beta) / 2.
Proof.
  destruct (shor_encode_spec alpha beta) as (v & Henc & Hlen & Hget).
  exists v. split; [exact Henc|]. unfold norm2. rewrite Hlen.
  rewrite Rsum_shor_support.
  - rewrite !Hget. unfold shor_entry. simpl Nat.eqb. cbv iota.
    destruct alpha as [a1 a2], beta as [b1 b2].
    unfold Cnorm2, Cplus, Cmult, RtoC, C0. simpl fst. simpl snd.
    pose proof shor_norm_sq as Hn. set (n := shor_norm) in *.
    transitivity (n * n * (4 * (a1 * a1 + a2 * a2 + (b1 * b1 + b2 * b2)))); [ring|].
    rewrite Hn. field.
  - intros i Hi. rewrite Hget. unfold shor_entry.
    destruct (not_in_shor_support i Hi) as (-> & -> & -> & ->). apply Cnorm2_0.
Qed.

Definition shor_sign (i : nat) : R :=
  if (i =? 504)%nat then 1 / 8 * 1
  else if (i =? 455)%nat then 1 / 8 * -1
  else if (i =? 63)%nat then 1 / 8 * -1
  else if (i =? 0)%nat then 1 / 8 * 1
  else 0.

Lemma shor_one_projector_entries (i j : nat) :
  mx (Shor.get_shor_projector 1) i j
  = if (i =? j)%nat then RtoC (shor_sign i) else C0.
Proof.
  unfold Shor.get_shor_projector, shor_sign. simpl.
  destruct (Nat.eqb_spec i j) as [-> | Hne].
  - rewrite !andb_diag.
    repeat match goal with
           | |- context [(j =? ?c)%nat] => destruct (j =? c)%nat; [reflexivity|]
           end.
    reflexivity.
  - repeat match goal with
           | |- context [((i =? ?c) && (j =? ?c))%nat] =>
               destruct (Nat.eqb_spec i c) as [-> | ?];
               [destruct (Nat.eqb_spec j c) as [-> | ?]; [contradiction|] |]; simpl
           end.
    all: reflexivity.
Qed.

(** The two quadratic forms computed by [ShorCodeCorrector.decode]. *)
Lemma shor_projection_zero (s : vec) :
  length s = (2 ^ 9)%nat ->
  exists e, sandwich s (Shor.get_shor_projector 0) = ret e /\
    Re e = 1 / 8 * (Cnorm2 (getitem s 0) + Cnorm2 (getitem s 63) +
                    Cnorm2 (getitem s 455) + Cnorm2 (getitem s 504)).
Proof.
  intros Hlen.
  change (Shor.get_shor_projector 0)
    with (fold_left (fun proj cw => msetitem proj cw cw (RtoC (1 / 8)))
                    shor_support (mzeros (2 ^ 9) (2 ^ 9))).
  destruct (fold_msetitem_spec (RtoC (1 / 8)) shor_support (mzeros (2 ^ 9) (2 ^ 9)))
    as (Hr & Hc & Hm).
  destruct (sandwich_diag s
              (fold_left (fun proj cw => msetitem proj cw cw (RtoC (1 / 8)))
                         shor_support (mzeros (2 ^ 9) (2 ^ 9)))
              (fun i => if mem i shor_support then 1 / 8 else 0))
    as (e & He & HRe).
  - rewrite Hr, Hlen. reflexivity.
  - rewrite Hc, Hlen. reflexivity.
  - intros i j _ _. rewrite Hm. cbn [mx mzeros].
    destruct (i =? j)%nat; cbn [andb]; [|reflexivity].
    destruct (mem i shor_support); reflexivity.
  - exists e. split; [exact He|]. rewrite HRe, Hlen. rewrite Rsum_shor_support.
    + simpl mem. cbv iota. ring.
    + intros i Hi. destruct (mem i shor_support) eqn:E; [|ring].
      apply mem_In in E. contradiction.
Qed.

Lemma shor_projection_one (s : vec) :
  length s = (2 ^ 9)%nat ->
  exists e, sandwich s (Shor.get_shor_projector 1) = ret e /\
    Re e = 1 / 8 * (Cnorm2 (getitem s 0) - Cnorm2 (getitem s 63)
                    - Cnorm2 (getitem s 455) + Cnorm2 (getitem s 504)).
Proof.
  intros Hlen. destruct (shor_projector_shape 1) as [Hr Hc].
  destruct (sandwich_diag s (Shor.get_shor_projector 1) shor_sign) as (e & He & HRe).
  - congruence.
  - congruence.
  - intros i j _ _. apply shor_one_projector_entries.
  - exists e. split; [exact He|]. rewrite HRe, Hlen. rewrite Rsum_shor_support.
    + unfold shor_sign. simpl Nat.eqb. cbv iota. ring.
    + intros i Hi. unfold shor_sign.
      destruct (not_in_shor_support i Hi) as (-> & -> & -> & ->). ring.
Qed.

(** Shor-9: the logical state |1> is encoded and decoded to |0>. *)
Lemma shor_roundtrip_one :
  exists physical,
    Shor.encode [C0; C1] = ret physical /\
    Shor.decode physical = ret [C1; C0].
Proof.
  destruct (shor_encode_spec C0 C1) as (v & Henc & Hlen & Hget).
  exists v. split; [exact Henc|].
  destruct (shor_decode_normalise v Hlen) as (e0 & e1 & He0 & He1 & ->).
  destruct (shor_projection_zero v Hlen) as (e0' & He0' & HRe0).
  destruct (shor_projection_one v Hlen) as (e1' & He1' & HRe1).
  rewrite He0 in He0'. injection He0' as <-.
  rewrite He1 in He1'. injection He1' as <-.
  assert (Hentry : forall i, In i shor_support -> Cnorm2 (getitem v i) = 1 / 8).
  { intros i Hi. rewrite Hget. pose proof shor_norm_sq as Hn.
    unfold shor_support in Hi. simpl in Hi.
    destruct Hi as [<- | [<- | [<- | [<- | []]]]];
      unfold shor_entry; simpl Nat.eqb; cbv iota;
      unfold Cnorm2, Cplus, Cmult, RtoC, C0, C1; simpl fst; simpl snd;
      set (n := shor_norm) in *;
      (transitivity (n * n); [ring | exact Hn]). }
  assert (H0 : Re e0 = 1 / 16).
  { rewrite HRe0, !Hentry by (unfold shor_support; simpl; tauto). field. }
  assert (H1 : Re e1 = 0).
  { rewrite HRe1, !Hentry by (unfold shor_support; simpl; tauto). field. }
  rewrite H0, H1. f_equal. rewrite normalise_nonneg by lra.
  replace (1 / 16 + 0) with (1 / 16) by ring.
  assert (Hs : 0 < sqrt (1 / 16)) by (apply sqrt_lt_R0; lra).
  destruct (Rlt_dec 0 (sqrt (1 / 16))) as [_|]; [|contradiction].
  rewrite sqrt_0. unfold C1, C0, RtoC. f_equal; [|f_equal]; f_equal; field; lra.
Qed.

(** Shor-9: the logical state |0> is encoded and decoded to |0>. *)
Lemma shor_roundtrip_zero :
  exists physical,
    Shor.encode [C1; C0] = ret physical /\
    Shor.decode physical = ret [C1; C0].
Proof.
  destruct (shor_encode_spec C1 C0) as (v & Henc & Hlen & Hget).
  exists v. split; [exact Henc|].
  destruct (shor_decode_normalise v Hlen) as (e0 & e1 & He0 & He1 & ->).
  destruct (shor_projection_zero v Hlen) as (e0' & He0' & HRe0).
  destruct (shor_projection_one v Hlen) as (e1' & He1' & HRe1).
  rewrite He0 in He0'. injection He0' as <-.
  rewrite He1 in He1'. injection He1' as <-.
  assert (Hentry : forall i, In i shor_support -> Cnorm2 (getitem v i) = 1 / 8).
  { intros i Hi. rewrite Hget. pose proof shor_norm_sq as Hn.
    unfold shor_support in Hi. simpl in Hi.
    destruct Hi as [<- | [<- | [<- | [<- | []]]]];
      unfold shor_entry; simpl Nat.eqb; cbv iota;
      unfold Cnorm2, Cplus, Cmult, RtoC, C0, C1; simpl fst; simpl snd;
      set (n := shor_norm) in *;
      (transitivity (n * n); [ring | exact Hn]). }
  assert (H0 : Re e0 = 1 / 16).
  { rewrite HRe0, !Hentry by (unfold shor_support; simpl; tauto). field. }
  assert (H1 : Re e1 = 0).
  { rewrite HRe1, !Hentry by (unfold shor_support; simpl; tauto). field. }
  rewrite H0, H1. f_equal. rewrite normalise_nonneg by lra.
  replace (1 / 16 + 0) with (1 / 16) by ring.
  assert (Hs : 0 < sqrt (1 / 16)) by (apply sqrt_lt_R0; lra).
  destruct (Rlt_dec 0 (sqrt (1 / 16))) as [_|]; [|contradiction].
  rewrite sqrt_0. unfold C1, C0, RtoC. f_equal; [|f_equal]; f_equal; field; lra.
Qed.

(** C6: [ShorCodeCorrector.encode] does not return a unit vector.  The
    squared norm of the physical state is half that of the logical
    input; on the logical state [1, 0] it is 1/2, not 1. *)
Theorem shor_encode_not_normalised :
  (forall alpha beta : C,
     exists v, Shor.encode [alpha; beta] = ret v /\
               norm2 v = (Cnorm2 alpha + Cnorm2 beta) / 2) /\
  norm2 [C1; C0] = 1 /\
  exists v, Shor.encode [C1; C0] = ret v /\ norm2 v = 1 / 2 /\ norm2 v <> 1.
Proof.
  split; [exact shor_encode_norm2|]. split.
  - unfold norm2, Cnorm2, C1, C0. simpl. ring.
  - destruct (shor_encode_norm2 C1 C0) as (v & Henc & Hn).
    exists v. split; [exact Henc|].
    assert (H : norm2 v = 1 / 2).
    { rewrite Hn. unfold Cnorm2, C1, C0. simpl. field. }
    split; [exact H | lra].
Qed.

End ShorFacts.

(** ** Fidelity of the encode / decode round trip *)

Module RoundTripFidelity.
Import ErrorCorrection ArrayFacts DecodeFacts RoundTripFacts ShorFacts.
Local Open Scope R_scope.

Lemma fidelity_pair (a0 a1 b0 b1 : C) :
  fidelity [a0; a1] [b0; b1]
  = ret (Cnorm2 (Cplus (Cmult (Cconj a0) b0) (Cmult (Cconj a1) b1))).
Proof.
  unfold fidelity, vdot. simpl length.
  destruct (decide (2 = 2)%nat) as [_|]; [|contradiction].
  rewrite bind_ret, Cmod_sqr. simpl Csum. unfold getitem. simpl nth.
  rewrite Cplus_0_l. reflexivity.
Qed.

Lemma half_sqrt2_sq : 1 / sqrt 2 * (1 / sqrt 2) = 1 / 2.
Proof.
  assert (H : sqrt 2 * sqrt 2 = 2) by (apply sqrt_sqrt; lra).
  assert (Hne : sqrt 2 <> 0) by (intros Hz; rewrite Hz in H; lra).
  field_simplify; [|exact Hne]. replace (sqrt 2 ^ 2) with (sqrt 2 * sqrt 2) by ring.
  rewrite H. reflexivity.
Qed.

(** C3, as stated, fails.  Steane-7: the normalised state
    (1/sqrt 2, -1/sqrt 2) is encoded and decoded to a state of fidelity 0
    with it.  Shor-9: the normalised state (0, 1) is encoded and decoded
    to (1, 0), of fidelity 0 with it. *)
Lemma roundtrip_fidelity_counterexample :
  let minus := [RtoC (1 / sqrt 2); RtoC (- (1 / sqrt 2))] in
  norm2 minus = 1 /\
  (exists physical decoded,
     Steane.encode minus = ret physical /\
     Steane.decode physical = ret decoded /\
     fidelity minus decoded = ret 0) /\
  norm2 [C0; C1] = 1 /\
  (exists physical decoded,
     Shor.encode [C0; C1] = ret physical /\
     Shor.decode physical = ret decoded /\
     fidelity [C0; C1] decoded = ret 0).
Proof.
  intros minus. pose proof half_sqrt2_sq as Hh.
  assert (Hnorm : Cnorm2 (RtoC (1 / sqrt 2)) + Cnorm2 (RtoC (- (1 / sqrt 2))) = 1).
  { unfold Cnorm2, RtoC. simpl. set (h := 1 / sqrt 2) in *.
    transitivity (2 * (h * h)); [ring | rewrite Hh; field]. }
  split; [|split; [|split]].
  - unfold minus, norm2. simpl. unfold getitem. simpl nth. lra.
  - destruct (steane_roundtrip_moduli _ _ Hnorm) as (physical & Henc & _ & Hdec).
    exists physical, [RtoC (Cmod (RtoC (1 / sqrt 2))); RtoC (Cmod (RtoC (- (1 / sqrt 2))))].
    split; [exact Henc|]. split; [exact Hdec|].
    unfold minus. rewrite fidelity_pair. f_equal.
    assert (Hm : Cmod (RtoC (- (1 / sqrt 2))) = Cmod (RtoC (1 / sqrt 2))).
    { unfold Cmod. f_equal. unfold Cnorm2, RtoC. simpl. ring. }
    rewrite Hm. unfold Cnorm2, Cplus, Cmult, Cconj, RtoC. simpl. ring.
  - unfold norm2, getitem, Cnorm2, C0, C1. simpl. ring.
  - destruct shor_roundtrip_one as (physical & Henc & Hdec).
    exists physical, [C1; C0]. split; [exact Henc|]. split; [exact Hdec|].
    rewrite fidelity_pair. f_equal.
    unfold Cnorm2, Cplus, Cmult, Cconj, C0, C1. simpl. ring.
Qed.

(** C3, amended: for every normalised logical state without a relative
    phase between its amplitudes, that is (a * u, b * u) with a, b real
    and non-negative, a^2 + b^2 = 1 and |u| = 1, Steane-7 [encode]
    followed at once by [decode] returns (a, b), whose fidelity with the
    logical input is 1. *)
Theorem steane_roundtrip_phase_free (u : C) (a b : R) :
  0 <= a -> 0 <= b -> a * a + b * b = 1 -> Cnorm2 u = 1 ->
  let logical := [Cmult u (RtoC a); Cmult u (RtoC b)] in
  exists physical,
    Steane.encode logical = ret physical /\
    Steane.decode physical = ret [RtoC a; RtoC b] /\
    fidelity logical [RtoC a; RtoC b] = ret 1.
Proof.
  intros Ha Hb Hab Hu logical.
  assert (Hna : Cnorm2 (Cmult u (RtoC a)) = a * a).
  { transitivity (Cnorm2 u * (a * a)); [|rewrite Hu; ring].
    unfold Cnorm2, Cmult, RtoC. simpl. ring. }
  assert (Hnb : Cnorm2 (Cmult u (RtoC b)) = b * b).
  { transitivity (Cnorm2 u * (b * b)); [|rewrite Hu; ring].
    unfold Cnorm2, Cmult, RtoC. simpl. ring. }
  destruct (steane_roundtrip_moduli (Cmult u (RtoC a)) (Cmult u (RtoC b)))
    as (physical & Henc & _ & Hdec).
  { rewrite Hna, Hnb. exact Hab. }
  exists physical. split; [exact Henc|].
  unfold Cmod in Hdec. rewrite Hna, Hnb, !sqrt_square in Hdec by assumption.
  split; [exact Hdec|].
  unfold logical. rewrite fidelity_pair. f_equal.
  transitivity (Cnorm2 u * ((a * a + b * b) * (a * a + b * b))); [|rewrite Hu, Hab; ring].
  unfold Cnorm2, Cplus, Cmult, Cconj, RtoC. simpl. ring.
Qed.

Lemma steane_roundtrip_phase_free_witness :
  exists physical,
    Steane.encode [Cmult C1 (RtoC 1); Cmult C1 (RtoC 0)] = ret physical /\
    Steane.decode physical = ret [RtoC 1; RtoC 0] /\
    fidelity [Cmult C1 (RtoC 1); Cmult C1 (RtoC 0)] [RtoC 1; RtoC 0] = ret 1.
Proof.
  apply (steane_roundtrip_phase_free C1 1 0).
  - lra.
  - lra.
  - lra.
  - unfold Cnorm2, C1. simpl. lra.
Defined.

End RoundTripFidelity.

(** ** Pauli strings built by [_measure_pauli_operator] *)

Module PauliFacts.
Import ErrorCorrection ArrayFacts.
Local Open Scope R_scope.

(** A square matrix with exactly one non-zero entry [sigma j] per column
    [j], in row [rho j]. *)
Definition monomial (M : matrix) (n : nat) (sigma : nat -> C) (rho : nat -> nat) : Prop :=
  nrows M = n /\ ncols M = n /\
  (forall j, (j < n)%nat -> (rho j < n)%nat) /\
  (forall i j, (i < n)%nat -> (j < n)%nat ->
     mx M i j = if (i =? rho j)%nat then sigma j else C0).

Lemma monomial_ext M n sigma sigma' rho rho' :
  (forall j, (j < n)%nat -> sigma j = sigma' j) ->
  (forall j, (j < n)%nat -> rho j = rho' j) ->
  monomial M n sigma rho -> monomial M n sigma' rho'.
Proof.
  intros Hs Hr (Hrows & Hcols & Hlt & Hm). repeat split; trivial.
  - intros j Hj. rewrite <- Hr by exact Hj. apply Hlt, Hj.
  - intros i j Hi Hj. rewrite Hm, Hs, Hr by assumption. reflexivity.
Qed.

Lemma divmod2_unique (i q r : nat) :
  (i = q * 2 + r)%nat -> (r < 2)%nat -> (i / 2 = q)%nat /\ (i mod 2 = r)%nat.
Proof.
  intros -> Hr. split.
  - rewrite Nat.div_add_l by lia. rewrite Nat.div_small by lia. lia.
  - rewrite Nat.add_comm, Nat.Div0.mod_add. apply Nat.mod_small. lia.
Qed.

Lemma monomial_kron2 A n sigma rho P sigmaP rhoP :
  monomial A n sigma rho -> monomial P 2 sigmaP rhoP ->
  monomial (kron A P) (n * 2)
           (fun y => Cmult (sigma (y / 2)%nat) (sigmaP (y mod 2)%nat))
           (fun y => (rho (y / 2) * 2 + rhoP (y mod 2))%nat).
Proof.
  intros (HrA & HcA & HltA & HmA) (HrP & HcP & HltP & HmP).
  unfold monomial, kron. cbn [nrows ncols mx]. rewrite HrA, HcA, HrP, HcP.
  repeat split.
  - intros j Hj.
    assert (j / 2 < n)%nat by (apply Nat.Div0.div_lt_upper_bound; lia).
    assert (j mod 2 < 2)%nat by (apply Nat.mod_upper_bound; lia).
    specialize (HltA _ H). specialize (HltP _ H0). lia.
  - intros i j Hi Hj.
    assert (Hi2 : (i / 2 < n)%nat) by (apply Nat.Div0.div_lt_upper_bound; lia).
    assert (Hj2 : (j / 2 < n)%nat) by (apply Nat.Div0.div_lt_upper_bound; lia).
    assert (Him : (i mod 2 < 2)%nat) by (apply Nat.mod_upper_bound; lia).
    assert (Hjm : (j mod 2 < 2)%nat) by (apply Nat.mod_upper_bound; lia).
    rewrite HmA, HmP by assumption.
    specialize (HltP _ Hjm).
    pose proof (Nat.div_mod_eq i 2) as Hdm.
    destruct (Nat.eqb_spec i (rho (j / 2) * 2 + rhoP (j mod 2))%nat) as [E | E].
    + destruct (divmod2_unique _ _ _ E HltP) as [E1 E2].
      rewrite E1, E2, !Nat.eqb_refl. reflexivity.
    + destruct (Nat.eqb_spec (i / 2)%nat (rho (j / 2)%nat)) as [E1 | E1];
        [|apply Cmult_0_l].
      destruct (Nat.eqb_spec (i mod 2)%nat (rhoP (j mod 2)%nat)) as [E2 | E2];
        [|apply Cmult_0_r].
      exfalso. apply E. rewrite <- E1, <- E2. lia.
Qed.

Definition sign_value (negative : bool) : C := if negative then RtoC (-1) else C1.

Lemma single_op_X_monomial :
  monomial single_op_X 2 (fun _ => C1) (fun m => (1 - m)%nat).
Proof.
  repeat split; try (intros; lia).
  intros i j Hi Hj.
  destruct i as [|[|i]]; [| |lia]; destruct j as [|[|j]]; try lia; reflexivity.
Qed.

Lemma single_op_Z_monomial :
  monomial single_op_Z 2 (fun m => sign_value (m =? 1)%nat) (fun m => m).
Proof.
  repeat split; try (intros; lia).
  intros i j Hi Hj.
  destruct i as [|[|i]]; [| |lia]; destruct j as [|[|j]]; try lia; reflexivity.
Qed.

Lemma identity_monomial : monomial identity 2 (fun _ => C1) (fun m => m).
Proof.
  repeat split; try (intros; lia).
  intros i j Hi Hj.
  destruct i as [|[|i]]; [| |lia]; destruct j as [|[|j]]; try lia; reflexivity.
Qed.

(** The row permutation and the column signs of a Pauli string, one
    qubit (one binary digit of the index) per entry of [operator_bits]. *)
Definition step_perm (is_x : bool) (rho : nat -> nat) (b : nat) : nat -> nat :=
  fun y => (rho (y / 2) * 2 +
            (if ((b =? 1) && is_x)%bool then 1 - y mod 2 else y mod 2))%nat.

Definition step_sign (is_x : bool) (sg : nat -> bool) (b : nat) : nat -> bool :=
  fun y => xorb (sg (y / 2)%nat) ((b =? 1)%nat && negb is_x && (y mod 2 =? 1)%nat).

Definition pauli_perm (is_x : bool) (bits : list nat) : nat -> nat :=
  fold_left (step_perm is_x) bits (fun _ => 0%nat).

Definition pauli_sign (is_x : bool) (bits : list nat) : nat -> bool :=
  fold_left (step_sign is_x) bits (fun _ => false).

Lemma sign_value_xorb (a b : bool) :
  sign_value (xorb a b) = Cmult (sign_value a) (sign_value b).
Proof. destruct a, b; unfold sign_value, Cmult, RtoC, C1; csimp. Qed.

Lemma operator_fold_monomial (pauli_type : string) (bits : list nat) :
  forall M n sg rho,
    monomial M n (fun y => sign_value (sg y)) rho ->
    let is_x := String.eqb pauli_type "X" in
    let single_op := if is_x then single_op_X else single_op_Z in
    monomial
      (fold_left (fun operator b =>
                    if (b =? 1)%nat then kron operator single_op
                    else kron operator identity) bits M)
      (n * 2 ^ length bits)
      (fun y => sign_value (fold_left (step_sign is_x) bits sg y))
      (fold_left (step_perm is_x) bits rho).
Proof.
  induction bits as [|b bits IH]; intros M n sg rho HM is_x single_op.
  - simpl. rewrite Nat.mul_1_r. exact HM.
  - simpl fold_left. simpl length.
    replace (n * 2 ^ S (length bits))%nat with ((n * 2) * 2 ^ length bits)%nat
      by (simpl; lia).
    apply IH. unfold step_sign, step_perm. subst single_op.
    destruct (b =? 1)%nat; [destruct is_x|]; simpl andb.
    + eapply monomial_ext; [| |apply (monomial_kron2 _ _ _ _ _ _ _ HM single_op_X_monomial)].
      * intros j _. simpl. rewrite xorb_false_r. apply Cmult_1_r.
      * reflexivity.
    + eapply monomial_ext; [| |apply (monomial_kron2 _ _ _ _ _ _ _ HM single_op_Z_monomial)].
      * intros j _. simpl. symmetry. apply sign_value_xorb.
      * reflexivity.
    + eapply monomial_ext; [| |apply (monomial_kron2 _ _ _ _ _ _ _ HM identity_monomial)].
      * intros j _. simpl. rewrite xorb_false_r. apply Cmult_1_r.
      * reflexivity.
Qed.

Lemma build_operator_monomial (bits : list nat) (pauli_type : string) :
  let is_x := String.eqb pauli_type "X" in
  monomial (build_operator bits pauli_type) (2 ^ length bits)
           (fun y => sign_value (pauli_sign is_x bits y)) (pauli_perm is_x bits).
Proof.
  intros is_x. unfold build_operator, pauli_sign, pauli_perm.
  replace (2 ^ length bits)%nat with (1 * 2 ^ length bits)%nat by lia.
  apply (operator_fold_monomial pauli_type bits (of_rows [[C1]]) 1
           (fun _ => false) (fun _ => 0%nat)).
  repeat split; try (intros; lia).
  intros i j Hi Hj. destruct i; [|lia]. destruct j; [|lia]. reflexivity.
Qed.

Lemma sandwich_monomial (s : vec) (M : matrix) (sigma : nat -> C) (rho : nat -> nat) :
  monomial M (length s) sigma rho ->
  sandwich s M =
    ret (Csum (fun j => Cmult (Cmult (Cconj (getitem s (rho j))) (sigma j)) (getitem s j))
              (length s)).
Proof.
  intros (Hr & Hc & Hlt & Hm). unfold sandwich, vecmat.
  assert (Hlen : length (vconj s) = nrows M)
    by (unfold vconj; rewrite length_map; auto).
  destruct (decide (length (vconj s) = nrows M)) as [_|]; [|contradiction].
  rewrite bind_ret. unfold inner. rewrite length_map, length_seq, Hc.
  destruct (decide (length s = length s)) as [_|]; [|contradiction].
  f_equal. apply Csum_ext. intros j Hj.
  rewrite getitem_map_seq by exact Hj. rewrite Hr.
  rewrite (Csum_single _ _ (rho j) (Hlt j Hj)).
  - rewrite Hm, Nat.eqb_refl, getitem_vconj by auto. reflexivity.
  - intros i Hi Hne. rewrite Hm by trivial.
    destruct (Nat.eqb_spec i (rho j)); [contradiction|]. apply Cmult_0_r.
Qed.

(** The expectation value returned by [_measure_pauli_operator]. *)
Lemma measure_pauli_operator_spec (s : vec) (bits : list nat) (pauli_type : string) :
  length s = (2 ^ length bits)%nat ->
  let is_x := String.eqb pauli_type "X" in
  measure_pauli_operator s bits pauli_type =
    ret (Rsum (fun j => Re (Cmult (Cmult (Cconj (getitem s (pauli_perm is_x bits j)))
                                         (sign_value (pauli_sign is_x bits j)))
                                  (getitem s j)))
              (length s)).
Proof.
  intros Hlen is_x. unfold measure_pauli_operator.
  pose proof (build_operator_monomial bits pauli_type) as HM. simpl in HM.
  rewrite <- Hlen in HM. rewrite (sandwich_monomial _ _ _ _ HM), bind_ret.
  rewrite Re_Csum. reflexivity.
Qed.

End PauliFacts.

(** ** States supported on a set of basis indices *)

Module ScenarioFacts.
Import ErrorCorrection ArrayFacts DecodeFacts RoundTripFacts PauliFacts.
Local Open Scope R_scope.

(** The amplitude 1/sqrt 8 on the indices of [supp], 0 elsewhere. *)
Definition indicator (supp : list nat) (i : nat) : C :=
  if mem i supp then RtoC amp else C0.

Definition has_support (s : vec) (supp : list nat) : Prop :=
  length s = (2 ^ 7)%nat /\
  forall i, (i < 2 ^ 7)%nat -> getitem s i = indicator supp i.

(** Signed count of the indices of [supp] that a Pauli string maps back
    into [supp]. *)
Definition overlap_term (is_x : bool) (bits supp : list nat) (j : nat) : Z :=
  if mem (pauli_perm is_x bits j) supp
  then (if pauli_sign is_x bits j then -1 else 1)%Z
  else 0%Z.

Definition signed_overlap (is_x : bool) (bits supp : list nat) : Z :=
  fold_right Z.add 0%Z (map (overlap_term is_x bits supp) supp).

Lemma fold_right_eighths (f : nat -> R) (g : nat -> Z) (l : list nat) :
  (forall j, In j l -> f j = IZR (g j) / 8) ->
  fold_right Rplus 0 (map f l) = IZR (fold_right Z.add 0%Z (map g l)) / 8.
Proof.
  induction l as [|j l IH]; intros H; simpl.
  - field.
  - rewrite plus_IZR, IH, (H j) by (intros; try apply H; simpl; auto). field.
Qed.

Lemma measure_indicator (s : vec) (supp bits : list nat) (pauli_type : string) :
  has_support s supp -> List.NoDup supp ->
  List.Forall (fun c => (c < 2 ^ 7)%nat) supp -> length bits = 7%nat ->
  measure_pauli_operator s bits pauli_type
  = ret (IZR (signed_overlap (String.eqb pauli_type "X") bits supp) / 8).
Proof.
  intros [Hlen Hget] Hnd Hlt Hbits.
  rewrite measure_pauli_operator_spec by (rewrite Hbits; exact Hlen).
  f_equal. rewrite Hlen.
  set (is_x := String.eqb pauli_type "X").
  pose proof (build_operator_monomial bits pauli_type) as (_ & _ & Hrho & _).
  fold is_x in Hrho. rewrite Hbits in Hrho.
  rewrite List.Forall_forall in Hlt.
  rewrite (Rsum_support _ _ supp Hnd Hlt).
  - unfold signed_overlap. apply fold_right_eighths. intros j Hj.
    specialize (Hlt j Hj). rewrite (Hget j Hlt), (Hget _ (Hrho j Hlt)).
    unfold overlap_term, indicator. apply mem_In in Hj. rewrite Hj.
    pose proof amp_sq as Ha.
    destruct (mem (pauli_perm is_x bits j) supp), (pauli_sign is_x bits j);
      unfold sign_value, Cmult, Cconj, RtoC, C0, C1, Re; simpl fst; simpl snd.
    + transitivity (- (amp * amp)); [ring | rewrite Ha; field].
    + transitivity (amp * amp); [ring | rewrite Ha; field].
    + field.
    + field.
  - intros j Hj Hnin. rewrite (Hget j Hj). unfold indicator.
    destruct (mem j supp) eqn:E; [apply mem_In in E; contradiction|].
    rewrite Cmult_0_r. reflexivity.
Qed.

Lemma syndrome_bit_eighths (k : Z) :
  syndrome_bit (IZR k / 8) = if (k <? 0)%Z then 1%nat else 0%nat.
Proof.
  unfold syndrome_bit. destruct (Z.ltb_spec k 0) as [Hk | Hk].
  - apply IZR_lt in Hk. destruct (Rlt_dec (IZR k / 8) 0); [reflexivity | lra].
  - apply IZR_le in Hk. destruct (Rlt_dec (IZR k / 8) 0); [lra | reflexivity].
Qed.

Definition syndrome_of_support (supp : list nat) : list nat :=
  map (fun stab => if (signed_overlap true stab supp <? 0)%Z then 1%nat else 0%nat)
      Steane.x_stabilizers ++
  map (fun stab => if (signed_overlap false stab supp <? 0)%Z then 1%nat else 0%nat)
      Steane.z_stabilizers.

(** [measure_syndrome] on a state supported on [supp]. *)
Lemma measure_syndrome_indicator (s : vec) (supp : list nat) :
  has_support s supp -> List.NoDup supp ->
  List.Forall (fun c => (c < 2 ^ 7)%nat) supp ->
  Steane.measure_syndrome s
  = ret {| syndrome := syndrome_of_support supp;
           measured_qubits := seq 0 7;
           confidence := 95 / 100 |}.
Proof.
  intros Hs Hnd Hlt. unfold Steane.measure_syndrome, syndrome_of_support.
  unfold Steane.x_stabilizers, Steane.z_stabilizers. cbn [mapM map].
  rewrite !(measure_indicator s supp _ _ Hs Hnd Hlt) by reflexivity.
  rewrite !bind_ret, !syndrome_bit_eighths.
  change (String.eqb "X" "X") with true. change (String.eqb "Z" "X") with false.
  reflexivity.
Qed.

Lemma mapM_ret {A B : Type} (f : A -> result B) (g : A -> B) (l : list A) :
  (forall x, In x l -> f x = ret (g x)) -> mapM f l = ret (map g l).
Proof.
  induction l as [|x l IH]; intros H; simpl; [reflexivity|].
  rewrite (H x), bind_ret, IH, bind_ret by (intros; try apply H; simpl; auto).
  reflexivity.
Qed.

Lemma log2_len_128 (s : vec) : length s = (2 ^ 7)%nat -> log2_len s = ret 7%Z.
Proof.
  intros H. unfold log2_len. rewrite H.
  destruct (decide ((2 ^ 7)%nat = 0%nat)) as [E|_]; [discriminate E|]. reflexivity.
Qed.

Lemma flip64_in_range :
  forallb (fun i => let k := Z.lxor (Z.of_nat i) 64 in ((0 <=? k) && (k <? 128))%Z)
          (seq 0 128) = true.
Proof. vm_compute. reflexivity. Qed.

(** The bit flip on qubit 0 of a 7-qubit state: entry [i] takes the old
    entry [i xor 64]. *)
Lemma flip_loop_qubit0 (s : vec) :
  length s = (2 ^ 7)%nat ->
  flip_loop s 6 =
    ret (map (fun i => getitem s (Z.to_nat (Z.lxor (Z.of_nat i) 64))) (seq 0 128)).
Proof.
  intros Hlen. unfold flip_loop, indices. rewrite Hlen.
  change (2 ^ 7)%nat with 128%nat.
  rewrite (mapM_ret _ (fun i => getitem s (Z.to_nat (Z.lxor i 64)))).
  - rewrite map_map. reflexivity.
  - intros x Hx. apply in_map_iff in Hx as (i & <- & Hi).
    change (shl1 6) with (ret 64%Z : result Z). rewrite bind_ret.
    pose proof flip64_in_range as Hr. rewrite forallb_forall in Hr.
    specialize (Hr i Hi). cbv zeta in Hr. apply andb_true_iff in Hr as [H0 H1].
    unfold item. rewrite Hlen. change (Z.of_nat (2 ^ 7)) with 128%Z.
    rewrite H0, H1. reflexivity.
Qed.

Definition flipped_support : list nat :=
  map (fun c => Z.to_nat (Z.lxor (Z.of_nat c) 64)) Steane.zero_codewords.

Lemma flipped_support_mem :
  forallb (fun i => Bool.eqb (mem (Z.to_nat (Z.lxor (Z.of_nat i) 64)) Steane.zero_codewords)
                             (mem i flipped_support))
          (seq 0 128) = true.
Proof. vm_compute. reflexivity. Qed.

Lemma flip_support (s : vec) :
  has_support s Steane.zero_codewords ->
  exists flipped, Service.apply_bit_flip s 0 = ret flipped /\
                  flip_loop s 6 = ret flipped /\
                  has_support flipped flipped_support.
Proof.
  intros [Hlen Hget]. eexists. split; [|split].
  - unfold Service.apply_bit_flip. rewrite (log2_len_128 s Hlen), bind_ret.
    change (7 - 1 - 0)%Z with 6%Z. apply flip_loop_qubit0, Hlen.
  - apply flip_loop_qubit0, Hlen.
  - split; [rewrite length_map, length_seq; reflexivity|].
    intros i Hi. change (2 ^ 7)%nat with 128%nat in Hi.
    rewrite getitem_map_seq by exact Hi.
    pose proof flip64_in_range as Hr. rewrite forallb_forall in Hr.
    specialize (Hr i ltac:(apply in_seq; lia)). cbv zeta in Hr.
    apply andb_true_iff in Hr as [H0 H1].
    apply Z.leb_le in H0. apply Z.ltb_lt in H1.
    rewrite Hget by (change (2 ^ 7)%nat with 128%nat; lia).
    pose proof flipped_support_mem as Hm. rewrite forallb_forall in Hm.
    specialize (Hm i ltac:(apply in_seq; lia)). apply Bool.eqb_prop in Hm.
    unfold indicator. rewrite Hm. reflexivity.
Qed.

(** The logical zero codeword is supported on [zero_codewords]. *)
Lemma encoded_zero_support :
  exists v, Steane.encode [C1; C0] = ret v /\ has_support v Steane.zero_codewords.
Proof.
  destruct (steane_encode_spec C1 C0) as (v & Henc & Hlen & Hget).
  exists v. split; [exact Henc|]. split; [exact Hlen|].
  intros i _. rewrite Hget. unfold indicator.
  destruct (mem i Steane.zero_codewords), (mem i Steane.one_codewords);
    unfold Cplus, Cmult, RtoC, C0, C1; csimp.
Qed.

Lemma zero_codewords_lt : List.Forall (fun c => (c < 2 ^ 7)%nat) Steane.zero_codewords.
Proof. repeat constructor. Qed.



Lemma syndrome_zero_codeword :
  syndrome_of_support Steane.zero_codewords = [0; 0; 0; 0; 0; 0]%nat.
Proof. vm_compute. reflexivity. Qed.


End ScenarioFacts.

(** ** Correction and the fault-tolerant cycle on Steane-7 *)

Module CycleFacts.
Import ErrorCorrection ArrayFacts DecodeFacts RoundTripFacts PauliFacts ScenarioFacts.
Import RoundTripFidelity.
Local Open Scope R_scope.

Lemma table_lookup_000 :
  Steane.syndrome_table !! [0; 0; 0]%nat = Some ("I"%string, (-1)%Z).
Proof. reflexivity. Qed.

Lemma table_lookup_011 :
  Steane.syndrome_table !! [0; 1; 1]%nat = Some ("Z"%string, 4%Z).
Proof. reflexivity. Qed.

Lemma phase_loop_spec (s : vec) (sh : Z) :
  (0 <= sh)%Z ->
  exists out, phase_loop s sh = ret out /\ length out = length s /\
              forall i, Cnorm2 (getitem out i) = Cnorm2 (getitem s i).
Proof.
  intros Hsh. unfold phase_loop, indices.
  set (g := fun i : Z =>
              if (Z.land (Z.shiftr i sh) 1 =? 0)%Z then getitem s (Z.to_nat i)
              else Cmult (getitem s (Z.to_nat i)) (RtoC (-1))).
  exists (map g (map Z.of_nat (seq 0 (length s)))). split; [|split].
  - apply mapM_ret. intros x _. unfold shr.
    destruct (Z.ltb_spec sh 0); [lia|]. reflexivity.
  - rewrite !length_map. apply length_seq.
  - intros i. rewrite map_map.
    destruct (Nat.lt_ge_cases i (length s)) as [Hi | Hi].
    + rewrite getitem_map_seq by exact Hi. unfold g. rewrite Nat2Z.id.
      destruct (Z.land _ 1 =? 0)%Z; [reflexivity|].
      unfold Cnorm2, Cmult, RtoC. simpl. ring.
    + rewrite !getitem_overflow; trivial.
      rewrite length_map, length_seq. exact Hi.
Qed.

(** No syndrome bit set: [correct_errors] returns the state unchanged. *)
Lemma correct_errors_trivial (s : vec) (mq : list nat) (conf : R) :
  Steane.correct_errors s (mkSyndromeResult [0; 0; 0; 0; 0; 0]%nat mq conf) = ret s.
Proof.
  unfold Steane.correct_errors. cbn [syndrome take drop].
  rewrite table_lookup_000. cbn [String.eqb Ascii.eqb Bool.eqb andb].
  rewrite bind_ret, copy_id. reflexivity.
Qed.

(** Syndrome (0,0,0,0,1,1): the X half selects no correction and the Z
    half selects a phase flip on qubit 4, which leaves every modulus
    unchanged. *)
Lemma correct_errors_011 (s : vec) (mq : list nat) (conf : R) :
  length s = (2 ^ 7)%nat ->
  exists out,
    Steane.correct_errors s (mkSyndromeResult [0; 0; 0; 0; 1; 1]%nat mq conf) = ret out /\
    phase_loop s 2 = ret out /\
    length out = (2 ^ 7)%nat /\
    forall i, Cnorm2 (getitem out i) = Cnorm2 (getitem s i).
Proof.
  intros Hlen. destruct (phase_loop_spec s 2 ltac:(lia)) as (out & Hout & Hl & Hn).
  exists out. split; [|split; [exact Hout | split; [congruence | exact Hn]]].
  unfold Steane.correct_errors. cbn [syndrome take drop].
  rewrite table_lookup_000, table_lookup_011.
  cbn [String.eqb Ascii.eqb Bool.eqb andb]. rewrite bind_ret.
  change (4 >=? 0)%Z with true. cbv iota.
  unfold Steane.apply_pauli_correction. rewrite copy_id, (log2_len_128 s Hlen), bind_ret.
  cbn [String.eqb Ascii.eqb Bool.eqb]. exact Hout.
Qed.

Lemma fold_right_Rplus_zero (f : nat -> R) (l : list nat) :
  (forall x, In x l -> f x = 0) -> fold_right Rplus 0 (map f l) = 0.
Proof.
  induction l as [|x l IH]; intros H; simpl; [reflexivity|].
  rewrite (H x), IH by (intros; try apply H; simpl; auto). ring.
Qed.

(** A state with no weight on any codeword index is decoded to the
    fallback |0>. *)
Lemma decode_no_codeword_weight (s : vec) :
  length s = (2 ^ 7)%nat ->
  (forall cw, In cw (Steane.zero_codewords ++ Steane.one_codewords) ->
              Cnorm2 (getitem s cw) = 0) ->
  Steane.decode s = ret [C1; C0].
Proof.
  intros Hlen Hdark.
  destruct (steane_decode_normalise s Hlen) as (e0 & e1 & He0 & He1 & ->).
  destruct (steane_projection s 0 Hlen) as (e0' & He0' & HRe0).
  destruct (steane_projection s 1 Hlen) as (e1' & He1' & HRe1).
  rewrite He0 in He0'. injection He0' as <-.
  rewrite He1 in He1'. injection He1' as <-.
  cbn [Nat.eqb] in HRe0, HRe1.
  rewrite fold_right_Rplus_zero in HRe0
    by (intros cw Hcw; rewrite Hdark by (apply in_or_app; auto); ring).
  rewrite fold_right_Rplus_zero in HRe1
    by (intros cw Hcw; rewrite Hdark by (apply in_or_app; auto); ring).
  rewrite HRe0, HRe1, normalise_nonneg by lra.
  rewrite Rplus_0_l, sqrt_0.
  destruct (Rlt_dec 0 0) as [H|_]; [lra | reflexivity].
Qed.


Lemma Cmod_C1 : Cmod C1 = 1.
Proof.
  unfold Cmod, Cnorm2, C1. simpl.
  replace (1 * 1 + 0 * 0) with 1 by ring. apply sqrt_1.
Qed.

Lemma Cmod_C0 : Cmod C0 = 0.
Proof.
  unfold Cmod, Cnorm2, C0. simpl.
  replace (0 * 0 + 0 * 0) with 0 by ring. apply sqrt_0.
Qed.

(** Encoding |0> and decoding it again. *)
Lemma encoded_zero_decodes :
  exists v, Steane.encode [C1; C0] = ret v /\
            has_support v Steane.zero_codewords /\
            Steane.decode v = ret [C1; C0].
Proof.
  destruct encoded_zero_support as (v & Henc & Hsupp).
  exists v. split; [exact Henc|]. split; [exact Hsupp|].
  destruct (steane_roundtrip_moduli C1 C0) as (v' & Henc' & _ & Hdec).
  { unfold Cnorm2, C1, C0. simpl. ring. }
  rewrite Henc in Henc'. injection Henc' as <-.
  rewrite Hdec, Cmod_C1, Cmod_C0. reflexivity.
Qed.

Lemma fidelity_zero_zero : fidelity [C1; C0] [C1; C0] = ret 1.
Proof.
  rewrite fidelity_pair. f_equal.
  unfold Cnorm2, Cplus, Cmult, Cconj, C1, C0. simpl. ring.
Qed.

(** After a bit flip on qubit 0 of the encoded (1, 0) and the correction
    for the syndrome (0,0,0,0,1,1), the bit flip itself is not undone: the
    corrected state carries no weight on basis index 0, where the encoded
    state has weight 1/8. *)
Lemma steane_bit_flip_left_in_place :
  exists encoded flipped corrected,
    Steane.encode [C1; C0] = ret encoded /\
    Service.apply_bit_flip encoded 0 = ret flipped /\
    Steane.correct_errors flipped
      (mkSyndromeResult [0; 0; 0; 0; 1; 1]%nat (seq 0 7) (95 / 100)) = ret corrected /\
    Cnorm2 (getitem encoded 0) = 1 / 8 /\
    Cnorm2 (getitem corrected 0) = 0.
Proof.
  destruct encoded_zero_support as (v & Henc & Hsupp).
  destruct (flip_support v Hsupp) as (flipped & Hflip & _ & Hfs).
  destruct Hfs as [Hlen Hget]. destruct Hsupp as [_ Hgetv].
  destruct (correct_errors_011 flipped (seq 0 7) (95 / 100) Hlen)
    as (corrected & Hcorr & _ & _ & Hmod).
  exists v, flipped, corrected. repeat split; trivial.
  - rewrite Hgetv by (simpl; lia). change (indicator Steane.zero_codewords 0) with (RtoC amp).
    unfold Cnorm2, RtoC. simpl. rewrite Rmult_0_l, Rplus_0_r. apply amp_sq.
  - rewrite Hmod, Hget by (simpl; lia).
    change (indicator flipped_support 0) with C0. apply Cnorm2_0.
Qed.

Section ZeroNoise.

Variable RS : random_source.

(** What the noiseless cycle keeps invariant in the service object. *)
Definition quiet (st : Service.state RS) : Prop :=
  Service.error_correctors RS st = [STEANE_7; SHOR_9] /\
  Service.error_history RS st = [].

Lemma quiet_registered (st : Service.state RS) :
  quiet st -> Service.registered RS STEANE_7 st = true.
Proof. intros [H _]. unfold Service.registered. rewrite H. reflexivity. Qed.

(** With error rate 0 no draw of [random()] is below the rate: the loop
    of [simulate_errors] changes neither the state vector nor the log. *)
Lemma error_loop_rate0 (qubits : list nat) (noisy : vec) (errors : list QubitError)
    (st : Service.state RS) :
  quiet st ->
  exists st', Service.error_loop RS qubits 0 noisy errors st = ret ((noisy, errors), st') /\
              quiet st'.
Proof.
  revert st. induction qubits as [|q qubits IH]; intros st Hq.
  - exists st. split; [reflexivity | exact Hq].
  - cbn [Service.error_loop]. unfold Service.sbind at 1. unfold Service.draw_random.
    destruct (random RS (Service.rng RS st)) as [u g]. rewrite bind_ret.
    cbn [fst snd]. destruct (Rlt_dec (draw_value u) 0) as [Hlt | _].
    + pose proof (draw_range u). lra.
    + apply IH. exact Hq.
Qed.

Lemma simulate_errors_rate0 (v : vec) (st : Service.state RS) :
  length v = (2 ^ 7)%nat -> quiet st ->
  exists st', Service.simulate_errors RS v 0 st = ret ((v, []), st') /\ quiet st'.
Proof.
  intros Hlen Hq. unfold Service.simulate_errors, Service.sbind, Service.lift.
  rewrite (log2_len_128 v Hlen), !bind_ret. cbn [fst snd].
  destruct (error_loop_rate0 (seq 0 (Z.to_nat 7)) (copy v) [] st Hq) as (st1 & H1 & Hq1).
  rewrite H1, bind_ret. cbn [fst snd]. rewrite copy_id.
  eexists. split; [reflexivity|]. destruct Hq1 as [Hc Hh].
  split; cbn; [exact Hc | rewrite Hh; reflexivity].
Qed.

Lemma perform_error_correction_clean (v : vec) (st : Service.state RS) :
  has_support v Steane.zero_codewords -> quiet st ->
  exists syn st',
    Service.perform_error_correction RS v STEANE_7 st = ret ((v, syn), st') /\
    syndrome syn = [0; 0; 0; 0; 0; 0]%nat /\ quiet st'.
Proof.
  intros Hs Hq.
  pose proof (measure_syndrome_indicator v _ Hs NoDup_zero_codewords zero_codewords_lt)
    as Hsyn.
  rewrite syndrome_zero_codeword in Hsyn.
  unfold Service.perform_error_correction, Service.sbind, Service.lift, Service.corrector.
  rewrite (quiet_registered st Hq), !bind_ret. cbn [fst snd].
  cbn [Service.corrector_measure_syndrome Service.corrector_correct_errors].
  rewrite Hsyn, !bind_ret. cbn [fst snd].
  rewrite correct_errors_trivial, !bind_ret. cbn [fst snd].
  eexists _, _. split; [reflexivity|]. split; [reflexivity|]. exact Hq.
Qed.

Definition clean_record (r : CycleResult) : Prop :=
  errors_detected r = 0%nat /\ logical_fidelity r = 1 /\
  cycle_syndrome r = [0; 0; 0; 0; 0; 0]%nat.

(** Every noiseless cycle leaves the encoded |0> where it was. *)
Lemma cycle_loop_rate0 (v : vec) (ids : list nat) :
  has_support v Steane.zero_codewords -> Steane.decode v = ret [C1; C0] ->
  forall (records : list CycleResult) (st : Service.state RS),
    quiet st -> List.Forall clean_record records ->
    exists records' st',
      Service.cycle_loop RS ids [C1; C0] STEANE_7 0 v records st
        = ret ((records', v), st') /\
      quiet st' /\ List.Forall clean_record records' /\
      length records' = (length records + length ids)%nat.
Proof.
  intros Hs Hdec. induction ids as [|cyc ids IH]; intros records st Hq Hrec.
  - exists records, st. split; [reflexivity|]. split; [exact Hq|].
    split; [exact Hrec | simpl; lia].
  - cbn [Service.cycle_loop]. unfold Service.sbind at 1.
    destruct (simulate_errors_rate0 v st (proj1 Hs) Hq) as (st1 & H1 & Hq1).
    rewrite H1, bind_ret. cbn [fst snd]. unfold Service.sbind at 1.
    destruct (perform_error_correction_clean v st1 Hs Hq1) as (syn & st2 & H2 & Hsyn & Hq2).
    rewrite H2, bind_ret. cbn [fst snd].
    unfold Service.sbind at 1. unfold Service.corrector at 1.
    rewrite (quiet_registered st2 Hq2), bind_ret. cbn [fst snd].
    unfold Service.sbind at 1. unfold Service.lift at 1.
    cbn [Service.corrector_decode]. rewrite Hdec, !bind_ret. cbn [fst snd].
    unfold Service.sbind at 1. unfold Service.lift at 1.
    rewrite fidelity_zero_zero, !bind_ret. cbn [fst snd length].
    destruct (IH (records ++ [mkCycleResult cyc 0 (syndrome syn) 1]) st2 Hq2)
      as (records' & st' & H & Hq' & Hall & Hlen).
    { apply Forall_app. split; [exact Hrec|]. constructor; [|constructor].
      repeat split. exact Hsyn. }
    exists records', st'. split; [exact H|]. split; [exact Hq'|].
    split; [exact Hall|]. rewrite Hlen, length_app. simpl. lia.
Qed.

Lemma full_cycle_rate0 (num_cycles : nat) (st : Service.state RS) :
  quiet st ->
  exists results st',
    Service.full_error_correction_cycle RS [C1; C0] STEANE_7 0 num_cycles st
      = ret (results, st') /\
    final_fidelity results = 1 /\
    final_logical_state results = [C1; C0] /\
    length (cycles results) = num_cycles /\
    List.Forall clean_record (cycles results) /\
    Service.error_history RS st' = [].
Proof.
  intros Hq. destruct encoded_zero_decodes as (v & Henc & Hs & Hdec).
  unfold Service.full_error_correction_cycle. unfold Service.sbind at 1.
  unfold Service.encode_logical_qubit. rewrite (quiet_registered st Hq).
  cbn [Service.corrector_encode]. rewrite Henc, !bind_ret. cbn [fst snd].
  unfold Service.sbind at 1.
  destruct (cycle_loop_rate0 v (seq 0 num_cycles) Hs Hdec [] st Hq)
    as (records & st' & Hloop & Hq' & Hall & Hlen); [constructor|].
  rewrite Hloop, bind_ret. cbn [fst snd].
  unfold Service.sbind at 1. unfold Service.corrector at 1.
  rewrite (quiet_registered st' Hq'), bind_ret. cbn [fst snd].
  unfold Service.sbind at 1. unfold Service.lift at 1.
  cbn [Service.corrector_decode]. rewrite Hdec, !bind_ret. cbn [fst snd].
  unfold Service.sbind at 1. unfold Service.lift at 1.
  rewrite fidelity_zero_zero, !bind_ret. cbn [fst snd].
  eexists _, _. split; [reflexivity|]. cbn.
  split; [reflexivity|]. split; [reflexivity|].
  split; [rewrite Hlen, length_seq; reflexivity|].
  split; [exact Hall | apply Hq'].
Qed.

End ZeroNoise.

(** A concrete random source: every draw of [random()] is 1/2. *)
Definition half_draw : unit_draw.
Proof. refine (mkDraw (1 / 2) _). lra. Defined.

Definition half_source : random_source :=
  mkRandomSource nat (fun g => (half_draw, S g)) (fun _ g => (g, S g)).

Example zero_rate_cycle_half_source :
  exists results st',
    Service.full_error_correction_cycle half_source [C1; C0] STEANE_7 0 1
      (Service.init half_source 0%nat) = ret (results, st') /\
    final_fidelity results = 1.
Proof.
  destruct (full_cycle_rate0 half_source 1 (Service.init half_source 0%nat))
    as (results & st' & H & Hf & _); [split; reflexivity|].
  exists results, st'. split; assumption.
Qed.

(** C5: for every random source, the full cycle on the logical state
    (1, 0) with the Steane-7 code, error rate 0 and 5 cycles returns
    [final_fidelity] = 1; no error is injected in any of the 5 cycles,
    each cycle measures the all-zero syndrome and records fidelity 1, and
    the final decode is (1, 0). *)
Theorem steane_zero_rate_five_cycles (RS : random_source) (g : gen RS) :
  exists results st',
    Service.full_error_correction_cycle RS [C1; C0] STEANE_7 0 5 (Service.init RS g)
      = ret (results, st') /\
    final_fidelity results = 1 /\
    final_logical_state results = [C1; C0] /\
    length (cycles results) = 5%nat /\
    List.Forall (fun r => errors_detected r = 0%nat /\ logical_fidelity r = 1 /\
                          cycle_syndrome r = [0; 0; 0; 0; 0; 0]%nat)
                (cycles results) /\
    Service.error_history RS st' = [].
Proof.
  apply (full_cycle_rate0 RS 5 (Service.init RS g)). split; reflexivity.
Qed.

End CycleFacts.

(** ** The measurement histogram *)

Module HistogramFacts.
Import QuantumOperations.

(** Total of the counts of a histogram. *)
Definition total (m : gmap string nat) : nat :=
  map_fold (fun _ v acc => v + acc) 0 m.

Lemma string_length_app (s1 s2 : string) :
  String.length (s1 ++ s2) = String.length s1 + String.length s2.
Proof. induction s1 as [|a s1 IH]; simpl; [reflexivity | rewrite IH; reflexivity]. Qed.

Lemma zeros_string_length (k : nat) : String.length (zeros_string k) = k.
Proof. induction k as [|k IH]; simpl; [reflexivity | rewrite IH; reflexivity]. Qed.

Lemma bin_pos_length (p : positive) (n : nat) :
  Pos.to_nat p < 2 ^ n -> String.length (bin_pos p) <= n.
Proof.
  revert n. induction p as [q IH | q IH |]; intros n Hlt; simpl.
  - destruct n as [|n]; [simpl in Hlt; lia|].
    rewrite string_length_app. simpl String.length.
    rewrite Pos2Nat.inj_xI in Hlt. rewrite Nat.pow_succ_r' in Hlt.
    specialize (IH n ltac:(lia)). lia.
  - destruct n as [|n]; [simpl in Hlt; lia|].
    rewrite string_length_app. simpl String.length.
    rewrite Pos2Nat.inj_xO in Hlt. rewrite Nat.pow_succ_r' in Hlt.
    specialize (IH n ltac:(lia)). lia.
  - destruct n as [|n]; [simpl in Hlt; lia | lia].
Qed.

Lemma bin_length_pos (k : N) : 1 <= String.length (bin k).
Proof.
  destruct k as [|p]; simpl; [lia|].
  destruct p; simpl; rewrite ?string_length_app; simpl; lia.
Qed.

(** An outcome below 2^n is printed on exactly n characters (n >= 1). *)
Lemma format_bits_length (n outcome : nat) :
  1 <= n -> outcome < 2 ^ n -> String.length (format_bits n outcome) = n.
Proof.
  intros Hn Hlt. unfold format_bits.
  rewrite string_length_app, zeros_string_length.
  assert (String.length (bin (N.of_nat outcome)) <= n); [|lia].
  destruct outcome as [|k]; [simpl; lia|].
  simpl N.of_nat. simpl bin. apply bin_pos_length.
  rewrite SuccNat2Pos.id_succ. exact Hlt.
Qed.

Lemma total_empty : total ∅ = 0.
Proof. unfold total. apply map_fold_empty. Qed.

(** [counts[k] = counts.get(k, 0) + 1] adds one to the total. *)
Lemma total_increment (m : gmap string nat) (k : string) :
  total (<[k := default 0 (m !! k) + 1]> m) = S (total m).
Proof.
  unfold total. destruct (m !! k) as [v|] eqn:E; simpl.
  - rewrite <- (insert_delete_eq m k (v + 1)).
    rewrite map_fold_insert_L; [| intros; lia | apply lookup_delete_eq].
    rewrite (map_fold_delete_L _ _ k v m); [lia | intros; lia | exact E].
  - rewrite map_fold_insert_L; [lia | intros; lia | exact E].
Qed.

Definition count_step (n : nat) (counts : gmap string nat) (outcome : nat)
  : gmap string nat :=
  let bit_string := format_bits n outcome in
  <[bit_string := default 0 (counts !! bit_string) + 1]> counts.

Lemma count_outcomes_fold (n : nat) (outcomes : list nat) (m0 : gmap string nat) :
  total (fold_left (count_step n) outcomes m0) = total m0 + length outcomes /\
  (1 <= n -> List.Forall (fun k => k < 2 ^ n) outcomes ->
   map_Forall (fun key _ => String.length key = n) m0 ->
   map_Forall (fun key _ => String.length key = n) (fold_left (count_step n) outcomes m0)).
Proof.
  revert m0. induction outcomes as [|o outcomes IH]; intros m0; simpl.
  - split; [lia | auto].
  - destruct (IH (count_step n m0 o)) as [Ht Hk].
    split.
    + rewrite Ht. unfold count_step. cbv zeta. rewrite total_increment. lia.
    + intros Hn Hall Hm0. inversion Hall as [|? ? Ho Hrest]; subst.
      apply Hk; trivial. unfold count_step. cbv zeta.
      apply map_Forall_insert_2; [|exact Hm0].
      apply format_bits_length; assumption.
Qed.

Lemma count_outcomes_total (n : nat) (outcomes : list nat) :
  total (count_outcomes n outcomes) = length outcomes.
Proof.
  change (count_outcomes n outcomes) with (fold_left (count_step n) outcomes ∅).
  destruct (count_outcomes_fold n outcomes ∅) as [H _].
  rewrite H, total_empty. reflexivity.
Qed.

Lemma count_outcomes_keys (n : nat) (outcomes : list nat) :
  1 <= n -> List.Forall (fun k => k < 2 ^ n) outcomes ->
  map_Forall (fun key _ => String.length key = n) (count_outcomes n outcomes).
Proof.
  intros Hn Hall.
  change (count_outcomes n outcomes) with (fold_left (count_step n) outcomes ∅).
  destruct (count_outcomes_fold n outcomes ∅) as [_ H].
  apply H; trivial. apply map_Forall_empty.
Qed.

Lemma is_distribution_true (a : nat) (p : list R) :
  length p = a -> List.Forall (fun x => (0 <= x)%R) p ->
  fold_right Rplus 0%R p = 1%R -> is_distribution a p = true.
Proof.
  intros Hlen Hpos Hsum. unfold is_distribution.
  apply Nat.eqb_eq in Hlen. rewrite Hlen. simpl.
  destruct (Req_dec_T (fold_right Rplus 0%R p) 1) as [_|]; [|contradiction].
  rewrite andb_true_r. apply forallb_forall. intros x Hx.
  rewrite List.Forall_forall in Hpos. specialize (Hpos x Hx).
  destruct (Rle_dec 0 x); [reflexivity | contradiction].
Qed.

Lemma probabilities_nonneg (v : vec) :
  List.Forall (fun x => (0 <= x)%R) (map (fun z => (Cmod z ^ 2)%R) v).
Proof.
  apply List.Forall_forall. intros x Hx. apply in_map_iff in Hx as (z & <- & _).
  rewrite Cmod_sqr. apply Cnorm2_nonneg.
Qed.

(** The sampler that always draws outcome 0, and a backend whose
    decomposition returns. *)
Definition zero_sampler : sampler.
Proof.
  refine (mkSampler (fun _ size _ => repeat 0 size) _ _).
  - intros _ size _. apply repeat_length.
  - intros a size _ Ha. apply List.Forall_forall. intros k Hk.
    apply repeat_spec in Hk. subst. exact Ha.
Defined.

Definition zero_backend : backend := mkBackend zero_sampler (fun _ => ret tt).

(** C8, as stated, fails on the circuit with no qubits: its state is the
    one-entry vector (1), a valid distribution, and one shot gives the
    histogram that maps the 1-character key "0" to 1, while n = 0. *)
Lemma histogram_key_length_counterexample :
  let c := new_circuit 0 in
  apply_gates c (gates c) = ret c /\
  fold_right Rplus 0%R (map (fun z => (Cmod z ^ 2)%R) (state_vector c)) = 1%R /\
  exists res,
    simulate_circuit zero_backend c 1 true = ret (res, c) /\
    counts res !! "0"%string = Some 1 /\
    String.length "0" <> num_qubits c.
Proof.
  intros c.
  assert (Hsum : fold_right Rplus 0%R (map (fun z => (Cmod z ^ 2)%R) (state_vector c)) = 1%R).
  { change (state_vector c) with [C1]. cbn [map fold_right].
    rewrite Cmod_sqr. unfold Cnorm2, C1. simpl. ring. }
  split; [reflexivity|]. split; [exact Hsum|].
  unfold simulate_circuit. change (4 <? num_qubits c) with false.
  cbn [andb]. rewrite bind_ret.
  change (apply_gates c (gates c)) with (ret c : result _).
  rewrite bind_ret. unfold random_choice.
  rewrite length_map. change (length (state_vector c)) with 1.
  change (1 =? 0) with false. cbv iota.
  rewrite is_distribution_true;
    [| rewrite length_map; reflexivity | apply probabilities_nonneg | exact Hsum].
  rewrite bind_ret. eexists. split; [reflexivity|]. split; [reflexivity|].
  simpl. discriminate.
Qed.

(** C8, amended: for every circuit whose gates apply without error to a
    state of length 2^n whose probabilities sum to 1, and every
    shots >= 1, the histogram returned by [simulate_circuit] has counts
    whose total is exactly [shots], and if the circuit has at least one
    qubit every key has exactly n characters.  (When [optimize] is set on
    more than 4 qubits the tensor decomposition is assumed to return.) *)
Theorem histogram_total_is_shots (B : backend) (c c' : QuantumCircuit) (shots : nat)
    (optimize : bool) :
  ((optimize && (4 <? num_qubits c))%bool = true ->
   decompose_circuit_tensor B c = ret tt) ->
  apply_gates c (gates c) = ret c' ->
  length (state_vector c') = 2 ^ num_qubits c' ->
  fold_right Rplus 0%R (map (fun z => (Cmod z ^ 2)%R) (state_vector c')) = 1%R ->
  1 <= shots ->
  exists res,
    simulate_circuit B c shots optimize = ret (res, c') /\
    total (counts res) = shots /\
    (1 <= num_qubits c' ->
     map_Forall (fun key _ => String.length key = num_qubits c') (counts res)).
Proof.
  intros Hdec Hrun Hlen Hsum Hshots.
  unfold simulate_circuit.
  assert (Hpre : (if (optimize && (4 <? num_qubits c))%bool
                  then decompose_circuit_tensor B c else ret tt) = ret tt).
  { destruct (optimize && (4 <? num_qubits c))%bool; [apply Hdec|]; reflexivity. }
  rewrite Hpre, bind_ret, Hrun, bind_ret. unfold random_choice.
  rewrite length_map, Hlen.
  assert (Hpow : 0 < 2 ^ num_qubits c') by (apply Nat.neq_0_lt_0, Nat.pow_nonzero; lia).
  destruct (Nat.eqb_spec (2 ^ num_qubits c') 0) as [E|_]; [lia|].
  rewrite is_distribution_true;
    [| rewrite length_map; exact Hlen | apply probabilities_nonneg | exact Hsum].
  rewrite bind_ret. eexists. split; [reflexivity|]. cbn [counts].
  split.
  - rewrite count_outcomes_total. apply sample_length.
  - intros Hn. apply count_outcomes_keys; [exact Hn|].
    apply sample_range. exact Hpow.
Qed.

Lemma histogram_total_is_shots_witness :
  exists res,
    simulate_circuit zero_backend (new_circuit 1) 3 true = ret (res, new_circuit 1) /\
    total (counts res) = 3 /\
    (1 <= num_qubits (new_circuit 1) ->
     map_Forall (fun key _ => String.length key = num_qubits (new_circuit 1))
                (counts res)).
Proof.
  apply (histogram_total_is_shots zero_backend (new_circuit 1) (new_circuit 1) 3 true).
  - intros H. discriminate H.
  - reflexivity.
  - reflexivity.
  - change (state_vector (new_circuit 1)) with [C1; C0]. cbn [map fold_right].
    rewrite !Cmod_sqr. unfold Cnorm2, C1, C0. simpl. ring.
  - lia.
Defined.

End HistogramFacts.

(** ** Unitary matrices preserve the Euclidean norm *)

Module LinearFacts.
Import ArrayFacts.
Local Open Scope R_scope.

Lemma Csum_plus (f g : nat -> C) (n : nat) :
  Csum (fun i => Cplus (f i) (g i)) n = Cplus (Csum f n) (Csum g n).
Proof.
  induction n as [|n IH]; simpl; [symmetry; apply Cplus_0_l|].
  rewrite IH. unfold Cplus; csimp.
Qed.

Lemma Csum_mult_l (c : C) (f : nat -> C) (n : nat) :
  Csum (fun i => Cmult c (f i)) n = Cmult c (Csum f n).
Proof.
  induction n as [|n IH]; simpl; [symmetry; apply Cmult_0_r|].
  rewrite IH, Cmult_plus_distr_l. reflexivity.
Qed.

Lemma Csum_mult_r (c : C) (f : nat -> C) (n : nat) :
  Csum (fun i => Cmult (f i) c) n = Cmult (Csum f n) c.
Proof.
  induction n as [|n IH]; simpl; [symmetry; apply Cmult_0_l|].
  rewrite IH, Cmult_plus_distr_r. reflexivity.
Qed.

Lemma Csum_conj (f : nat -> C) (n : nat) :
  Cconj (Csum f n) = Csum (fun i => Cconj (f i)) n.
Proof.
  induction n as [|n IH]; simpl; [apply Cconj_0|].
  rewrite Cconj_plus, IH. reflexivity.
Qed.

Lemma Csum_swap (f : nat -> nat -> C) (n m : nat) :
  Csum (fun i => Csum (fun j => f i j) m) n
  = Csum (fun j => Csum (fun i => f i j) n) m.
Proof.
  induction n as [|n IH]; simpl.
  - symmetry. apply Csum_zero. reflexivity.
  - rewrite IH, <- Csum_plus. reflexivity.
Qed.

Lemma Rsum_swap (f : nat -> nat -> R) (n m : nat) :
  Rsum (fun i => Rsum (fun j => f i j) m) n
  = Rsum (fun j => Rsum (fun i => f i j) n) m.
Proof.
  induction n as [|n IH]; simpl.
  - symmetry. apply Rsum_zero. reflexivity.
  - rewrite IH, <- Rsum_plus. reflexivity.
Qed.

Lemma Rsum_single (f : nat -> R) (n j : nat) :
  (j < n)%nat -> (forall i, (i < n)%nat -> i <> j -> f i = 0) ->
  Rsum f n = f j.
Proof.
  induction n as [|n IH]; intros Hj H; [lia|]. simpl.
  destruct (Nat.eq_dec j n) as [-> | Hne].
  - rewrite Rsum_zero by (intros; apply H; lia). ring.
  - rewrite IH by (try lia; intros; apply H; lia).
    rewrite (H n) by lia. ring.
Qed.

Lemma Rsum_app (f : nat -> R) (n m : nat) :
  Rsum f (n + m) = Rsum f n + Rsum (fun k => f (n + k)%nat) m.
Proof.
  induction m as [|m IH]; simpl.
  - rewrite Nat.add_0_r. ring.
  - rewrite Nat.add_succ_r. simpl. rewrite IH. ring.
Qed.

Lemma Csum_app (f : nat -> C) (n m : nat) :
  Csum f (n + m) = Cplus (Csum f n) (Csum (fun k => f (n + k)%nat) m).
Proof.
  induction m as [|m IH]; simpl.
  - rewrite Nat.add_0_r. symmetry. apply Cplus_0_r.
  - rewrite Nat.add_succ_r. simpl. rewrite IH. apply eq_sym, Cplus_assoc.
Qed.

(** A sum over [a * b] indices, by blocks of [b]. *)
Lemma Rsum_product (f : nat -> R) (a b : nat) :
  Rsum f (a * b) = Rsum (fun i => Rsum (fun k => f (i * b + k)%nat) b) a.
Proof.
  induction a as [|a IH]; simpl; [reflexivity|].
  rewrite Nat.add_comm, Rsum_app, IH. reflexivity.
Qed.

Lemma Csum_product (f : nat -> C) (a b : nat) :
  Csum f (a * b) = Csum (fun i => Csum (fun k => f (i * b + k)%nat) b) a.
Proof.
  induction a as [|a IH]; simpl; [reflexivity|].
  rewrite Nat.add_comm, Csum_app, IH. reflexivity.
Qed.

Lemma Cnorm2_Re (z : C) : Cnorm2 z = Re (Cmult (Cconj z) z).
Proof. unfold Cnorm2, Re, Cmult, Cconj. simpl. ring. Qed.

Lemma Re_Csum_norm (w : nat -> C) (n : nat) :
  Re (Csum (fun i => Cmult (Cconj (w i)) (w i)) n)
  = Rsum (fun i => Cnorm2 (w i)) n.
Proof.
  rewrite Re_Csum. apply Rsum_ext. intros i _. symmetry. apply Cnorm2_Re.
Qed.

Lemma Csum_mult_sums (f g : nat -> C) (n m : nat) :
  Cmult (Csum f n) (Csum g m)
  = Csum (fun j => Csum (fun l => Cmult (f j) (g l)) m) n.
Proof.
  rewrite <- Csum_mult_r. apply Csum_ext. intros j _.
  rewrite Csum_mult_l. reflexivity.
Qed.

(** [U] is unitary of side [m]: its columns are orthonormal. *)
Definition unitary (U : matrix) (m : nat) : Prop :=
  nrows U = m /\ ncols U = m /\
  forall j l, (j < m)%nat -> (l < m)%nat ->
    Csum (fun i => Cmult (Cconj (mx U i j)) (mx U i l)) m
    = if (j =? l)%nat then C1 else C0.

(** [M] of side [m] preserves the squared norm of every vector. *)
Definition isometry (M : matrix) (m : nat) : Prop :=
  nrows M = m /\ ncols M = m /\
  forall v : nat -> C,
    Rsum (fun i => Cnorm2 (Csum (fun j => Cmult (mx M i j) (v j)) m)) m
    = Rsum (fun j => Cnorm2 (v j)) m.

Lemma isometry_ext (M M' : matrix) (m : nat) :
  nrows M' = m -> ncols M' = m ->
  (forall i j, (i < m)%nat -> (j < m)%nat -> mx M' i j = mx M i j) ->
  isometry M m -> isometry M' m.
Proof.
  intros Hr Hc Hm (_ & _ & Hiso). repeat split; trivial.
  intros v. rewrite <- (Hiso v). apply Rsum_ext. intros i Hi. f_equal.
  apply Csum_ext. intros j Hj. rewrite Hm by assumption. reflexivity.
Qed.

Lemma unitary_isometry (U : matrix) (m : nat) : unitary U m -> isometry U m.
Proof.
  intros (Hr & Hc & HU). repeat split; trivial. intros v.
  transitivity (Re (Csum (fun j => Cmult (Cconj (v j)) (v j)) m)).
  2:{ rewrite Re_Csum. apply Rsum_ext. intros j _. symmetry. apply Cnorm2_Re. }
  rewrite <- Re_Csum_norm. f_equal.
  transitivity
    (Csum (fun i => Csum (fun j => Csum (fun l =>
        Cmult (Cmult (Cconj (v j)) (v l)) (Cmult (Cconj (mx U i j)) (mx U i l))) m) m) m).
  { apply Csum_ext. intros i _. rewrite Csum_conj.
    rewrite Csum_mult_sums. apply Csum_ext. intros j _. apply Csum_ext. intros l _.
    rewrite Cconj_mult. unfold Cmult; csimp. }
  rewrite Csum_swap. apply Csum_ext. intros j Hj.
  rewrite Csum_swap. rewrite (Csum_single _ _ j Hj).
  - rewrite Csum_mult_l, HU, Nat.eqb_refl by assumption. apply Cmult_1_r.
  - intros l Hl Hne. rewrite Csum_mult_l, HU by assumption.
    destruct (Nat.eqb_spec j l); [congruence|]. apply Cmult_0_r.
Qed.

Lemma isometry_eye (n : nat) : isometry (eye n) n.
Proof.
  repeat split. intros v. apply Rsum_ext. intros i Hi. f_equal.
  rewrite (Csum_single _ _ i Hi); simpl.
  - rewrite Nat.eqb_refl. apply Cmult_1_l.
  - intros j _ Hne. destruct (Nat.eqb_spec i j); [congruence|]. apply Cmult_0_l.
Qed.

Lemma divmod_block (i k b : nat) :
  (k < b)%nat -> ((i * b + k) / b = i)%nat /\ ((i * b + k) mod b = k)%nat.
Proof.
  intros Hk. split.
  - rewrite Nat.div_add_l by lia. rewrite Nat.div_small by lia. lia.
  - rewrite Nat.add_comm, Nat.Div0.mod_add. apply Nat.mod_small. lia.
Qed.

(** The Kronecker product of two norm-preserving matrices preserves the
    norm. *)
Lemma isometry_kron (A B : matrix) (a b : nat) :
  isometry A a -> isometry B b -> isometry (kron A B) (a * b).
Proof.
  intros (HrA & HcA & HA) (HrB & HcB & HB).
  split; [simpl; congruence|]. split; [simpl; congruence|].
  intros v. unfold kron. cbn [mx]. rewrite HrB, HcB.
  set (w := fun j k => Csum (fun l => Cmult (mx B k l) (v (j * b + l)%nat)) b).
  rewrite Rsum_product.
  transitivity (Rsum (fun i => Rsum (fun k =>
       Cnorm2 (Csum (fun j => Cmult (mx A i j) (w j k)) a)) b) a).
  { apply Rsum_ext. intros i Hi. apply Rsum_ext. intros k Hk. f_equal.
    rewrite Csum_product. apply Csum_ext. intros j Hj.
    unfold w. rewrite <- Csum_mult_l. apply Csum_ext. intros l Hl.
    destruct (divmod_block i k b Hk) as [-> ->].
    destruct (divmod_block j l b Hl) as [-> ->].
    symmetry. apply Cmult_assoc. }
  rewrite Rsum_swap.
  transitivity (Rsum (fun k => Rsum (fun j => Cnorm2 (w j k)) a) b).
  { apply Rsum_ext. intros k Hk. apply (HA (fun j => w j k)). }
  rewrite Rsum_swap, Rsum_product. apply Rsum_ext. intros j Hj.
  apply (HB (fun l => v (j * b + l)%nat)).
Qed.

(** Product of the sides of a list of square matrices. *)
Definition sides (gates : list matrix) : nat :=
  fold_right (fun G acc => (nrows G * acc)%nat) 1%nat gates.

Lemma sides_app (l1 l2 : list matrix) : sides (l1 ++ l2) = (sides l1 * sides l2)%nat.
Proof. induction l1 as [|G l1 IH]; simpl; [lia | rewrite IH; lia]. Qed.

Lemma isometry_fold_kron (rest : list matrix) :
  forall (M : matrix) (m : nat),
    isometry M m -> List.Forall (fun G => isometry G (nrows G)) rest ->
    isometry (fold_left kron rest M) (m * sides rest).
Proof.
  induction rest as [|G rest IH]; intros M m HM Hall; simpl.
  - rewrite Nat.mul_1_r. exact HM.
  - inversion Hall as [|? ? HG Hrest]; subst.
    rewrite Nat.mul_assoc. apply IH; [|exact Hrest].
    apply isometry_kron; assumption.
Qed.

Lemma isometry_tensor_product (gates : list matrix) :
  List.Forall (fun G => isometry G (nrows G)) gates ->
  isometry (QuantumOperations.tensor_product_gates gates) (sides gates).
Proof.
  intros Hall. destruct gates as [|first rest]; simpl.
  - apply isometry_eye.
  - inversion Hall as [|? ? HG Hrest]; subst.
    apply isometry_fold_kron; assumption.
Qed.

(** Multiplying a state by a norm-preserving matrix. *)
Lemma matvec_norm (M : matrix) (s : vec) :
  isometry M (length s) ->
  exists out, matvec M s = ret out /\ length out = length s /\ norm2 out = norm2 s.
Proof.
  intros (Hr & Hc & Hiso). unfold matvec.
  destruct (decide (ncols M = length s)) as [_|]; [|contradiction].
  eexists. split; [reflexivity|].
  split; [rewrite length_map, length_seq; exact Hr|].
  unfold norm2. rewrite length_map, length_seq, Hr, Hc.
  rewrite <- (Hiso (getitem s)). apply Rsum_ext. intros i Hi.
  rewrite getitem_map_seq by exact Hi. reflexivity.
Qed.

End LinearFacts.

(** ** A gate acting on the fibres of an index decomposition

    The general expansion writes [U[t i, t j]] at the positions [(i, j)]
    that agree outside the target bits.  The argument below only uses
    that every index [i] is determined by its class (the relation [E])
    and its coordinate [t i] inside the class, and that every coordinate
    occurs in every class ([dep a i]). *)

Module FiberFacts.
Import ArrayFacts LinearFacts.
Local Open Scope R_scope.

Section Fiber.

Variables (N K : nat) (t : nat -> nat) (E : nat -> nat -> bool)
          (dep : nat -> nat -> nat) (U : matrix).

Hypothesis HK : (0 < K)%nat.
Hypothesis Ht : forall i, (i < N)%nat -> (t i < K)%nat.
Hypothesis Hdep_lt : forall a i, (a < K)%nat -> (i < N)%nat -> (dep a i < N)%nat.
Hypothesis Hdep_t : forall a i, (a < K)%nat -> (i < N)%nat -> t (dep a i) = a.
Hypothesis Hdep_E : forall a i, (a < K)%nat -> (i < N)%nat -> E (dep a i) i = true.
Hypothesis HE_refl : forall i, E i i = true.
Hypothesis HE_sym : forall i j, E i j = true -> E j i = true.
Hypothesis HE_trans : forall i j l, E i j = true -> E j l = true -> E i l = true.
Hypothesis Hinj : forall i j, (i < N)%nat -> (j < N)%nat ->
                              E i j = true -> t i = t j -> i = j.
Hypothesis HU : isometry U K.

Definition fiber_entry (i j : nat) : C :=
  if E i j then mx U (t i) (t j) else if (i =? j)%nat then C1 else C0.

Lemma dep_unique (a i j : nat) :
  (a < K)%nat -> (i < N)%nat -> (j < N)%nat ->
  E j i = true -> t j = a -> j = dep a i.
Proof.
  intros Ha Hi Hj He Htj. apply Hinj; trivial.
  - apply Hdep_lt; assumption.
  - apply (HE_trans j i); [exact He|]. apply HE_sym, Hdep_E; assumption.
  - rewrite Hdep_t; assumption.
Qed.

Lemma fiber_row (v : nat -> C) (i : nat) :
  (i < N)%nat ->
  Csum (fun j => Cmult (fiber_entry i j) (v j)) N
  = Csum (fun a => Cmult (mx U (t i) a) (v (dep a i))) K.
Proof.
  intros Hi.
  set (g := fun a j => if (E i j && (t j =? a)%nat)%bool
                       then Cmult (mx U (t i) a) (v j) else C0).
  transitivity (Csum (fun j => Csum (fun a => g a j) K) N).
  { apply Csum_ext. intros j Hj. unfold fiber_entry, g.
    destruct (E i j) eqn:Eij; simpl.
    - rewrite (Csum_single _ _ (t j) (Ht j Hj)).
      + rewrite Nat.eqb_refl. reflexivity.
      + intros a _ Hne. destruct (Nat.eqb_spec (t j) a); [congruence | reflexivity].
    - rewrite Csum_zero by reflexivity.
      destruct (Nat.eqb_spec i j) as [-> | _]; [|apply Cmult_0_l].
      rewrite HE_refl in Eij. discriminate. }
  rewrite Csum_swap. apply Csum_ext. intros a Ha.
  rewrite (Csum_single _ _ (dep a i) (Hdep_lt a i Ha Hi)).
  - unfold g. rewrite (HE_sym _ _ (Hdep_E a i Ha Hi)), (Hdep_t a i Ha Hi), Nat.eqb_refl.
    reflexivity.
  - intros j Hj Hne. unfold g. destruct (E i j) eqn:Eij; [|reflexivity].
    destruct (Nat.eqb_spec (t j) a) as [Htj|]; [|reflexivity].
    exfalso. apply Hne. apply dep_unique; trivial. apply HE_sym, Eij.
Qed.

(** Summing over all indices is summing over the classes (represented by
    their member of coordinate 0) and then inside each class. *)
Lemma fiber_sum (phi : nat -> R) :
  Rsum phi N
  = Rsum (fun r => if (t r =? 0)%nat then Rsum (fun a => phi (dep a r)) K else 0) N.
Proof.
  set (h := fun r a j => if ((t r =? 0)%nat && (j =? dep a r)%nat)%bool then phi j else 0).
  transitivity (Rsum (fun j => Rsum (fun r => Rsum (fun a => h r a j) K) N) N).
  { apply Rsum_ext. intros j Hj. symmetry.
    assert (Hr0 : (dep 0 j < N)%nat) by (apply Hdep_lt; assumption).
    rewrite (Rsum_single _ _ (dep 0 j) Hr0).
    - rewrite (Rsum_single _ _ (t j) (Ht j Hj)).
      + unfold h. rewrite (Hdep_t 0 j HK Hj), Nat.eqb_refl. simpl.
        assert (Hj' : j = dep (t j) (dep 0 j)).
        { apply dep_unique; trivial; [apply Ht, Hj|]. apply HE_sym, Hdep_E; assumption. }
        rewrite <- Hj', Nat.eqb_refl. reflexivity.
      + intros a Ha Hne. unfold h.
        destruct (t (dep 0 j) =? 0)%nat; [|reflexivity]. simpl.
        destruct (Nat.eqb_spec j (dep a (dep 0 j))) as [Hj'|]; [|reflexivity].
        exfalso. apply Hne. symmetry. rewrite Hj'. apply Hdep_t; assumption.
    - intros r Hr Hne. apply Rsum_zero. intros a Ha. unfold h.
      destruct (Nat.eqb_spec (t r) 0) as [Htr|]; [|reflexivity]. simpl.
      destruct (Nat.eqb_spec j (dep a r)) as [Hj'|]; [|reflexivity].
      exfalso. apply Hne. apply dep_unique; trivial.
      apply HE_sym. rewrite Hj'. apply Hdep_E; assumption. }
  rewrite Rsum_swap. apply Rsum_ext. intros r Hr.
  rewrite Rsum_swap. unfold h.
  destruct (t r =? 0)%nat; simpl.
  - apply Rsum_ext. intros a Ha.
    rewrite (Rsum_single _ _ (dep a r) (Hdep_lt a r Ha Hr)).
    + rewrite Nat.eqb_refl. reflexivity.
    + intros j _ Hne. destruct (Nat.eqb_spec j (dep a r)); [congruence | reflexivity].
  - apply Rsum_zero. intros a _. apply Rsum_zero. reflexivity.
Qed.

Theorem fiber_isometry (v : nat -> C) :
  Rsum (fun i => Cnorm2 (Csum (fun j => Cmult (fiber_entry i j) (v j)) N)) N
  = Rsum (fun j => Cnorm2 (v j)) N.
Proof.
  destruct HU as (_ & _ & Hiso).
  set (G := fun i => Cnorm2 (Csum (fun a => Cmult (mx U (t i) a) (v (dep a i))) K)).
  transitivity (Rsum G N).
  { apply Rsum_ext. intros i Hi. unfold G. rewrite fiber_row by exact Hi. reflexivity. }
  rewrite (fiber_sum G), (fiber_sum (fun j => Cnorm2 (v j))).
  apply Rsum_ext. intros r Hr. destruct (t r =? 0)%nat; [|reflexivity].
  rewrite <- (Hiso (fun a => v (dep a r))).
  apply Rsum_ext. intros a' Ha'. unfold G. f_equal.
  rewrite (Hdep_t a' r Ha' Hr). apply Csum_ext. intros a Ha. f_equal. f_equal.
  apply dep_unique; trivial.
  - apply Hdep_lt; [exact Ha | apply Hdep_lt; assumption].
  - apply (HE_trans _ (dep a' r)); apply Hdep_E; trivial. apply Hdep_lt; assumption.
  - apply Hdep_t; [exact Ha | apply Hdep_lt; assumption].
Qed.

End Fiber.

End FiberFacts.

(** ** Target bits of a basis index *)

Module BitFacts.
Import QuantumOperations.

(** [(i >> p) & 1] *)
Definition bit (i p : nat) : nat := Nat.land (Nat.shiftr i p) 1.

Lemma bit_testbit (i p : nat) : bit i p = Nat.b2n (Nat.testbit i p).
Proof.
  unfold bit. rewrite Nat.shiftr_div_pow2.
  change (Nat.land (i / 2 ^ p) 1) with (Nat.land (i / 2 ^ p) (Nat.ones 1)).
  rewrite Nat.land_ones, Nat.testbit_spec'. reflexivity.
Qed.

(** The number read off the target bits [T] of [i], first target least
    significant. *)
Fixpoint extract (T : list nat) (i : nat) : nat :=
  match T with
  | [] => 0
  | p :: T' => Nat.b2n (Nat.testbit i p) + 2 * extract T' i
  end.

Definition assign (i p : nat) (b : bool) : nat :=
  if b then Nat.setbit i p else Nat.clearbit i p.

(** [i] with its target bits replaced by the binary digits of [a]. *)
Fixpoint deposit (T : list nat) (a i : nat) : nat :=
  match T with
  | [] => i
  | p :: T' => deposit T' (Nat.div2 a) (assign i p (Nat.odd a))
  end.

(** [i] and [j] agree on the non-target bits below [n]. *)
Definition same_class (T : list nat) (n i j : nat) : bool :=
  forallb (fun p => (bit i p =? bit j p))
          (List.filter (fun p => negb (existsb (Nat.eqb p) T)) (seq 0 n)).

Lemma testbit_assign (i p q : nat) (b : bool) :
  Nat.testbit (assign i p b) q = if p =? q then b else Nat.testbit i q.
Proof.
  unfold assign. destruct b.
  - rewrite Nat.setbit_eqb. destruct (p =? q); reflexivity.
  - rewrite Nat.clearbit_eqb. destruct (p =? q); simpl;
      [apply andb_false_r | apply andb_true_r].
Qed.

Lemma testbit_deposit_notin (T : list nat) (a i q : nat) :
  ~ In q T -> Nat.testbit (deposit T a i) q = Nat.testbit i q.
Proof.
  revert a i. induction T as [|p T IH]; intros a i Hq; simpl; [reflexivity|].
  rewrite IH by (intros H; apply Hq; right; exact H).
  rewrite testbit_assign. destruct (Nat.eqb_spec p q) as [-> | _]; [|reflexivity].
  exfalso. apply Hq. left. reflexivity.
Qed.

Lemma extract_lt (T : list nat) (i : nat) : extract T i < 2 ^ length T.
Proof.
  induction T as [|p T IH]; simpl; [lia|].
  destruct (Nat.testbit i p); simpl; lia.
Qed.

Lemma extract_deposit (T : list nat) :
  List.NoDup T -> forall a i, a < 2 ^ length T -> extract T (deposit T a i) = a.
Proof.
  induction 1 as [|p T Hp Hnd IH]; intros a i Ha; simpl in *; [lia|].
  rewrite testbit_deposit_notin by exact Hp.
  rewrite testbit_assign, Nat.eqb_refl.
  pose proof (Nat.div2_odd a) as Hdo.
  rewrite IH by lia. lia.
Qed.

Lemma lt_pow2_bits (x n : nat) :
  x < 2 ^ n <-> forall q, n <= q -> Nat.testbit x q = false.
Proof.
  split.
  - intros Hx q Hq. destruct (Nat.eq_dec x 0) as [-> | Hne]; [apply Nat.bits_0|].
    apply Nat.bits_above_log2. apply Nat.log2_lt_pow2 in Hx; lia.
  - intros Hbits. destruct (Nat.lt_ge_cases x (2 ^ n)) as [H | H]; [exact H|].
    assert (Hpos : 0 < x) by (pose proof (Nat.pow_nonzero 2 n); lia).
    apply Nat.log2_le_pow2 in H; [|exact Hpos].
    specialize (Hbits _ H). rewrite Nat.bit_log2 in Hbits by lia. discriminate.
Qed.

Lemma deposit_lt (T : list nat) (n : nat) :
  List.Forall (fun p => p < n) T ->
  forall a i, i < 2 ^ n -> deposit T a i < 2 ^ n.
Proof.
  induction 1 as [|p T Hp Hall IH]; intros a i Hi; simpl; [exact Hi|].
  apply IH. apply lt_pow2_bits. intros q Hq.
  rewrite testbit_assign. destruct (Nat.eqb_spec p q); [lia|].
  apply lt_pow2_bits with (n := n); assumption.
Qed.

Lemma same_class_spec (T : list nat) (n i j : nat) :
  same_class T n i j = true <->
  forall p, p < n -> ~ In p T -> Nat.testbit i p = Nat.testbit j p.
Proof.
  unfold same_class. rewrite forallb_forall. split.
  - intros H p Hp Hnin. specialize (H p).
    rewrite filter_In, in_seq, negb_true_iff in H.
    assert (Hex : existsb (Nat.eqb p) T = false).
    { destruct (existsb (Nat.eqb p) T) eqn:Ex; [|reflexivity].
      apply existsb_exists in Ex as (x & Hx & He). apply Nat.eqb_eq in He. subst.
      contradiction. }
    specialize (H ltac:(split; [lia | exact Hex])).
    apply Nat.eqb_eq in H. rewrite !bit_testbit in H.
    destruct (Nat.testbit i p), (Nat.testbit j p); simpl in H; congruence.
  - intros H p Hp. rewrite filter_In, in_seq, negb_true_iff in Hp.
    destruct Hp as [Hlt Hex]. apply Nat.eqb_eq. rewrite !bit_testbit.
    rewrite H; [reflexivity | lia |].
    intros Hin. assert (existsb (Nat.eqb p) T = true); [|congruence].
    apply existsb_exists. exists p. split; [exact Hin | apply Nat.eqb_refl].
Qed.

Lemma same_class_refl (T : list nat) (n i : nat) : same_class T n i i = true.
Proof. apply same_class_spec. reflexivity. Qed.

Lemma same_class_sym (T : list nat) (n i j : nat) :
  same_class T n i j = true -> same_class T n j i = true.
Proof.
  rewrite !same_class_spec. intros H p Hp Hn. symmetry. apply H; assumption.
Qed.

Lemma same_class_trans (T : list nat) (n i j l : nat) :
  same_class T n i j = true -> same_class T n j l = true -> same_class T n i l = true.
Proof.
  rewrite !same_class_spec. intros H1 H2 p Hp Hn.
  rewrite H1, H2 by assumption. reflexivity.
Qed.

Lemma same_class_deposit (T : list nat) (n a i : nat) :
  same_class T n (deposit T a i) i = true.
Proof.
  apply same_class_spec. intros p _ Hn. apply testbit_deposit_notin, Hn.
Qed.

Lemma extract_eq_bits (T : list nat) (i j : nat) :
  extract T i = extract T j ->
  forall p, In p T -> Nat.testbit i p = Nat.testbit j p.
Proof.
  induction T as [|q T IH]; intros He p Hp; simpl in *; [contradiction|].
  assert (Hb : Nat.testbit i q = Nat.testbit j q /\ extract T i = extract T j).
  { destruct (Nat.testbit i q), (Nat.testbit j q); simpl in He; split; try lia;
      reflexivity. }
  destruct Hb as [Hb Hrest]. destruct Hp as [<- | Hp]; [exact Hb | auto].
Qed.

(** An index below 2^n is determined by its class and its target bits. *)
Lemma class_extract_inj (T : list nat) (n i j : nat) :
  i < 2 ^ n -> j < 2 ^ n ->
  same_class T n i j = true -> extract T i = extract T j -> i = j.
Proof.
  intros Hi Hj Hc He. apply Nat.bits_inj. intros q.
  destruct (Nat.lt_ge_cases q n) as [Hq | Hq].
  - destruct (in_dec Nat.eq_dec q T) as [Hin | Hnin].
    + apply (extract_eq_bits T i j He q Hin).
    + rewrite same_class_spec in Hc. apply Hc; assumption.
  - rewrite (proj1 (lt_pow2_bits i n) Hi q Hq), (proj1 (lt_pow2_bits j n) Hj q Hq).
    reflexivity.
Qed.

End BitFacts.

(** ** The three gate expansions preserve the norm *)

Module GateFacts.
Import QuantumOperations ArrayFacts LinearFacts FiberFacts BitFacts.
Import ScenarioFacts.
Local Open Scope R_scope.

Definition targets_nat (targets : list Z) : list nat := map Z.to_nat targets.

Lemma py_index_in_range {A : Type} (l : list A) (k : nat) (d : A) :
  (k < length l)%nat -> py_index l (Z.of_nat k) = ret (nth k l d).
Proof.
  intros Hk. unfold py_index.
  destruct (Z.ltb_spec (Z.of_nat k) 0) as [?|_]; [lia|].
  destruct (Z.leb_spec 0 (Z.of_nat k)) as [_|?]; [|lia].
  destruct (Z.ltb_spec (Z.of_nat k) (Z.of_nat (length l))) as [_|?]; [|lia].
  simpl. rewrite Nat2Z.id.
  destruct (nth_error l k) as [x|] eqn:E.
  - apply (nth_error_nth _ _ d) in E. rewrite E. reflexivity.
  - apply nth_error_None in E. lia.
Qed.

Lemma nth_map_seq {A : Type} (f : nat -> A) (d : A) (n i : nat) :
  (i < n)%nat -> nth i (map f (seq 0 n)) d = f i.
Proof.
  intros Hi.
  rewrite (nth_indep _ d (f 0%nat)) by (rewrite length_map, length_seq; exact Hi).
  rewrite map_nth, seq_nth by exact Hi. reflexivity.
Qed.

Lemma length_index_bits (i n : nat) : length (index_bits i n) = n.
Proof. unfold index_bits. rewrite length_map. apply length_seq. Qed.

Lemma nth_index_bits (i n p : nat) :
  (p < n)%nat -> nth p (index_bits i n) 0%nat = bit i p.
Proof. intros Hp. unfold index_bits. apply nth_map_seq. exact Hp. Qed.

Lemma list_sum_double (f : nat -> nat) (l : list nat) :
  list_sum (map (fun k => (2 * f k)%nat) l) = (2 * list_sum (map f l))%nat.
Proof.
  unfold list_sum. induction l as [|x l IH]; cbn [map fold_right]; [reflexivity | rewrite IH; lia].
Qed.

Lemma sum_extract (T : list nat) (i : nat) :
  list_sum (map (fun k => (bit i (nth k T 0) * 2 ^ k)%nat) (seq 0 (length T)))
  = extract T i.
Proof.
  induction T as [|p T IH]; [reflexivity|].
  cbn [length seq map list_sum extract nth]. rewrite <- seq_shift, map_map.
  rewrite <- IH, <- list_sum_double, bit_testbit. simpl Nat.pow.
  change (list_sum (?x :: ?l)) with (x + list_sum l)%nat.
  f_equal; [lia|]. f_equal. apply map_ext. intros k. lia.
Qed.

Definition in_range_nat (n : nat) (targets : list Z) : Prop :=
  List.Forall (in_range n) targets.

Lemma targets_nat_lt (n : nat) (targets : list Z) :
  in_range_nat n targets -> List.Forall (fun p => (p < n)%nat) (targets_nat targets).
Proof.
  intros H. unfold targets_nat. apply List.Forall_map.
  eapply List.Forall_impl; [|exact H]. intros q [H0 H1]. lia.
Qed.

Lemma targets_nat_NoDup (n : nat) (targets : list Z) :
  in_range_nat n targets -> List.NoDup targets -> List.NoDup (targets_nat targets).
Proof.
  intros Hr Hnd. induction Hnd as [|x l Hx Hnd IH]; simpl; [constructor|].
  inversion Hr as [|? ? Hx0 Hl]; subst. constructor; [|apply IH, Hl].
  intros Hin. apply in_map_iff in Hin as (y & Hy & Hyl).
  rewrite List.Forall_forall in Hl. specialize (Hl y Hyl).
  destruct Hx0, Hl. assert (y = x) by lia. subst. contradiction.
Qed.

Lemma nth_targets_nat (targets : list Z) (k : nat) :
  nth k (targets_nat targets) 0%nat = Z.to_nat (nth k targets 0%Z).
Proof. unfold targets_nat. change 0%nat with (Z.to_nat 0). apply map_nth. Qed.

(** [target_index] reads the target bits of the index. *)
Lemma target_index_spec (n : nat) (targets : list Z) (i : nat) :
  in_range_nat n targets ->
  target_index (index_bits i n) targets = ret (extract (targets_nat targets) i).
Proof.
  intros Hr. unfold target_index.
  rewrite (mapM_ret _ (fun k => (bit i (nth k (targets_nat targets) 0) * 2 ^ k)%nat)).
  - rewrite bind_ret, <- sum_extract.
    replace (length (targets_nat targets)) with (length targets)
      by (unfold targets_nat; symmetry; apply length_map).
    reflexivity.
  - intros k Hk. apply in_seq in Hk.
    rewrite (py_index_in_range targets k 0%Z) by lia. rewrite bind_ret.
    assert (Hin : in_range n (nth k targets 0%Z)).
    { unfold in_range_nat in Hr. rewrite List.Forall_forall in Hr.
      apply Hr, nth_In. lia. }
    destruct Hin as [H0 H1].
    rewrite <- (Z2Nat.id (nth k targets 0%Z)) at 1 by exact H0.
    rewrite (py_index_in_range _ _ 0%nat) by (rewrite length_index_bits; lia).
    rewrite bind_ret, nth_index_bits by lia.
    rewrite nth_targets_nat. reflexivity.
Qed.

Lemma forallb_filter_ext (f f' g g' : nat -> bool) (l : list nat) :
  (forall x, In x l -> g x = g' x) -> (forall x, In x l -> f x = f' x) ->
  forallb f (List.filter g l) = forallb f' (List.filter g' l).
Proof.
  induction l as [|x l IH]; intros Hg Hf; simpl; [reflexivity|].
  rewrite <- (Hg x) by (left; reflexivity).
  destruct (g x); simpl.
  - rewrite (Hf x), IH by (intros; try apply Hg; try apply Hf; simpl; auto).
    reflexivity.
  - apply IH; intros; [apply Hg | apply Hf]; simpl; auto.
Qed.

Lemma non_targets_match_spec (n : nat) (targets : list Z) (i j : nat) :
  in_range_nat n targets ->
  non_targets_match (index_bits i n) (index_bits j n) targets n
  = same_class (targets_nat targets) n i j.
Proof.
  intros Hr. unfold non_targets_match, same_class. apply forallb_filter_ext.
  - intros k _. f_equal. unfold targets_nat.
    induction Hr as [|t l Ht Hl IH]; simpl; [reflexivity|].
    rewrite IH. f_equal. destruct Ht as [H0 _].
    destruct (Z.eqb_spec (Z.of_nat k) t), (Nat.eqb_spec k (Z.to_nat t)); trivial; lia.
  - intros k Hk. apply in_seq in Hk. rewrite !nth_index_bits by lia. reflexivity.
Qed.

(** The entry written at [(i, j)] by the general expansion. *)
Definition general_entry (U : matrix) (targets : list Z) (n i j : nat) : C :=
  let T := targets_nat targets in
  if same_class T n i j then mx U (extract T i) (extract T j)
  else if (i =? j)%nat then C1 else C0.

Lemma multi_qubit_entry_spec (U : matrix) (targets : list Z) (n i j : nat) :
  in_range_nat n targets ->
  nrows U = (2 ^ length targets)%nat -> ncols U = (2 ^ length targets)%nat ->
  multi_qubit_entry U targets n i j = ret (general_entry U targets n i j).
Proof.
  intros Hr Hrows Hcols. unfold multi_qubit_entry, general_entry.
  rewrite non_targets_match_spec by exact Hr.
  destruct (same_class (targets_nat targets) n i j); [|reflexivity].
  rewrite !target_index_spec, !bind_ret by exact Hr.
  unfold matrix_item.
  assert (Hlen : length (targets_nat targets) = length targets)
    by (unfold targets_nat; apply length_map).
  pose proof (extract_lt (targets_nat targets) i) as Hi.
  pose proof (extract_lt (targets_nat targets) j) as Hj.
  rewrite Hlen in Hi, Hj.
  destruct (Nat.ltb_spec (extract (targets_nat targets) i) (nrows U)); [|lia].
  destruct (Nat.ltb_spec (extract (targets_nat targets) j) (ncols U)); [|lia].
  reflexivity.
Qed.

Lemma multi_qubit_full_matrix_spec (U : matrix) (targets : list Z) (n : nat) :
  in_range_nat n targets ->
  nrows U = (2 ^ length targets)%nat -> ncols U = (2 ^ length targets)%nat ->
  multi_qubit_full_matrix U targets n
  = ret (matrix_of_rows (2 ^ n) (2 ^ n)
           (map (fun i => map (general_entry U targets n i) (seq 0 (2 ^ n)))
                (seq 0 (2 ^ n)))).
Proof.
  intros Hr Hrows Hcols. unfold multi_qubit_full_matrix.
  rewrite (mapM_ret _ (fun i => map (general_entry U targets n i) (seq 0 (2 ^ n)))).
  - rewrite bind_ret. reflexivity.
  - intros i _. apply mapM_ret. intros j _.
    apply multi_qubit_entry_spec; assumption.
Qed.

(** The general expansion returns a norm-preserving matrix. *)
Lemma multi_qubit_full_matrix_isometry (U : matrix) (targets : list Z) (n : nat) :
  unitary U (2 ^ length targets) ->
  in_range_nat n targets -> List.NoDup targets ->
  exists M, multi_qubit_full_matrix U targets n = ret M /\ isometry M (2 ^ n).
Proof.
  intros HU Hr Hnd. pose proof HU as (Hrows & Hcols & _).
  rewrite (multi_qubit_full_matrix_spec U targets n Hr Hrows Hcols).
  eexists. split; [reflexivity|].
  split; [reflexivity|]. split; [reflexivity|]. intros v. cbn [mx matrix_of_rows].
  set (T := targets_nat targets).
  assert (Hlen : length T = length targets) by (unfold T, targets_nat; apply length_map).
  pose proof (fiber_isometry (2 ^ n) (2 ^ length targets) (extract T) (same_class T n)
                (deposit T) U) as Hfib.
  transitivity
    (Rsum (fun i => Cnorm2 (Csum (fun j =>
        Cmult (fiber_entry (extract T) (same_class T n) U i j) (v j)) (2 ^ n))) (2 ^ n)).
  { apply Rsum_ext. intros i Hi. f_equal. apply Csum_ext. intros j Hj. f_equal.
    rewrite (nth_map_seq _ [] _ _ Hi), (nth_map_seq _ C0 _ _ Hj). reflexivity. }
  apply Hfib.
  - apply Nat.neq_0_lt_0, Nat.pow_nonzero. lia.
  - intros i _. rewrite <- Hlen. apply extract_lt.
  - intros a i _ Hi. apply deposit_lt; [apply targets_nat_lt, Hr | exact Hi].
  - intros a i Ha _. apply extract_deposit; [|rewrite Hlen; exact Ha].
    apply (targets_nat_NoDup n); assumption.
  - intros a i _ _. apply same_class_deposit.
  - apply same_class_refl.
  - apply same_class_sym.
  - apply same_class_trans.
  - intros i j Hi Hj. apply class_extract_inj; assumption.
  - apply unitary_isometry, HU.
Qed.

Lemma sides_all_two (gates : list matrix) :
  List.Forall (fun G => nrows G = 2%nat) gates -> sides gates = (2 ^ length gates)%nat.
Proof.
  induction 1 as [|G l HG Hl IH]; simpl; [reflexivity|]. rewrite HG, IH. lia.
Qed.

(** The single-qubit expansion returns a norm-preserving matrix. *)
Lemma single_qubit_full_matrix_isometry (U : matrix) (target : Z) (n : nat) :
  unitary U 2 -> isometry (single_qubit_full_matrix U target n) (2 ^ n).
Proof.
  intros HU. pose proof HU as (Hrows & _). unfold single_qubit_full_matrix.
  set (gates := map (fun i => if (Z.of_nat i =? target)%Z then U else eye 2) (seq 0 n)).
  assert (Hside : List.Forall (fun G => nrows G = 2%nat) gates).
  { apply List.Forall_forall. intros G HG. apply in_map_iff in HG as (i & <- & _).
    destruct (Z.of_nat i =? target)%Z; [exact Hrows | reflexivity]. }
  assert (Hiso : List.Forall (fun G => isometry G (nrows G)) gates).
  { apply List.Forall_forall. intros G HG. apply in_map_iff in HG as (i & <- & _).
    destruct (Z.of_nat i =? target)%Z.
    - rewrite Hrows. apply unitary_isometry, HU.
    - apply isometry_eye. }
  replace (2 ^ n)%nat with (sides gates).
  - apply isometry_tensor_product, Hiso.
  - rewrite (sides_all_two _ Hside). unfold gates. rewrite length_map, length_seq.
    reflexivity.
Qed.

(** The list of factors of the adjacent two-qubit expansion, for the
    lower target [lo]. *)
Definition adjacent_factors (U : matrix) (lo : nat) (i : nat) : list matrix :=
  if (i =? lo)%nat then [U] else if (i =? S lo)%nat then [] else [eye 2].

Lemma sides_adjacent (U : matrix) (lo m : nat) :
  nrows U = 4%nat ->
  sides (flat_map (adjacent_factors U lo) (seq 0 m))
  = if (m <=? lo)%nat then (2 ^ m)%nat
    else if (m =? S lo)%nat then (2 ^ S m)%nat else (2 ^ m)%nat.
Proof.
  intros HU. induction m as [|m IH]; [reflexivity|].
  rewrite seq_S, flat_map_app, sides_app, IH. cbn [flat_map Nat.add].
  rewrite app_nil_r. unfold adjacent_factors.
  destruct (Nat.leb_spec m lo) as [Hle | Hgt].
  - destruct (Nat.eqb_spec m lo) as [-> | Hne].
    + destruct (Nat.leb_spec (S lo) lo); [lia|]. rewrite Nat.eqb_refl.
      cbn [sides fold_right]. rewrite HU, !Nat.pow_succ_r'. lia.
    + destruct (Nat.eqb_spec m (S lo)); [lia|].
      destruct (Nat.leb_spec (S m) lo); [|lia].
      cbn [sides fold_right eye nrows]. rewrite !Nat.pow_succ_r'. lia.
  - destruct (Nat.eqb_spec m lo); [lia|].
    destruct (Nat.leb_spec (S m) lo); [lia|].
    destruct (Nat.eqb_spec (S m) (S lo)); [lia|].
    destruct (Nat.eqb_spec m (S lo)) as [-> | Hne].
    + cbn [sides fold_right]. lia.
    + cbn [sides fold_right eye nrows]. rewrite !Nat.pow_succ_r'. lia.
Qed.

(** The adjacent two-qubit expansion returns a norm-preserving matrix. *)
Lemma adjacent_full_matrix_isometry (U : matrix) (lo n : nat) :
  unitary U 4 -> (S lo < n)%nat ->
  isometry (tensor_product_gates (flat_map (adjacent_factors U lo) (seq 0 n))) (2 ^ n).
Proof.
  intros HU Hlo. pose proof HU as (Hrows & _).
  replace (2 ^ n)%nat with (sides (flat_map (adjacent_factors U lo) (seq 0 n))).
  - apply isometry_tensor_product. apply List.Forall_forall. intros G HG.
    apply in_flat_map in HG as (i & _ & HG). unfold adjacent_factors in HG.
    destruct (i =? lo)%nat.
    + destruct HG as [<- | []]. rewrite Hrows. apply unitary_isometry, HU.
    + destruct (i =? S lo)%nat; [destruct HG|].
      destruct HG as [<- | []]. apply isometry_eye.
  - rewrite (sides_adjacent U lo n Hrows).
    destruct (Nat.leb_spec n lo); [lia|].
    destruct (Nat.eqb_spec n (S lo)); [lia | reflexivity].
Qed.

Lemma two_qubit_full_matrix_isometry (U : matrix) (t0 t1 : Z) (n : nat) :
  unitary U 4 -> in_range_nat n [t0; t1] -> List.NoDup [t0; t1] ->
  exists M, two_qubit_full_matrix U [t0; t1] n = ret M /\ isometry M (2 ^ n).
Proof.
  intros HU Hr Hnd. unfold two_qubit_full_matrix.
  change (py_index [t0; t1] 0) with (ret t0 : result Z).
  change (py_index [t0; t1] 1) with (ret t1 : result Z).
  rewrite !bind_ret.
  destruct (Z.eqb_spec (Z.abs (t0 - t1)) 1) as [Hadj | Hfar].
  - eexists. split; [reflexivity|].
    inversion Hr as [|? ? [H0 H0'] Hr1]; subst.
    inversion Hr1 as [|? ? [H1 H1'] _]; subst.
    set (lo := Z.to_nat (Z.min t0 t1)).
    assert (Hlo : Z.min t0 t1 = Z.of_nat lo) by (unfold lo; lia).
    assert (Hhi : Z.max t0 t1 = Z.of_nat (S lo)) by (unfold lo; lia).
    rewrite Hlo, Hhi.
    replace (flat_map _ (seq 0 n)) with (flat_map (adjacent_factors U lo) (seq 0 n)).
    + apply adjacent_full_matrix_isometry; [exact HU | lia].
    + apply flat_map_ext. intros i. unfold adjacent_factors.
      destruct (Nat.eqb_spec i lo), (Z.eqb_spec (Z.of_nat i) (Z.of_nat lo)); try lia;
        [reflexivity|].
      destruct (Nat.eqb_spec i (S lo)), (Z.eqb_spec (Z.of_nat i) (Z.of_nat (S lo)));
        try lia; reflexivity.
  - apply multi_qubit_full_matrix_isometry; assumption.
Qed.

(** [_build_full_gate_matrix] returns a norm-preserving matrix on each
    of its three paths. *)
Lemma build_full_gate_matrix_isometry (U : matrix) (targets : list Z) (n : nat) :
  unitary U (2 ^ length targets) ->
  in_range_nat n targets -> List.NoDup targets ->
  exists M, build_full_gate_matrix U targets n = ret M /\ isometry M (2 ^ n).
Proof.
  intros HU Hr Hnd. unfold build_full_gate_matrix.
  destruct targets as [|t0 [|t1 [|t2 rest]]].
  - apply multi_qubit_full_matrix_isometry; assumption.
  - cbn [length Nat.eqb]. change (py_index [t0] 0) with (ret t0 : result Z).
    rewrite bind_ret. eexists. split; [reflexivity|].
    apply single_qubit_full_matrix_isometry. exact HU.
  - cbn [length Nat.eqb]. apply two_qubit_full_matrix_isometry; assumption.
  - cbn [length Nat.eqb]. apply multi_qubit_full_matrix_isometry; assumption.
Qed.

(** The Euclidean norm of a state vector. *)
Definition euclidean_norm (v : vec) : R := sqrt (norm2 v).

(** C4: if the matrix resolved for a gate is unitary of side 2^k, where
    k is the number of its target qubits, and the targets are distinct
    qubits of the circuit, then applying the gate to a circuit state of
    length 2^n succeeds and leaves the Euclidean norm unchanged,
    whichever of the three expansions (single-qubit, adjacent two-qubit,
    general) is taken. *)
Theorem apply_gate_preserves_norm (c : QuantumCircuit) (g : QuantumGate) (U : matrix) :
  get_gate_matrix (gate_type g) (parameters g) = ret (Some U) ->
  unitary U (2 ^ length (qubits g)) ->
  List.Forall (in_range (num_qubits c)) (qubits g) ->
  List.NoDup (qubits g) ->
  length (state_vector c) = (2 ^ num_qubits c)%nat ->
  exists c',
    apply_gate_to_circuit c g = ret c' /\
    length (state_vector c') = (2 ^ num_qubits c)%nat /\
    euclidean_norm (state_vector c') = euclidean_norm (state_vector c).
Proof.
  intros Hres HU Hr Hnd Hlen. unfold apply_gate_to_circuit.
  rewrite Hres, bind_ret.
  destruct (build_full_gate_matrix_isometry U (qubits g) (num_qubits c) HU Hr Hnd)
    as (M & HM & Hiso).
  rewrite HM, bind_ret. rewrite <- Hlen in Hiso.
  destruct (matvec_norm M (state_vector c) Hiso) as (out & Hout & Hl & Hn).
  rewrite Hout, bind_ret. eexists. split; [reflexivity|]. cbn [state_vector].
  split; [congruence|]. unfold euclidean_norm. rewrite Hn. reflexivity.
Qed.

Lemma cnot_unitary : unitary cnot 4.
Proof.
  repeat split. intros j l Hj Hl.
  destruct j as [|[|[|[|j]]]]; try lia; destruct l as [|[|[|[|l]]]]; try lia;
    unfold cnot, Cmult, Cplus, Cconj, C0, C1; simpl; csimp.
Qed.

(** C4, as stated, fails when a target is repeated.  CNOT with targets
    [0, 0] on a 1-qubit circuit has a unitary resolved matrix of side
    2^2 and both targets inside the circuit; it takes the general path
    and maps the unit state (0, 1) to the zero vector. *)
Lemma repeated_target_counterexample :
  let c := mkCircuit 1 [] [C0; C1] in
  let g := mkGate CNOT [0%Z; 0%Z] None in
  get_gate_matrix (gate_type g) (parameters g) = ret (Some cnot) /\
  unitary cnot (2 ^ length (qubits g)) /\
  List.Forall (in_range (num_qubits c)) (qubits g) /\
  length (state_vector c) = (2 ^ num_qubits c)%nat /\
  euclidean_norm (state_vector c) = 1 /\
  exists c', apply_gate_to_circuit c g = ret c' /\
             euclidean_norm (state_vector c') = 0.
Proof.
  intros c g.
  assert (Hr : in_range_nat 1 [0%Z; 0%Z]).
  { repeat constructor; simpl; lia. }
  split; [reflexivity|]. split; [exact cnot_unitary|]. split; [exact Hr|].
  split; [reflexivity|]. split.
  - unfold euclidean_norm, norm2, getitem, Cnorm2, C0, C1. simpl.
    replace (0 + (0 * 0 + 0 * 0) + (1 * 1 + 0 * 0)) with 1 by ring. apply sqrt_1.
  - subst c g. unfold apply_gate_to_circuit.
    cbn [gate_type parameters get_gate_matrix qubits num_qubits gates].
    rewrite bind_ret.
    unfold build_full_gate_matrix. cbn [length Nat.eqb].
    unfold two_qubit_full_matrix.
    change (py_index [0%Z; 0%Z] 0) with (ret 0%Z : result Z).
    change (py_index [0%Z; 0%Z] 1) with (ret 0%Z : result Z).
    rewrite !bind_ret. change (Z.abs (0 - 0) =? 1)%Z with false. cbv iota.
    rewrite (multi_qubit_full_matrix_spec cnot [0%Z; 0%Z] 1 Hr) by reflexivity.
    rewrite bind_ret. unfold matvec. cbn [ncols matrix_of_rows state_vector length].
    destruct (decide ((2 ^ 1)%nat = 2%nat)) as [_|Hne]; [|exfalso; apply Hne; reflexivity].
    rewrite bind_ret. eexists. split; [reflexivity|]. cbn [state_vector].
    unfold euclidean_norm.
    replace (norm2 _) with 0; [apply sqrt_0|].
    unfold norm2, getitem, Cnorm2, Cplus, Cmult, C0, C1. simpl. ring.
Qed.

Lemma pauli_x_unitary : unitary pauli_x 2.
Proof.
  repeat split. intros j l Hj Hl.
  destruct j as [|[|j]]; [| |lia]; destruct l as [|[|l]]; try lia;
    unfold pauli_x, Cmult, Cplus, Cconj, C0, C1; simpl; csimp.
Qed.

Lemma apply_gate_preserves_norm_witness :
  exists c',
    apply_gate_to_circuit (new_circuit 1) (mkGate PAULI_X [0%Z] None) = ret c' /\
    length (state_vector c') = (2 ^ 1)%nat /\
    euclidean_norm (state_vector c') = euclidean_norm (state_vector (new_circuit 1)).
Proof.
  apply (apply_gate_preserves_norm (new_circuit 1) (mkGate PAULI_X [0%Z] None) pauli_x).
  - reflexivity.
  - exact pauli_x_unitary.
  - constructor; [unfold in_range; simpl; lia | constructor].
  - constructor; [simpl; tauto | constructor].
  - reflexivity.
Defined.

End GateFacts.

(** ** Results for the gate matrices of [get_gate_matrix] *)

Module StandardGateFacts.
Import QuantumOperations ArrayFacts LinearFacts.
Local Open Scope R_scope.

Lemma Rsum_const (c : R) (n : nat) : Rsum (fun _ => c) n = INR n * c.
Proof.
  induction n as [|n IH]; [simpl; ring|].
  cbn [Rsum]. rewrite IH, S_INR. ring.
Qed.

Lemma Csum_RtoC (f : nat -> R) (n : nat) :
  Csum (fun i => RtoC (f i)) n = RtoC (Rsum f n).
Proof.
  induction n as [|n IH]; [reflexivity|].
  cbn [Csum Rsum]. rewrite IH. csimp.
Qed.

Lemma pow2_INR_pos (n : nat) : 0 < INR (2 ^ n).
Proof. apply lt_0_INR, Nat.neq_0_lt_0, Nat.pow_nonzero. lia. Qed.

Lemma inv_sqrt_sq (x : R) : 0 < x -> 1 / sqrt x * (1 / sqrt x) = 1 / x.
Proof.
  intros Hx. assert (Hs : sqrt x * sqrt x = x) by (apply sqrt_sqrt; lra).
  assert (Hp : 0 < sqrt x) by (apply sqrt_lt_R0; exact Hx).
  replace (1 / x) with (1 / (sqrt x * sqrt x)) by (rewrite Hs; reflexivity).
  field. lra.
Qed.

Ltac two_by_two :=
  split; [reflexivity|]; split; [reflexivity|];
  intros j l Hj Hl;
  destruct j as [|[|j]]; try lia; destruct l as [|[|l]]; try lia.

Lemma pauli_y_unitary : unitary pauli_y 2.
Proof.
  two_by_two; unfold pauli_y, Cmult, Cplus, Cconj, Copp, Ci, C0, C1; simpl; csimp.
Qed.

Lemma pauli_z_unitary : unitary pauli_z 2.
Proof.
  two_by_two; unfold pauli_z, Cmult, Cplus, Cconj, RtoC, C0, C1; simpl; csimp.
Qed.

Lemma hadamard_unitary : unitary hadamard 2.
Proof.
  pose proof (inv_sqrt_sq 2 ltac:(lra)) as Hh.
  two_by_two; unfold hadamard, mscale, Cmult, Cplus, Cconj, RtoC, C0, C1; simpl;
    set (h := 1 / sqrt 2) in *; apply C_eq; simpl; nra.
Qed.

Lemma phase_unitary (theta : R) :
  unitary (of_rows [[C1; C0]; [C0; Cexp_i theta]]) 2.
Proof.
  pose proof (sin2_cos2 theta) as Hsc. unfold Rsqr in Hsc.
  two_by_two; unfold Cexp_i, Cmult, Cplus, Cconj, C0, C1; simpl; apply C_eq; simpl; nra.
Qed.

Lemma t_gate_unitary : unitary t_gate 2.
Proof. apply phase_unitary. Qed.

(** *** The Grover diffuser *)

Lemma grover_entry (n i j : nat) :
  mx (grover_diffuser_matrix n) i j
  = RtoC (2 / INR (2 ^ n) - (if (i =? j)%nat then 1 else 0)).
Proof.
  unfold grover_diffuser_matrix. cbn [mx].
  pose proof (inv_sqrt_sq _ (pow2_INR_pos n)) as Hs.
  set (h := 1 / sqrt (INR (2 ^ n))) in *.
  replace (2 / INR (2 ^ n)) with (2 * (h * h)) by (rewrite Hs; field; pose proof (pow2_INR_pos n); lra).
  destruct (i =? j)%nat; unfold Cminus, Cmult, Cplus, Copp, Cconj, RtoC, C0, C1;
    apply C_eq; simpl; ring.
Qed.

Lemma Rsum_delta (n j : nat) :
  (j < n)%nat -> Rsum (fun i => if (i =? j)%nat then 1 else 0) n = 1.
Proof.
  intros Hj. rewrite (Rsum_single _ n j Hj).
  - rewrite Nat.eqb_refl. reflexivity.
  - intros i _ Hne. destruct (Nat.eqb_spec i j); [contradiction | reflexivity].
Qed.

Lemma Rsum_delta2 (n j l : nat) :
  (j < n)%nat ->
  Rsum (fun i => (if (i =? j)%nat then 1 else 0) * (if (i =? l)%nat then 1 else 0)) n
  = if (j =? l)%nat then 1 else 0.
Proof.
  intros Hj. rewrite (Rsum_single _ n j Hj).
  - rewrite Nat.eqb_refl. ring.
  - intros i _ Hne. destruct (Nat.eqb_spec i j); [contradiction | ring].
Qed.

Lemma grover_diffuser_unitary_side (n : nat) :
  unitary (grover_diffuser_matrix n) (2 ^ n).
Proof.
  split; [reflexivity|]. split; [reflexivity|]. intros j l Hj Hl.
  pose proof (pow2_INR_pos n) as HN.
  set (N := (2 ^ n)%nat) in *. set (a := 2 / INR N).
  transitivity (RtoC (Rsum (fun i =>
      a * a + (- a) * (if (i =? l)%nat then 1 else 0)
      + ((- a) * (if (i =? j)%nat then 1 else 0)
         + (if (i =? j)%nat then 1 else 0) * (if (i =? l)%nat then 1 else 0))) N)).
  - rewrite <- Csum_RtoC. apply Csum_ext. intros i _.
    rewrite !grover_entry. fold N. fold a.
    unfold Cmult, Cconj, RtoC. apply C_eq; simpl; ring.
  - rewrite !Rsum_plus, !Rsum_scale, Rsum_const, !Rsum_delta, Rsum_delta2 by assumption.
    destruct (j =? l)%nat; unfold C1, C0, RtoC; f_equal; unfold a; field; lra.
Qed.

(** *** The quantum Fourier transform *)

Lemma Cexp_i_add (a b : R) : Cmult (Cexp_i a) (Cexp_i b) = Cexp_i (a + b).
Proof.
  unfold Cexp_i, Cmult. cbn [fst snd]. rewrite cos_plus, sin_plus.
  apply C_eq; cbn [fst snd]; ring.
Qed.

Lemma Cexp_i_0 : Cexp_i 0 = C1.
Proof. unfold Cexp_i. rewrite cos_0, sin_0. reflexivity. Qed.

Lemma Cconj_Cexp_i (t : R) : Cconj (Cexp_i t) = Cexp_i (- t).
Proof. unfold Cexp_i, Cconj. cbn [fst snd]. rewrite cos_neg, sin_neg. reflexivity. Qed.

Lemma Cpow_Cexp_i (theta : R) (k : nat) : Cpow (Cexp_i theta) k = Cexp_i (INR k * theta).
Proof.
  induction k as [|k IH].
  - cbn [Cpow INR]. rewrite Rmult_0_l, Cexp_i_0. reflexivity.
  - cbn [Cpow]. rewrite IH, Cexp_i_add, S_INR. f_equal. ring.
Qed.

Lemma Cexp_i_turns (m : nat) : Cexp_i (INR m * (2 * PI)) = C1.
Proof.
  unfold Cexp_i.
  replace (INR m * (2 * PI)) with (0 + 2 * INR m * PI) by ring.
  rewrite cos_period, sin_period, cos_0, sin_0. reflexivity.
Qed.

Lemma Cexp_i_int_turns (j l : nat) : Cexp_i ((INR l - INR j) * (2 * PI)) = C1.
Proof.
  destruct (Nat.le_ge_cases j l) as [H | H].
  - rewrite <- minus_INR by exact H. apply Cexp_i_turns.
  - replace ((INR l - INR j) * (2 * PI)) with (- (INR (j - l) * (2 * PI)))
      by (rewrite minus_INR by exact H; ring).
    rewrite <- Cconj_Cexp_i, Cexp_i_turns. unfold Cconj, C1. cbn [fst snd].
    f_equal. ring.
Qed.

Lemma geometric_sum (z : C) (n : nat) :
  Cmult (Cminus C1 z) (Csum (Cpow z) n) = Cminus C1 (Cpow z n).
Proof.
  induction n as [|n IH].
  - cbn [Csum Cpow]. csimp.
  - cbn [Csum Cpow]. rewrite Cmult_plus_distr_l, IH.
    unfold Cminus, Cmult, Cplus, Copp, C1. apply C_eq; cbn [fst snd]; ring.
Qed.

Lemma Cnorm2_mult (a b : C) : Cnorm2 (Cmult a b) = Cnorm2 a * Cnorm2 b.
Proof. unfold Cnorm2, Cmult. cbn [fst snd]. ring. Qed.

Lemma Cnorm2_zero_iff (a : C) : Cnorm2 a = 0 -> a = C0.
Proof.
  destruct a as [x y]. unfold Cnorm2, C0. cbn [fst snd]. intros H.
  assert (x = 0) by nra. assert (y = 0) by nra. subst. reflexivity.
Qed.

(** A non-trivial root of unity is not 1. *)
Lemma cos_lt_1_between (x : R) : 0 < Rabs x < PI -> cos (2 * x) < 1.
Proof.
  intros [H0 H1]. rewrite cos_2a_sin.
  assert (Hs : sin x <> 0).
  { unfold Rabs in H0, H1. destruct (Rcase_abs x) as [Hneg | Hpos].
    - assert (0 < sin (- x)) by (apply sin_gt_0; lra).
      rewrite sin_neg in H. lra.
    - assert (0 < sin x) by (apply sin_gt_0; lra). lra. }
  assert (0 < sin x * sin x) by nra. lra.
Qed.

Lemma roots_sum_zero (z : C) (n : nat) :
  Re z < 1 -> Cpow z n = C1 -> Csum (Cpow z) n = C0.
Proof.
  intros Hz Hn. pose proof (geometric_sum z n) as Hg. rewrite Hn in Hg.
  apply Cnorm2_zero_iff.
  assert (Hprod : Cnorm2 (Cminus C1 z) * Cnorm2 (Csum (Cpow z) n) = 0).
  { rewrite <- Cnorm2_mult, Hg. unfold Cminus, Cplus, Copp, C1, Cnorm2. cbn [fst snd]. ring. }
  assert (Hpos : 0 < Cnorm2 (Cminus C1 z)).
  { destruct z as [x y]. unfold Cminus, Cplus, Copp, C1, Cnorm2, Re in *.
    cbn [fst snd] in *. nra. }
  apply Rmult_integral in Hprod. destruct Hprod; [lra | assumption].
Qed.

Lemma qft_term (n i j l : nat) :
  let N := (2 ^ n)%nat in
  Cmult (Cconj (mx (qft_matrix n) i j)) (mx (qft_matrix n) i l)
  = Cmult (RtoC (1 / INR N))
          (Cpow (Cexp_i ((INR l - INR j) * (2 * PI / INR N))) i).
Proof.
  intros N. unfold qft_matrix. cbn [mx]. fold N.
  pose proof (inv_sqrt_sq _ (pow2_INR_pos n)) as Hs. fold N in Hs.
  rewrite !Cpow_Cexp_i, Cconj_mult, Cconj_Cexp_i, !mult_INR.
  set (h := 1 / sqrt (INR N)) in *.
  transitivity (Cmult (RtoC (h * h))
                  (Cmult (Cexp_i (- (INR i * INR j * (2 * PI / INR N))))
                         (Cexp_i (INR i * INR l * (2 * PI / INR N))))).
  - unfold Cmult, Cconj, RtoC. apply C_eq; cbn [fst snd]; ring.
  - rewrite Hs, Cexp_i_add. do 2 f_equal. ring.
Qed.

Lemma qft_unitary_side (n : nat) : unitary (qft_matrix n) (2 ^ n).
Proof.
  split; [reflexivity|]. split; [reflexivity|]. intros j l Hj Hl.
  pose proof (pow2_INR_pos n) as HN. set (N := (2 ^ n)%nat) in *.
  set (z := Cexp_i ((INR l - INR j) * (2 * PI / INR N))).
  transitivity (Cmult (RtoC (1 / INR N)) (Csum (Cpow z) N)).
  { rewrite <- Csum_mult_l. apply Csum_ext. intros i _. apply qft_term. }
  destruct (Nat.eqb_spec j l) as [-> | Hne].
  - assert (Hz : z = C1).
    { unfold z. replace ((INR l - INR l) * (2 * PI / INR N)) with 0 by (field; lra).
      apply Cexp_i_0. }
    rewrite (Csum_ext _ (fun _ => RtoC 1) N).
    + rewrite Csum_RtoC, Rsum_const. unfold Cmult, RtoC, C1. apply C_eq; cbn [fst snd];
        [field; lra | ring].
    + intros i _. rewrite Hz. clear. induction i as [|i IH]; [reflexivity|].
      cbn [Cpow]. rewrite IH. csimp.
  - rewrite roots_sum_zero; [apply Cmult_0_r | |].
    + unfold z, Cexp_i, Re. cbn [fst].
      replace ((INR l - INR j) * (2 * PI / INR N))
        with (2 * ((INR l - INR j) * PI / INR N)) by (field; lra).
      apply cos_lt_1_between.
      assert (Hd : INR l - INR j <> 0).
      { intros E. apply Hne. symmetry. apply INR_eq. lra. }
      assert (Hb : Rabs (INR l - INR j) < INR N).
      { apply lt_INR in Hj, Hl. pose proof (pos_INR j). pose proof (pos_INR l).
        apply Rabs_def1; lra. }
      pose proof PI_RGT_0 as Hpi.
      replace ((INR l - INR j) * PI / INR N) with ((INR l - INR j) * (PI / INR N))
        by (field; lra).
      assert (Hq : 0 < PI / INR N) by (apply Rdiv_lt_0_compat; lra).
      rewrite Rabs_mult, (Rabs_pos_eq (PI / INR N)) by lra.
      pose proof (Rabs_pos_lt _ Hd) as Habs. split; [nra|].
      replace PI with (INR N * (PI / INR N)) at 2 by (field; lra). nra.
    + unfold z. rewrite Cpow_Cexp_i.
      replace (INR N * ((INR l - INR j) * (2 * PI / INR N)))
        with ((INR l - INR j) * (2 * PI)) by (field; lra).
      apply Cexp_i_int_turns.
Qed.

(** *** Every resolved matrix *)

Lemma resolved_unitary (kind : GateType) (ps : option (list (string * pvalue)))
    (U : matrix) :
  get_gate_matrix kind ps = ret (Some U) -> unitary U (nrows U).
Proof.
  destruct kind; cbn [get_gate_matrix]; intros H.
  - injection H as <-. apply GateFacts.pauli_x_unitary.
  - injection H as <-. apply pauli_y_unitary.
  - injection H as <-. apply pauli_z_unitary.
  - injection H as <-. apply hadamard_unitary.
  - injection H as <-. apply GateFacts.cnot_unitary.
  - injection H as <-. apply phase_unitary.
  - injection H as <-. apply t_gate_unitary.
  - destruct (pvalue_dim 2 (param_get ps "n_qubits")) as [e | n]; [discriminate|].
    injection H as <-. apply qft_unitary_side.
  - destruct (pvalue_dim 2 (param_get ps "n_qubits")) as [e | n]; [discriminate|].
    injection H as <-. apply grover_diffuser_unitary_side.
  - discriminate.
Qed.

(** Whatever the gate kind and the parameters, a matrix returned by
    [get_gate_matrix] is unitary, and its side is a power of two: 2 for
    the Pauli, Hadamard, T and phase gates (for every angle theta), 4 for
    CNOT, and 2^n for the QFT and Grover diffuser matrices built for n
    qubits (n = 2 when the parameter is absent). *)
Theorem get_gate_matrix_unitary (kind : GateType)
    (ps : option (list (string * pvalue))) (U : matrix) :
  get_gate_matrix kind ps = ret (Some U) ->
  unitary U (nrows U) /\
  nrows U = match kind with
            | CNOT => 4%nat
            | QFT | GROVER_DIFFUSER =>
                match param_get ps "n_qubits" with
                | Some (PInt z) => (2 ^ Z.to_nat z)%nat
                | _ => 4%nat
                end
            | _ => 2%nat
            end.
Proof.
  intros H. split; [exact (resolved_unitary kind ps U H)|].
  destruct kind; cbn [get_gate_matrix] in H; try (injection H as <-; reflexivity);
    try discriminate.
  - destruct (param_get ps "n_qubits") as [[z | r]|]; cbn [pvalue_dim] in H.
    + destruct (0 <=? z)%Z; [|discriminate]. injection H as <-. reflexivity.
    + discriminate.
    + injection H as <-. reflexivity.
  - destruct (param_get ps "n_qubits") as [[z | r]|]; cbn [pvalue_dim] in H.
    + destruct (0 <=? z)%Z; [|discriminate]. injection H as <-. reflexivity.
    + discriminate.
    + injection H as <-. reflexivity.
Qed.

Lemma get_gate_matrix_unitary_witness :
  unitary (qft_matrix 3) (nrows (qft_matrix 3)) /\
  nrows (qft_matrix 3) = (2 ^ Z.to_nat 3)%nat.
Proof.
  apply (get_gate_matrix_unitary QFT (Some [("n_qubits"%string, PInt 3)])).
  reflexivity.
Defined.

End StandardGateFacts.

(** ** quantum_operations.py: the example circuit builders *)

Module CircuitBuilders.
Import QuantumOperations.
Local Open Scope R_scope.

(** [for x in xs: body], where the body may raise. *)
Fixpoint for_each {A S : Type} (xs : list A) (body : S -> A -> result S) (s : S)
  : result S :=
  match xs with
  | [] => ret s
  | x :: rest => s' <- body s x ;; for_each rest body s'
  end.

(** [create_qft_circuit], for a non-negative [n_qubits]. *)
Definition create_qft_circuit (n_qubits : nat) : result QuantumCircuit :=
  for_each (seq 0 n_qubits)
    (fun circuit i =>
       circuit <- add_gate circuit (mkGate HADAMARD [Z.of_nat i] None) ;;
       for_each (seq (i + 1) (n_qubits - (i + 1)))
         (fun circuit j =>
            add_gate circuit
              (mkGate PHASE [Z.of_nat j]
                      (Some [("theta"%string, PFloat (PI / 2 ^ (j - i)))])))
         circuit)
    (new_circuit n_qubits).

(** The loop [for i, bit in enumerate(target_bits): if bit == '0': ...]. *)
Definition oracle_flips (target_bits : string) (circuit : QuantumCircuit)
  : result QuantumCircuit :=
  for_each (combine (seq 0 (String.length target_bits))
                    (list_ascii_of_string target_bits))
    (fun circuit '(i, bit) =>
       if Ascii.eqb bit "0"
       then add_gate circuit (mkGate PAULI_X [Z.of_nat i] None)
       else ret circuit)
    circuit.

(** [int(np.pi * np.sqrt(2**n_qubits) / 4)]. *)
Definition grover_iterations (n_qubits : nat) : nat :=
  Z.to_nat (Int_part (PI * sqrt (INR (2 ^ n_qubits)) / 4)).

(** [create_grover_circuit], for non-negative [n_qubits] and
    [target_state]. *)
Definition create_grover_circuit (n_qubits target_state : nat)
  : result QuantumCircuit :=
  circuit <- for_each (seq 0 n_qubits)
               (fun circuit i => add_gate circuit (mkGate HADAMARD [Z.of_nat i] None))
               (new_circuit n_qubits) ;;
  for_each (seq 0 (grover_iterations n_qubits))
    (fun circuit _ =>
       let target_bits := format_bits n_qubits target_state in
       circuit <- oracle_flips target_bits circuit ;;
       circuit <- add_gate circuit (mkGate PAULI_Z [(Z.of_nat n_qubits - 1)%Z] None) ;;
       circuit <- oracle_flips target_bits circuit ;;
       add_gate circuit
         (mkGate GROVER_DIFFUSER (map Z.of_nat (seq 0 n_qubits))
                 (Some [("n_qubits"%string, PInt (Z.of_nat n_qubits))])))
    circuit.

End CircuitBuilders.

(** ** Results for circuits: construction, gate sequences, simulation *)

Module CircuitFacts.
Import QuantumOperations ArrayFacts LinearFacts GateFacts HistogramFacts.
Import StandardGateFacts CircuitBuilders AddGateFacts.
Local Open Scope R_scope.

(** *** [QuantumCircuit.__init__] *)

Lemma getitem_initial (n i : nat) :
  getitem (state_vector (new_circuit n)) i = if (i =? 0)%nat then C1 else C0.
Proof.
  cbn [new_circuit state_vector].
  change (<[0%nat := C1]> (repeat C0 (2 ^ n))) with (setitem (zeros (2 ^ n)) 0 C1).
  rewrite getitem_setitem.
  - destruct (i =? 0)%nat; [reflexivity | apply getitem_zeros].
  - unfold zeros. rewrite repeat_length. apply Nat.neq_0_lt_0, Nat.pow_nonzero. lia.
Qed.

Lemma length_initial (n : nat) : length (state_vector (new_circuit n)) = (2 ^ n)%nat.
Proof.
  cbn [new_circuit state_vector]. rewrite length_insert. apply repeat_length.
Qed.

Lemma norm2_initial (n : nat) : norm2 (state_vector (new_circuit n)) = 1.
Proof.
  unfold norm2. rewrite length_initial.
  rewrite (Rsum_single _ _ 0%nat).
  - rewrite getitem_initial. unfold Cnorm2, C1. simpl. ring.
  - apply Nat.neq_0_lt_0, Nat.pow_nonzero. lia.
  - intros i _ Hi. rewrite getitem_initial.
    destruct (Nat.eqb_spec i 0); [contradiction|]. unfold Cnorm2, C0. simpl. ring.
Qed.

(** A fresh circuit on n qubits holds 2^n amplitudes of Euclidean norm 1:
    amplitude 1 at index 0 and 0 elsewhere, and no gates. *)
Theorem new_circuit_unit_state (n : nat) :
  length (state_vector (new_circuit n)) = (2 ^ n)%nat /\
  euclidean_norm (state_vector (new_circuit n)) = 1 /\
  gates (new_circuit n) = [] /\
  forall i, getitem (state_vector (new_circuit n)) i = if (i =? 0)%nat then C1 else C0.
Proof.
  split; [apply length_initial|]. split.
  - unfold euclidean_norm. rewrite norm2_initial. apply sqrt_1.
  - split; [reflexivity | apply getitem_initial].
Qed.

(** *** [add_gate] *)

Definition append_gates (c : QuantumCircuit) (gs : list QuantumGate) : QuantumCircuit :=
  {| num_qubits := num_qubits c; gates := gates c ++ gs; state_vector := state_vector c |}.

Lemma fold_left_max_lt (xs : list Z) (a b : Z) :
  (a < b)%Z -> List.Forall (fun q => (q < b)%Z) xs -> (fold_left Z.max xs a < b)%Z.
Proof.
  intros Ha Hall. revert a Ha. induction Hall as [|x xs Hx _ IH]; intros a Ha; simpl.
  - exact Ha.
  - apply IH. lia.
Qed.

Lemma add_gate_ok (c : QuantumCircuit) (g : QuantumGate) :
  qubits g <> [] ->
  List.Forall (fun q => (q < Z.of_nat (num_qubits c))%Z) (qubits g) ->
  add_gate c g = ret (append_gates c [g]).
Proof.
  intros Hne Hall. unfold add_gate, py_max.
  destruct (qubits g) as [|x rest]; [contradiction|].
  inversion Hall as [|? ? Hx Hrest]; subst. rewrite bind_ret.
  pose proof (fold_left_max_lt rest x _ Hx Hrest) as Hlt.
  destruct (Z.geb_spec (fold_left Z.max rest x) (Z.of_nat (num_qubits c))); [lia|].
  reflexivity.
Qed.

(** [add_gate] decided: it raises ValueError on an empty target list
    (from [max]) and when some target is [>= num_qubits]; otherwise it
    appends the gate and changes nothing else.  Negative targets pass. *)
Theorem add_gate_decided (c : QuantumCircuit) (g : QuantumGate) :
  add_gate c g =
  match qubits g with
  | [] => raise (ValueError "max() arg is an empty sequence")
  | _ :: _ =>
      if existsb (fun q => (Z.of_nat (num_qubits c) <=? q)%Z) (qubits g)
      then raise (ValueError "Gate qubit index exceeds circuit size")
      else ret {| num_qubits := num_qubits c;
                  gates := gates c ++ [g];
                  state_vector := state_vector c |}
  end.
Proof.
  destruct (qubits g) as [|x rest] eqn:E.
  - unfold add_gate, py_max. rewrite E. reflexivity.
  - destruct (existsb _ (x :: rest)) eqn:Hex.
    + apply existsb_exists in Hex as (q & Hq & Hge). apply Z.leb_le in Hge.
      unfold add_gate, py_max. rewrite E, bind_ret.
      destruct (fold_left_max_ge rest x) as [Hx Hrest].
      destruct (Z.geb_spec (fold_left Z.max rest x) (Z.of_nat (num_qubits c)));
        [reflexivity|].
      destruct Hq as [<- | Hq]; [lia | specialize (Hrest q Hq); lia].
    + rewrite add_gate_ok; [reflexivity | rewrite E; discriminate |].
      rewrite E. apply List.Forall_forall. intros q Hq.
      destruct (Z.ltb_spec q (Z.of_nat (num_qubits c))) as [H | H]; [exact H|].
      exfalso. apply Bool.not_true_iff_false in Hex. apply Hex.
      apply existsb_exists. exists q. split; [exact Hq | apply Z.leb_le; exact H].
Qed.

(** *** Sequences of gates *)

(** A gate the simulator can apply on [n] qubits: its targets are
    distinct qubits of the circuit and their number matches the side of
    the matrix resolved for its kind. *)
Definition well_formed (n : nat) (g : QuantumGate) : Prop :=
  List.Forall (in_range n) (qubits g) /\ List.NoDup (qubits g) /\
  exists U, get_gate_matrix (gate_type g) (parameters g) = ret (Some U) /\
            nrows U = (2 ^ length (qubits g))%nat.

Lemma apply_gate_step (c : QuantumCircuit) (g : QuantumGate) :
  well_formed (num_qubits c) g ->
  length (state_vector c) = (2 ^ num_qubits c)%nat ->
  exists out,
    apply_gate_to_circuit c g
    = ret {| num_qubits := num_qubits c; gates := gates c; state_vector := out |} /\
    length out = (2 ^ num_qubits c)%nat /\
    norm2 out = norm2 (state_vector c).
Proof.
  intros (Hr & Hnd & U & Hres & Hside) Hlen. unfold apply_gate_to_circuit.
  rewrite Hres, bind_ret.
  pose proof (resolved_unitary _ _ _ Hres) as HU. rewrite Hside in HU.
  destruct (build_full_gate_matrix_isometry U (qubits g) (num_qubits c) HU Hr Hnd)
    as (M & HM & Hiso).
  rewrite HM, bind_ret. rewrite <- Hlen in Hiso.
  destruct (matvec_norm M (state_vector c) Hiso) as (out & Hout & Hl & Hn).
  rewrite Hout, bind_ret. exists out. split; [reflexivity|].
  split; [congruence | exact Hn].
Qed.

Lemma apply_gates_run (gs : list QuantumGate) (c : QuantumCircuit) :
  List.Forall (well_formed (num_qubits c)) gs ->
  length (state_vector c) = (2 ^ num_qubits c)%nat ->
  exists out,
    apply_gates c gs
    = ret {| num_qubits := num_qubits c; gates := gates c; state_vector := out |} /\
    length out = (2 ^ num_qubits c)%nat /\
    norm2 out = norm2 (state_vector c).
Proof.
  revert c. induction gs as [|g gs IH]; intros c Hwf Hlen.
  - exists (state_vector c). destruct c. split; [reflexivity|]. split; [exact Hlen | reflexivity].
  - inversion Hwf as [|? ? Hg Hgs]; subst.
    destruct (apply_gate_step c g Hg Hlen) as (mid & Hmid & Hl & Hn).
    cbn [apply_gates]. rewrite Hmid, bind_ret.
    destruct (IH {| num_qubits := num_qubits c; gates := gates c; state_vector := mid |}
                 Hgs Hl) as (out & Hout & Hl' & Hn').
    exists out. split; [exact Hout|]. split; [exact Hl'|].
    rewrite Hn'. exact Hn.
Qed.

(** Applying any sequence of well-formed gates to a state of length 2^n
    succeeds, keeps the number of qubits and the gate list, and leaves
    the Euclidean norm of the state unchanged. *)
Theorem apply_gates_preserve_norm (gs : list QuantumGate) (c : QuantumCircuit) :
  List.Forall (well_formed (num_qubits c)) gs ->
  length (state_vector c) = (2 ^ num_qubits c)%nat ->
  exists c',
    apply_gates c gs = ret c' /\
    num_qubits c' = num_qubits c /\ gates c' = gates c /\
    length (state_vector c') = (2 ^ num_qubits c)%nat /\
    euclidean_norm (state_vector c') = euclidean_norm (state_vector c).
Proof.
  intros Hwf Hlen. destruct (apply_gates_run gs c Hwf Hlen) as (out & Hout & Hl & Hn).
  eexists. split; [exact Hout|]. cbn [num_qubits gates state_vector].
  split; [reflexivity|]. split; [reflexivity|]. split; [exact Hl|].
  unfold euclidean_norm. rewrite Hn. reflexivity.
Qed.

Lemma hadamard_well_formed (n i : nat) :
  (i < n)%nat -> well_formed n (mkGate HADAMARD [Z.of_nat i] None).
Proof.
  intros Hi. split; [|split].
  - constructor; [unfold in_range; lia | constructor].
  - constructor; [simpl; tauto | constructor].
  - exists hadamard. split; reflexivity.
Qed.

Lemma apply_gates_preserve_norm_witness :
  exists c',
    apply_gates (new_circuit 2) [mkGate HADAMARD [0%Z] None; mkGate HADAMARD [1%Z] None]
    = ret c' /\
    num_qubits c' = num_qubits (new_circuit 2) /\ gates c' = gates (new_circuit 2) /\
    length (state_vector c') = (2 ^ num_qubits (new_circuit 2))%nat /\
    euclidean_norm (state_vector c') = euclidean_norm (state_vector (new_circuit 2)).
Proof.
  apply (apply_gates_preserve_norm
           [mkGate HADAMARD [0%Z] None; mkGate HADAMARD [1%Z] None] (new_circuit 2)).
  - constructor; [apply (hadamard_well_formed 2 0); simpl; lia|].
    constructor; [apply (hadamard_well_formed 2 1); simpl; lia | constructor].
  - reflexivity.
Defined.

(** *** [simulate_circuit] *)

Lemma norm2_snoc (l : vec) (x : C) : norm2 (l ++ [x]) = norm2 l + Cnorm2 x.
Proof.
  unfold norm2. rewrite length_app, Nat.add_1_r. cbn [Rsum]. f_equal.
  - apply Rsum_ext. intros i Hi. unfold getitem. rewrite app_nth1 by exact Hi.
    reflexivity.
  - unfold getitem. rewrite nth_middle. reflexivity.
Qed.

(** The probabilities [np.abs(state)**2] add up to the squared norm. *)
Lemma probabilities_sum (v : vec) :
  fold_right Rplus 0 (map (fun z => Cmod z ^ 2) v) = norm2 v.
Proof.
  rewrite (map_ext _ Cnorm2) by (intros z; apply Cmod_sqr).
  induction v as [|x l IH] using rev_ind; [reflexivity|].
  rewrite map_app, fold_right_app, norm2_snoc, <- IH. cbn [map fold_right].
  generalize (map Cnorm2 l). intros r. induction r as [|y r IHr]; cbn [fold_right].
  - ring.
  - rewrite IHr. ring.
Qed.

Lemma simulate_run (B : backend) (c : QuantumCircuit) (shots : nat) (optimize : bool) :
  ((optimize && (4 <? num_qubits c)%nat)%bool = true ->
   decompose_circuit_tensor B c = ret tt) ->
  List.Forall (well_formed (num_qubits c)) (gates c) ->
  length (state_vector c) = (2 ^ num_qubits c)%nat ->
  norm2 (state_vector c) = 1 ->
  exists res c',
    simulate_circuit B c shots optimize = ret (res, c') /\
    total (counts res) = shots /\
    length (result_state_vector res) = (2 ^ num_qubits c)%nat /\
    norm2 (result_state_vector res) = 1 /\
    fold_right Rplus 0 (probabilities res) = 1 /\
    num_gates res = length (gates c) /\
    state_vector c' = result_state_vector res.
Proof.
  intros Hdec Hwf Hlen Hnorm. unfold simulate_circuit.
  assert (Hpre : (if (optimize && (4 <? num_qubits c)%nat)%bool
                  then decompose_circuit_tensor B c else ret tt) = ret tt).
  { destruct (optimize && (4 <? num_qubits c)%nat)%bool; [apply Hdec|]; reflexivity. }
  rewrite Hpre, bind_ret.
  destruct (apply_gates_run (gates c) c Hwf Hlen) as (out & Hout & Hl & Hn).
  rewrite Hout, bind_ret. cbn [state_vector num_qubits gates].
  unfold random_choice. rewrite length_map, Hl.
  assert (Hpow : (0 < 2 ^ num_qubits c)%nat) by (apply Nat.neq_0_lt_0, Nat.pow_nonzero; lia).
  destruct (Nat.eqb_spec (2 ^ num_qubits c) 0) as [E|_]; [lia|].
  rewrite is_distribution_true;
    [| rewrite length_map; exact Hl | apply probabilities_nonneg
     | rewrite probabilities_sum; congruence].
  rewrite bind_ret. eexists. eexists. split; [reflexivity|].
  cbn [counts result_state_vector probabilities num_gates state_vector].
  split; [rewrite count_outcomes_total; apply sample_length|].
  split; [exact Hl|]. split; [congruence|].
  split; [rewrite probabilities_sum; congruence|]. split; reflexivity.
Qed.

(** For a circuit whose gates are all well formed and whose state has
    length 2^n and norm 1, [simulate_circuit] returns: the histogram
    counts add up to [shots], the returned state still has length 2^n
    and norm 1, and the returned probabilities add up to 1.  (When
    [optimize] is set on more than 4 qubits the tensor decomposition is
    assumed to return.) *)
Theorem simulate_well_formed_circuit (B : backend) (c : QuantumCircuit) (shots : nat)
    (optimize : bool) :
  ((optimize && (4 <? num_qubits c)%nat)%bool = true ->
   decompose_circuit_tensor B c = ret tt) ->
  List.Forall (well_formed (num_qubits c)) (gates c) ->
  length (state_vector c) = (2 ^ num_qubits c)%nat ->
  euclidean_norm (state_vector c) = 1 ->
  exists res c',
    simulate_circuit B c shots optimize = ret (res, c') /\
    total (counts res) = shots /\
    length (result_state_vector res) = (2 ^ num_qubits c)%nat /\
    euclidean_norm (result_state_vector res) = 1 /\
    fold_right Rplus 0 (probabilities res) = 1 /\
    num_gates res = length (gates c) /\
    result_shots res = shots.
Proof.
  intros Hdec Hwf Hlen Hnorm.
  assert (Hn2 : norm2 (state_vector c) = 1).
  { unfold euclidean_norm in Hnorm.
    assert (Hpos : 0 <= norm2 (state_vector c)).
    { unfold norm2. apply Rsum_nonneg. intros i _. apply Cnorm2_nonneg. }
    rewrite <- (sqrt_sqrt _ Hpos), Hnorm. ring. }
  destruct (simulate_run B c shots optimize Hdec Hwf Hlen Hn2)
    as (res & c' & Hsim & Ht & Hl & Hn & Hp & Hg & _).
  exists res, c'. split; [exact Hsim|]. split; [exact Ht|]. split; [exact Hl|].
  split; [unfold euclidean_norm; rewrite Hn; apply sqrt_1|].
  split; [exact Hp|]. split; [exact Hg|].
  unfold simulate_circuit in Hsim.
  destruct (if (optimize && (4 <? num_qubits c)%nat)%bool
            then decompose_circuit_tensor B c else ret tt); [discriminate|].
  rewrite bind_ret in Hsim.
  destruct (apply_gates c (gates c)); [discriminate|]. rewrite bind_ret in Hsim.
  destruct (random_choice _ _ _ _); [discriminate|]. rewrite bind_ret in Hsim.
  injection Hsim as <- _. reflexivity.
Qed.

Lemma simulate_well_formed_circuit_witness :
  exists res c',
    simulate_circuit zero_backend
      (mkCircuit 1 [mkGate HADAMARD [0%Z] None] (state_vector (new_circuit 1))) 7 true
    = ret (res, c') /\
    total (counts res) = 7%nat /\
    length (result_state_vector res) = (2 ^ 1)%nat /\
    euclidean_norm (result_state_vector res) = 1 /\
    fold_right Rplus 0 (probabilities res) = 1 /\
    num_gates res = 1%nat /\
    result_shots res = 7%nat.
Proof.
  apply (simulate_well_formed_circuit zero_backend
           (mkCircuit 1 [mkGate HADAMARD [0%Z] None] (state_vector (new_circuit 1)))
           7 true).
  - simpl. discriminate.
  - constructor; [apply (hadamard_well_formed 1 0); simpl; lia | constructor].
  - reflexivity.
  - unfold euclidean_norm. cbn [state_vector]. rewrite (norm2_initial 1). apply sqrt_1.
Defined.

(** *** [create_qft_circuit] *)

Lemma append_gates_nil (c : QuantumCircuit) : append_gates c [] = c.
Proof. destruct c. unfold append_gates. cbn. rewrite app_nil_r. reflexivity. Qed.

Lemma append_gates_app (c : QuantumCircuit) (a b : list QuantumGate) :
  append_gates (append_gates c a) b = append_gates c (a ++ b).
Proof. unfold append_gates. cbn. rewrite app_assoc. reflexivity. Qed.

(** A loop each of whose passes appends gates. *)
Lemma for_each_append {A : Type} (xs : list A)
    (body : QuantumCircuit -> A -> result QuantumCircuit)
    (G : A -> list QuantumGate) (c : QuantumCircuit) :
  (forall x c', In x xs -> num_qubits c' = num_qubits c ->
                body c' x = ret (append_gates c' (G x))) ->
  for_each xs body c = ret (append_gates c (flat_map G xs)).
Proof.
  revert c. induction xs as [|x xs IH]; intros c Hbody; cbn [for_each flat_map].
  - rewrite append_gates_nil. reflexivity.
  - rewrite (Hbody x c) by (simpl; auto). rewrite bind_ret, IH.
    + rewrite append_gates_app. reflexivity.
    + intros y c' Hy Hc'. apply Hbody; [simpl; auto | exact Hc'].
Qed.

Lemma add_single_ok (c : QuantumCircuit) (kind : GateType) (i : nat)
    (ps : option (list (string * pvalue))) :
  (i < num_qubits c)%nat ->
  add_gate c (mkGate kind [Z.of_nat i] ps) = ret (append_gates c [mkGate kind [Z.of_nat i] ps]).
Proof.
  intros Hi. apply add_gate_ok; cbn [qubits]; [discriminate|].
  constructor; [lia | constructor].
Qed.

Lemma flat_map_single {A B : Type} (g : A -> B) (l : list A) :
  flat_map (fun x => [g x]) l = map g l.
Proof. induction l as [|x l IH]; [reflexivity|]. cbn [flat_map map app]. rewrite IH. reflexivity. Qed.

Definition phase_step (i j : nat) : QuantumGate :=
  mkGate PHASE [Z.of_nat j] (Some [("theta"%string, PFloat (PI / 2 ^ (j - i)))]).

(** The gates [create_qft_circuit] appends in pass [i] of its outer loop. *)
Definition qft_pass (n i : nat) : list QuantumGate :=
  mkGate HADAMARD [Z.of_nat i] None :: map (phase_step i) (seq (i + 1) (n - (i + 1))).

Lemma create_qft_circuit_run (n : nat) :
  create_qft_circuit n = ret (append_gates (new_circuit n) (flat_map (qft_pass n) (seq 0 n))).
Proof.
  unfold create_qft_circuit. apply for_each_append.
  intros i c Hi Hc. apply in_seq in Hi. cbn [new_circuit num_qubits] in Hc.
  rewrite add_single_ok by lia. rewrite bind_ret.
  rewrite (for_each_append _ _ (fun j => [phase_step i j])).
  - rewrite append_gates_app, flat_map_single. reflexivity.
  - intros j c' Hj Hc'. apply in_seq in Hj. cbn [append_gates num_qubits] in Hc'.
    apply add_single_ok. lia.
Qed.

Lemma phase_well_formed (n j : nat) (ps : option (list (string * pvalue))) :
  (j < n)%nat -> well_formed n (mkGate PHASE [Z.of_nat j] ps).
Proof.
  intros Hj. split; [|split].
  - constructor; [unfold in_range; lia | constructor].
  - constructor; [simpl; tauto | constructor].
  - eexists. split; reflexivity.
Qed.

Lemma qft_pass_well_formed (n i : nat) :
  (i < n)%nat -> List.Forall (well_formed n) (qft_pass n i).
Proof.
  intros Hi. constructor; [apply hadamard_well_formed; exact Hi|].
  apply List.Forall_forall. intros g Hg. apply in_map_iff in Hg as (j & <- & Hj).
  apply in_seq in Hj. apply phase_well_formed. lia.
Qed.

Lemma qft_gate_count (n a k : nat) :
  (a + k = n)%nat ->
  (2 * length (flat_map (qft_pass n) (seq a k)) = k * (k + 1))%nat.
Proof.
  revert a. induction k as [|k IH]; intros a Hak; [reflexivity|].
  cbn [seq flat_map]. rewrite length_app, Nat.mul_add_distr_l, (IH (S a)) by lia.
  unfold qft_pass. cbn [length]. rewrite length_map, length_seq. nia.
Qed.

(** [create_qft_circuit n] never raises: it returns a circuit on n
    qubits in the initial state |0...0>, with n(n+1)/2 gates (one
    Hadamard per qubit and a phase gate for every pair i < j), all of
    them well formed. *)
Theorem create_qft_circuit_gates (n : nat) :
  exists c,
    create_qft_circuit n = ret c /\
    num_qubits c = n /\
    state_vector c = state_vector (new_circuit n) /\
    (2 * length (gates c) = n * (n + 1))%nat /\
    List.Forall (well_formed n) (gates c).
Proof.
  eexists. split; [apply create_qft_circuit_run|].
  cbn [append_gates num_qubits state_vector gates new_circuit app].
  split; [reflexivity|]. split; [reflexivity|]. split.
  - apply qft_gate_count. reflexivity.
  - apply List.Forall_forall. intros g Hg. apply in_flat_map in Hg as (i & Hi & Hg).
    apply in_seq in Hi.
    pose proof (qft_pass_well_formed n i ltac:(lia)) as Hall.
    rewrite List.Forall_forall in Hall. apply Hall, Hg.
Qed.

Lemma qft_gates_well_formed (n : nat) :
  List.Forall (well_formed n) (flat_map (qft_pass n) (seq 0 n)).
Proof.
  apply List.Forall_forall. intros g Hg. apply in_flat_map in Hg as (i & Hi & Hg).
  apply in_seq in Hi.
  pose proof (qft_pass_well_formed n i ltac:(lia)) as Hall.
  rewrite List.Forall_forall in Hall. apply Hall, Hg.
Qed.

(** Building the QFT circuit on n qubits and simulating it always
    returns: the histogram counts add up to [shots], the final state has
    2^n amplitudes and Euclidean norm 1, and the result reports
    n(n+1)/2 gates.  (When [optimize] is set on more than 4 qubits the
    tensor decomposition is assumed to return.) *)
Theorem simulate_qft_circuit (B : backend) (n shots : nat) (optimize : bool) :
  (forall c, (optimize && (4 <? n)%nat)%bool = true ->
             decompose_circuit_tensor B c = ret tt) ->
  exists c res c',
    create_qft_circuit n = ret c /\
    simulate_circuit B c shots optimize = ret (res, c') /\
    total (counts res) = shots /\
    length (result_state_vector res) = (2 ^ n)%nat /\
    euclidean_norm (result_state_vector res) = 1 /\
    (2 * num_gates res = n * (n + 1))%nat.
Proof.
  intros Hdec. eexists. rewrite create_qft_circuit_run.
  set (c := append_gates (new_circuit n) (flat_map (qft_pass n) (seq 0 n))).
  destruct (simulate_run B c shots optimize) as (res & c' & Hsim & Ht & Hl & Hn & _ & Hg & _).
  - apply Hdec.
  - apply qft_gates_well_formed.
  - apply length_initial.
  - apply norm2_initial.
  - exists res, c'. split; [reflexivity|]. split; [exact Hsim|]. split; [exact Ht|].
    split; [exact Hl|]. split; [unfold euclidean_norm; rewrite Hn; apply sqrt_1|].
    rewrite Hg. apply qft_gate_count. reflexivity.
Qed.

Lemma simulate_qft_circuit_witness :
  exists c res c',
    create_qft_circuit 3 = ret c /\
    simulate_circuit zero_backend c 1000 true = ret (res, c') /\
    total (counts res) = 1000%nat /\
    length (result_state_vector res) = (2 ^ 3)%nat /\
    euclidean_norm (result_state_vector res) = 1 /\
    (2 * num_gates res = 3 * (3 + 1))%nat.
Proof.
  apply (simulate_qft_circuit zero_backend 3 1000 true).
  intros c H. reflexivity.
Defined.

(** *** [create_grover_circuit] *)

Definition oracle_gates (bits : string) : list QuantumGate :=
  flat_map (fun '(i, bit) =>
              if Ascii.eqb bit "0" then [mkGate PAULI_X [Z.of_nat i] None] else [])
           (combine (seq 0 (String.length bits)) (list_ascii_of_string bits)).

Lemma oracle_flips_run (bits : string) (c : QuantumCircuit) :
  (String.length bits <= num_qubits c)%nat ->
  oracle_flips bits c = ret (append_gates c (oracle_gates bits)).
Proof.
  intros Hlen. unfold oracle_flips, oracle_gates. apply for_each_append.
  intros [i bit] c' Hin Hc'. apply in_combine_l, in_seq in Hin.
  destruct (Ascii.eqb bit "0").
  - apply add_single_ok. lia.
  - rewrite append_gates_nil. reflexivity.
Qed.

Definition diffuser_gate (n : nat) : QuantumGate :=
  mkGate GROVER_DIFFUSER (map Z.of_nat (seq 0 n))
         (Some [("n_qubits"%string, PInt (Z.of_nat n))]).

(** The gates one Grover iteration appends. *)
Definition grover_pass (n target : nat) : list QuantumGate :=
  oracle_gates (format_bits n target)
  ++ [mkGate PAULI_Z [Z.of_nat (n - 1)] None]
  ++ oracle_gates (format_bits n target)
  ++ [diffuser_gate n].

Definition grover_gates (n target : nat) : list QuantumGate :=
  map (fun i => mkGate HADAMARD [Z.of_nat i] None) (seq 0 n)
  ++ flat_map (fun _ => grover_pass n target) (seq 0 (grover_iterations n)).

Lemma create_grover_circuit_run (n target : nat) :
  (1 <= n)%nat -> (target < 2 ^ n)%nat ->
  create_grover_circuit n target = ret (append_gates (new_circuit n) (grover_gates n target)).
Proof.
  intros Hn Ht. unfold create_grover_circuit.
  rewrite (for_each_append _ _ (fun i => [mkGate HADAMARD [Z.of_nat i] None])).
  2: { intros i c' Hi Hc'. apply in_seq in Hi. cbn [new_circuit num_qubits] in Hc'.
       apply add_single_ok. lia. }
  rewrite bind_ret, flat_map_single.
  rewrite (for_each_append _ _ (fun _ => grover_pass n target)).
  - rewrite append_gates_app. reflexivity.
  - intros k c' _ Hc'. cbn [append_gates new_circuit num_qubits] in Hc'. cbv zeta.
    pose proof (format_bits_length n target Hn Ht) as Hlen.
    rewrite oracle_flips_run by lia. rewrite bind_ret.
    replace (Z.of_nat n - 1)%Z with (Z.of_nat (n - 1)) by lia.
    rewrite add_single_ok by (cbn [append_gates num_qubits]; lia). rewrite bind_ret.
    rewrite oracle_flips_run by (cbn [append_gates num_qubits]; lia). rewrite bind_ret.
    rewrite add_gate_ok.
    + rewrite !append_gates_app. unfold grover_pass, diffuser_gate. reflexivity.
    + cbn [qubits]. destruct n; [lia | discriminate].
    + cbn [qubits append_gates num_qubits]. apply List.Forall_forall.
      intros q Hq. apply in_map_iff in Hq as (i & <- & Hi). apply in_seq in Hi. lia.
Qed.

Lemma pauli_well_formed (n i : nat) (kind : GateType) :
  (i < n)%nat -> kind = PAULI_X \/ kind = PAULI_Z ->
  well_formed n (mkGate kind [Z.of_nat i] None).
Proof.
  intros Hi Hk. split; [|split].
  - constructor; [unfold in_range; lia | constructor].
  - constructor; [simpl; tauto | constructor].
  - destruct Hk as [-> | ->]; eexists; split; reflexivity.
Qed.

Lemma diffuser_well_formed (n : nat) : well_formed n (diffuser_gate n).
Proof.
  split; [|split]; cbn [diffuser_gate qubits gate_type parameters].
  - apply List.Forall_forall. intros q Hq. apply in_map_iff in Hq as (i & <- & Hi).
    apply in_seq in Hi. unfold in_range. lia.
  - apply Finite.Injective_map_NoDup; [intros a b; apply Nat2Z.inj | apply List.seq_NoDup].
  - exists (grover_diffuser_matrix n). split.
    + cbn [get_gate_matrix]. change (param_get _ "n_qubits") with (Some (PInt (Z.of_nat n))).
      cbn [pvalue_dim]. destruct (Z.leb_spec 0 (Z.of_nat n)); [|lia].
      rewrite bind_ret, Nat2Z.id. reflexivity.
    + rewrite length_map, length_seq. reflexivity.
Qed.

Lemma oracle_gates_well_formed (n : nat) (bits : string) :
  (String.length bits <= n)%nat -> List.Forall (well_formed n) (oracle_gates bits).
Proof.
  intros Hlen. apply List.Forall_forall. intros g Hg. unfold oracle_gates in Hg.
  apply in_flat_map in Hg as ([i bit] & Hin & Hg).
  apply in_combine_l, in_seq in Hin.
  destruct (Ascii.eqb bit "0"); [|destruct Hg].
  destruct Hg as [<- | []]. apply pauli_well_formed; [lia | auto].
Qed.

(** For at least one qubit and a target state below 2^n,
    [create_grover_circuit] never raises: it returns a circuit on n
    qubits in the initial state whose gates are all well formed.  The
    gates are one Hadamard per qubit, then, in every iteration, a Pauli-X
    on each qubit whose digit in the n-digit binary form of the target is
    0, one Pauli-Z on qubit n-1, the same Pauli-X gates again, and the
    diffuser on all n qubits. *)
Theorem create_grover_circuit_gates (n target : nat) :
  (1 <= n)%nat -> (target < 2 ^ n)%nat ->
  exists c,
    create_grover_circuit n target = ret c /\
    num_qubits c = n /\
    state_vector c = state_vector (new_circuit n) /\
    gates c = grover_gates n target /\
    List.Forall (well_formed n) (gates c).
Proof.
  intros Hn Ht. eexists. split; [apply create_grover_circuit_run; assumption|].
  cbn [append_gates num_qubits state_vector gates new_circuit app].
  split; [reflexivity|]. split; [reflexivity|]. split; [reflexivity|].
  pose proof (format_bits_length n target Hn Ht) as Hlen.
  unfold grover_gates. apply List.Forall_app. split.
  - apply List.Forall_forall. intros g Hg. apply in_map_iff in Hg as (i & <- & Hi).
    apply in_seq in Hi. apply hadamard_well_formed. lia.
  - apply List.Forall_forall. intros g Hg. apply in_flat_map in Hg as (k & _ & Hg).
    unfold grover_pass in Hg. rewrite !in_app_iff in Hg.
    pose proof (oracle_gates_well_formed n (format_bits n target) ltac:(lia)) as Hor.
    rewrite List.Forall_forall in Hor.
    destruct Hg as [Hg | [[<- | []] | [Hg | [<- | []]]]].
    + apply Hor, Hg.
    + apply pauli_well_formed; [lia | auto].
    + apply Hor, Hg.
    + apply diffuser_well_formed.
Qed.

Lemma create_grover_circuit_gates_witness :
  exists c,
    create_grover_circuit 2 3 = ret c /\
    num_qubits c = 2%nat /\
    state_vector c = state_vector (new_circuit 2) /\
    gates c = grover_gates 2 3 /\
    List.Forall (well_formed 2) (gates c).
Proof.
  apply (create_grover_circuit_gates 2 3); simpl; lia.
Defined.

(** *** A single target outside the circuit *)

(** [M] has side [m] and the entries of the identity. *)
Definition identity_like (M : matrix) (m : nat) : Prop :=
  nrows M = m /\ ncols M = m /\
  forall i j, (i < m)%nat -> (j < m)%nat -> mx M i j = if (i =? j)%nat then C1 else C0.

Lemma identity_like_eye (n : nat) : identity_like (eye n) n.
Proof. split; [reflexivity|]. split; [reflexivity|]. intros i j _ _. reflexivity. Qed.

Lemma identity_like_kron (A B : matrix) (a b : nat) :
  identity_like A a -> identity_like B b -> identity_like (kron A B) (a * b).
Proof.
  intros (HrA & HcA & HA) (HrB & HcB & HB).
  split; [cbn [kron nrows]; congruence|]. split; [cbn [kron ncols]; congruence|].
  intros i j Hi Hj. cbn [kron mx]. rewrite HrB, HcB.
  assert (Hb : (0 < b)%nat) by (destruct b; [lia | lia]).
  assert (Hqi : (i / b < a)%nat) by (apply Nat.Div0.div_lt_upper_bound; lia).
  assert (Hqj : (j / b < a)%nat) by (apply Nat.Div0.div_lt_upper_bound; lia).
  assert (Hri : (i mod b < b)%nat) by (apply Nat.mod_upper_bound; lia).
  assert (Hrj : (j mod b < b)%nat) by (apply Nat.mod_upper_bound; lia).
  rewrite HA, HB by assumption.
  pose proof (Nat.div_mod_eq i b) as Ei. pose proof (Nat.div_mod_eq j b) as Ej.
  destruct (Nat.eqb_spec i j) as [-> | Hne].
  - rewrite !Nat.eqb_refl. apply Cmult_1_l.
  - destruct (Nat.eqb_spec (i / b) (j / b)) as [Eq | _]; [|apply Cmult_0_l].
    destruct (Nat.eqb_spec (i mod b) (j mod b)) as [Er | _]; [|apply Cmult_0_r].
    exfalso. apply Hne. rewrite Ei, Ej, Eq, Er. reflexivity.
Qed.

Lemma identity_like_fold (k m : nat) (first : matrix) :
  identity_like first m ->
  identity_like (fold_left kron (repeat (eye 2) k) first) (m * 2 ^ k).
Proof.
  revert m first. induction k as [|k IH]; intros m first H; cbn [repeat fold_left].
  - rewrite Nat.pow_0_r, Nat.mul_1_r. exact H.
  - replace (m * 2 ^ S k)%nat with (m * 2 * 2 ^ k)%nat by (rewrite Nat.pow_succ_r'; lia).
    apply IH, identity_like_kron; [exact H | apply identity_like_eye].
Qed.

Lemma identity_like_tensor (n : nat) :
  identity_like (tensor_product_gates (repeat (eye 2) n)) (2 ^ n).
Proof.
  destruct n as [|n]; [apply identity_like_eye|].
  cbn [repeat tensor_product_gates].
  replace (2 ^ S n)%nat with (2 * 2 ^ n)%nat by (rewrite Nat.pow_succ_r'; lia).
  apply identity_like_fold, identity_like_eye.
Qed.

Lemma matvec_identity_like (M : matrix) (v : vec) :
  identity_like M (length v) -> matvec M v = ret v.
Proof.
  intros (Hr & Hc & HM). unfold matvec.
  destruct (decide (ncols M = length v)) as [_|]; [|contradiction].
  f_equal. rewrite Hr, Hc. apply (nth_ext _ _ C0 C0).
  - rewrite length_map, length_seq. reflexivity.
  - intros i Hi. rewrite length_map, length_seq in Hi.
    change (nth i ?l C0) with (getitem l i). rewrite getitem_map_seq by exact Hi.
    rewrite (Csum_single _ _ i Hi).
    + rewrite HM, Nat.eqb_refl by exact Hi. apply Cmult_1_l.
    + intros j Hj Hne. rewrite HM by assumption.
      destruct (Nat.eqb_spec i j); [congruence | apply Cmult_0_l].
Qed.

Lemma map_const {A B : Type} (x : B) (l : list A) :
  map (fun _ => x) l = repeat x (length l).
Proof. induction l as [|a l IH]; [reflexivity|]. cbn [map length repeat]. rewrite IH. reflexivity. Qed.

Lemma single_qubit_outside (U : matrix) (t : Z) (n : nat) :
  ~ in_range n t ->
  single_qubit_full_matrix U t n = tensor_product_gates (repeat (eye 2) n).
Proof.
  intros Ht. unfold single_qubit_full_matrix. f_equal.
  rewrite (map_ext_in _ (fun _ => eye 2)).
  - rewrite map_const, length_seq. reflexivity.
  - intros i Hi. apply in_seq in Hi.
    destruct (Z.eqb_spec (Z.of_nat i) t) as [E|_]; [|reflexivity].
    exfalso. apply Ht. unfold in_range. lia.
Qed.

(** A gate with a single target outside [0, n) is silently applied as the
    identity: whatever matrix its kind resolves to (of whatever size),
    [apply_gate_to_circuit] succeeds and returns the circuit unchanged.
    Negative targets reach this point, since [add_gate] accepts them. *)
Theorem single_target_outside_is_identity (c : QuantumCircuit) (kind : GateType)
    (ps : option (list (string * pvalue))) (t : Z) (U : matrix) :
  get_gate_matrix kind ps = ret (Some U) ->
  ~ in_range (num_qubits c) t ->
  length (state_vector c) = (2 ^ num_qubits c)%nat ->
  apply_gate_to_circuit c (mkGate kind [t] ps) = ret c.
Proof.
  intros Hres Ht Hlen. unfold apply_gate_to_circuit. cbn [gate_type parameters qubits].
  rewrite Hres, bind_ret. unfold build_full_gate_matrix. cbn [length Nat.eqb].
  change (py_index [t] 0) with (ret t : result Z). rewrite !bind_ret.
  rewrite single_qubit_outside by exact Ht.
  rewrite matvec_identity_like.
  - rewrite bind_ret. destruct c. reflexivity.
  - rewrite Hlen. apply identity_like_tensor.
Qed.

Lemma single_target_outside_is_identity_witness :
  apply_gate_to_circuit (new_circuit 2) (mkGate CNOT [(-1)%Z] None) = ret (new_circuit 2).
Proof.
  apply (single_target_outside_is_identity (new_circuit 2) CNOT None (-1) cnot).
  - reflexivity.
  - unfold in_range. simpl. lia.
  - reflexivity.
Defined.

(** *** Adjacent pairs *)

(** For two adjacent targets the expansion only looks at their minimum
    and maximum, so swapping the two targets of a gate (for CNOT: control
    and target) does not change what [apply_gate_to_circuit] does. *)
Theorem adjacent_targets_order_ignored (c : QuantumCircuit) (kind : GateType)
    (ps : option (list (string * pvalue))) (a b : Z) :
  Z.abs (a - b) = 1%Z ->
  apply_gate_to_circuit c (mkGate kind [a; b] ps)
  = apply_gate_to_circuit c (mkGate kind [b; a] ps).
Proof.
  intros Hadj. unfold apply_gate_to_circuit. cbn [gate_type parameters qubits].
  destruct (get_gate_matrix kind ps) as [e | [U|]]; try reflexivity.
  rewrite !bind_ret. unfold build_full_gate_matrix. cbn [length Nat.eqb].
  unfold two_qubit_full_matrix.
  change (py_index [a; b] 0) with (ret a : result Z).
  change (py_index [a; b] 1) with (ret b : result Z).
  change (py_index [b; a] 0) with (ret b : result Z).
  change (py_index [b; a] 1) with (ret a : result Z).
  rewrite !bind_ret.
  replace (Z.abs (b - a)) with (Z.abs (a - b)) by lia.
  rewrite Hadj, Z.eqb_refl, (Z.min_comm b a), (Z.max_comm b a). reflexivity.
Qed.

Lemma adjacent_targets_order_ignored_witness :
  apply_gate_to_circuit (new_circuit 2) (mkGate CNOT [0%Z; 1%Z] None)
  = apply_gate_to_circuit (new_circuit 2) (mkGate CNOT [1%Z; 0%Z] None).
Proof.
  apply (adjacent_targets_order_ignored (new_circuit 2) CNOT None 0 1).
  reflexivity.
Defined.

(** *** Histogram keys *)

(** The value of a string of binary digits, most significant first. *)
Fixpoint binary_value (acc : N) (s : string) : N :=
  match s with
  | EmptyString => acc
  | String a rest => binary_value (2 * acc + (if Ascii.eqb a "1" then 1 else 0)) rest
  end.

Lemma binary_value_app (acc : N) (s1 s2 : string) :
  binary_value acc (s1 ++ s2) = binary_value (binary_value acc s1) s2.
Proof.
  revert acc. induction s1 as [|a s1 IH]; intros acc; [reflexivity|].
  cbn [append binary_value]. apply IH.
Qed.

Lemma binary_value_bin_pos (p : positive) : binary_value 0 (bin_pos p) = Npos p.
Proof.
  induction p as [q IH | q IH |]; cbn [bin_pos]; [| |reflexivity];
    rewrite binary_value_app, IH; reflexivity.
Qed.

Lemma binary_value_zeros (k : nat) (s : string) :
  binary_value 0 (zeros_string k ++ s) = binary_value 0 s.
Proof. induction k as [|k IH]; [reflexivity|]. cbn [zeros_string append binary_value]. exact IH. Qed.

Lemma binary_value_format (n k : nat) : binary_value 0 (format_bits n k) = N.of_nat k.
Proof.
  unfold format_bits. rewrite binary_value_zeros.
  destruct (N.of_nat k) as [|p]; [reflexivity | apply binary_value_bin_pos].
Qed.

(** Two outcomes are printed as the same histogram key exactly when they
    are the same outcome, for every width (also when an outcome needs more
    than [n] digits). *)
Theorem format_bits_faithful (n a b : nat) :
  String.eqb (format_bits n a) (format_bits n b) = Nat.eqb a b.
Proof.
  destruct (Nat.eqb_spec a b) as [-> | Hne].
  - apply String.eqb_refl.
  - apply String.eqb_neq. intros E. apply Hne, Nat2N.inj.
    rewrite <- (binary_value_format n a), <- (binary_value_format n b), E. reflexivity.
Qed.

Lemma count_outcomes_lookup (n o : nat) (outcomes : list nat) (m0 : gmap string nat) :
  default 0%nat (fold_left (count_step n) outcomes m0 !! format_bits n o)
  = (default 0%nat (m0 !! format_bits n o) + count_occ Nat.eq_dec outcomes o)%nat.
Proof.
  revert m0. induction outcomes as [|x l IH]; intros m0; cbn [fold_left count_occ].
  - lia.
  - rewrite IH. unfold count_step. cbv zeta.
    destruct (Nat.eq_dec x o) as [-> | Hne].
    + rewrite lookup_insert_eq. cbn [default]. unfold Datatypes.id. lia.
    + rewrite lookup_insert_ne; [reflexivity|].
      intros E. apply Hne, Nat2N.inj.
      rewrite <- (binary_value_format n x), <- (binary_value_format n o), E. reflexivity.
Qed.

(** The histogram counts occurrences: the count stored under the key of
    an outcome (0 when the key is absent) is the number of times that
    outcome was drawn. *)
Theorem count_outcomes_occurrences (n o : nat) (outcomes : list nat) :
  default 0%nat (count_outcomes n outcomes !! format_bits n o)
  = count_occ Nat.eq_dec outcomes o.
Proof.
  change (count_outcomes n outcomes) with (fold_left (count_step n) outcomes ∅).
  rewrite count_outcomes_lookup, lookup_empty. reflexivity.
Qed.

End CircuitFacts.

(** ** Results for the Pauli errors of [simulate_errors] *)

Module PauliErrorFacts.
Import ErrorCorrection ArrayFacts LinearFacts.
Local Open Scope R_scope.

(** The index read by the bit flip with shift [sh] at position [i]. *)
Definition flip_index (sh : Z) (i : nat) : nat :=
  Z.to_nat (Z.lxor (Z.of_nat i) (Z.shiftl 1 sh)).

Lemma lxor_pow2_range (n sh i : Z) :
  (0 <= sh < n)%Z -> (0 <= i < 2 ^ n)%Z ->
  (0 <= Z.lxor i (Z.shiftl 1 sh) < 2 ^ n)%Z.
Proof.
  intros [Hsh Hn] [Hi Hlt]. rewrite Z.shiftl_1_l.
  assert (Hm : (0 < 2 ^ sh)%Z) by (apply Z.pow_pos_nonneg; lia).
  assert (Hnn : (0 <= Z.lxor i (2 ^ sh))%Z) by (apply Z.lxor_nonneg; lia).
  split; [exact Hnn|].
  destruct (Z.eq_dec (Z.lxor i (2 ^ sh)) 0%Z) as [E | E].
  - rewrite E. apply Z.pow_pos_nonneg; lia.
  - apply Z.log2_lt_pow2; [lia|].
    eapply Z.le_lt_trans; [apply Z.log2_lxor; lia|].
    apply Z.max_lub_lt.
    + destruct (Z.eq_dec i 0%Z) as [-> | Hne]; [simpl; lia|].
      apply Z.log2_lt_pow2; lia.
    + rewrite Z.log2_pow2 by lia. lia.
Qed.

Lemma flip_index_lt (n : nat) (sh : Z) (i : nat) :
  (0 <= sh < Z.of_nat n)%Z -> (i < 2 ^ n)%nat -> (flip_index sh i < 2 ^ n)%nat.
Proof.
  intros Hsh Hi. unfold flip_index.
  pose proof (lxor_pow2_range (Z.of_nat n) sh (Z.of_nat i) Hsh) as H.
  assert (Hp : (2 ^ Z.of_nat n)%Z = Z.of_nat (2 ^ n)).
  { rewrite Nat2Z.inj_pow. reflexivity. }
  rewrite Hp in H. specialize (H ltac:(lia)). lia.
Qed.

Lemma flip_index_involutive (n : nat) (sh : Z) (i : nat) :
  (0 <= sh < Z.of_nat n)%Z -> (i < 2 ^ n)%nat -> flip_index sh (flip_index sh i) = i.
Proof.
  intros Hsh Hi. unfold flip_index.
  pose proof (lxor_pow2_range (Z.of_nat n) sh (Z.of_nat i) Hsh) as H.
  assert (Hp : (2 ^ Z.of_nat n)%Z = Z.of_nat (2 ^ n)).
  { rewrite Nat2Z.inj_pow. reflexivity. }
  rewrite Hp in H. specialize (H ltac:(lia)).
  rewrite Z2Nat.id by lia.
  rewrite Z.lxor_assoc, Z.lxor_nilpotent, Z.lxor_0_r. apply Nat2Z.id.
Qed.

Lemma log2_len_pow2 (s : vec) (n : nat) :
  length s = (2 ^ n)%nat -> log2_len s = ret (Z.of_nat n).
Proof.
  intros H. unfold log2_len. rewrite H.
  destruct (decide ((2 ^ n)%nat = 0%nat)) as [E|_].
  - exfalso. revert E. apply Nat.pow_nonzero. lia.
  - rewrite Nat.log2_pow2 by lia. reflexivity.
Qed.

(** The bit-flip loop on a state of length 2^n, for a shift inside the
    register: entry [i] takes the old entry [i xor 2^sh]. *)
Lemma flip_loop_entries (s : vec) (n : nat) (sh : Z) :
  length s = (2 ^ n)%nat -> (0 <= sh < Z.of_nat n)%Z ->
  flip_loop s sh = ret (map (fun i => getitem s (flip_index sh i)) (seq 0 (length s))).
Proof.
  intros Hlen Hsh. unfold flip_loop, indices.
  rewrite (ScenarioFacts.mapM_ret _
             (fun z => getitem s (Z.to_nat (Z.lxor z (Z.shiftl 1 sh))))).
  - rewrite map_map. reflexivity.
  - intros x Hx. apply in_map_iff in Hx as (i & <- & Hi). apply in_seq in Hi.
    unfold shl1. destruct (Z.ltb_spec sh 0); [lia|]. rewrite bind_ret.
    apply ShorFacts.item_in_range. rewrite Hlen.
    pose proof (lxor_pow2_range (Z.of_nat n) sh (Z.of_nat i) Hsh) as Hrange.
    assert (Hp : (2 ^ Z.of_nat n)%Z = Z.of_nat (2 ^ n)).
    { rewrite Nat2Z.inj_pow. reflexivity. }
    rewrite Hp in Hrange. apply Hrange. lia.
Qed.

(** The phase-flip loop, for a non-negative shift: entry [i] changes sign
    when bit [sh] of [i] is set. *)
Definition phase_entry (s : vec) (sh : Z) (i : nat) : C :=
  if (Z.land (Z.shiftr (Z.of_nat i) sh) 1 =? 0)%Z then getitem s i
  else Cmult (getitem s i) (RtoC (-1)).

Lemma phase_loop_entries (s : vec) (sh : Z) :
  (0 <= sh)%Z ->
  phase_loop s sh = ret (map (phase_entry s sh) (seq 0 (length s))).
Proof.
  intros Hsh. unfold phase_loop, indices.
  rewrite (ScenarioFacts.mapM_ret _
             (fun z => if (Z.land (Z.shiftr z sh) 1 =? 0)%Z then getitem s (Z.to_nat z)
                       else Cmult (getitem s (Z.to_nat z)) (RtoC (-1)))).
  - rewrite map_map. f_equal. apply map_ext. intros i. unfold phase_entry.
    rewrite Nat2Z.id. reflexivity.
  - intros x _. unfold shr. destruct (Z.ltb_spec sh 0); [lia|]. reflexivity.
Qed.

Lemma map_getitem_seq (s : vec) : map (getitem s) (seq 0 (length s)) = s.
Proof.
  apply (nth_ext _ _ C0 C0).
  - rewrite length_map, length_seq. reflexivity.
  - intros i Hi. rewrite length_map, length_seq in Hi.
    change (nth i ?l C0) with (getitem l i). rewrite getitem_map_seq by exact Hi.
    reflexivity.
Qed.

(** A sum is unchanged when its index runs through an involution. *)
Lemma Rsum_involution (f : nat -> R) (p : nat -> nat) (N : nat) :
  (forall i, (i < N)%nat -> (p i < N)%nat) ->
  (forall i, (i < N)%nat -> p (p i) = i) ->
  Rsum (fun i => f (p i)) N = Rsum f N.
Proof.
  intros Hlt Hinv.
  transitivity (Rsum (fun i => Rsum (fun j => if (j =? p i)%nat then f j else 0) N) N).
  - apply Rsum_ext. intros i Hi. symmetry.
    rewrite (Rsum_single _ N (p i) (Hlt i Hi)).
    + rewrite Nat.eqb_refl. reflexivity.
    + intros j _ Hne. destruct (Nat.eqb_spec j (p i)); [contradiction | reflexivity].
  - rewrite Rsum_swap. apply Rsum_ext. intros j Hj.
    rewrite (Rsum_single _ N (p j) (Hlt j Hj)).
    + rewrite (Hinv j Hj), Nat.eqb_refl. reflexivity.
    + intros i Hi Hne. destruct (Nat.eqb_spec j (p i)) as [E|_]; [|reflexivity].
      exfalso. apply Hne. rewrite E. symmetry. apply Hinv, Hi.
Qed.

Lemma bit_flip_run (s : vec) (n q : nat) :
  length s = (2 ^ n)%nat -> (q < n)%nat ->
  exists out,
    Service.apply_bit_flip s (Z.of_nat q) = ret out /\
    length out = (2 ^ n)%nat /\
    (forall i, (i < 2 ^ n)%nat ->
       getitem out i = getitem s (flip_index (Z.of_nat n - 1 - Z.of_nat q) i)) /\
    norm2 out = norm2 s.
Proof.
  intros Hlen Hq. unfold Service.apply_bit_flip.
  rewrite (log2_len_pow2 s n Hlen), bind_ret.
  set (sh := (Z.of_nat n - 1 - Z.of_nat q)%Z).
  assert (Hsh : (0 <= sh < Z.of_nat n)%Z) by (unfold sh; lia).
  rewrite (flip_loop_entries s n sh Hlen Hsh).
  eexists. split; [reflexivity|].
  split; [rewrite length_map, length_seq; exact Hlen|]. split.
  - intros i Hi. rewrite getitem_map_seq by (rewrite Hlen; exact Hi). reflexivity.
  - unfold norm2. rewrite length_map, length_seq, Hlen.
    rewrite <- (Rsum_involution (fun i => Cnorm2 (getitem s i)) (flip_index sh) (2 ^ n)).
    + apply Rsum_ext. intros i Hi.
      rewrite getitem_map_seq by exact Hi. reflexivity.
    + intros i Hi. apply flip_index_lt; assumption.
    + intros i Hi. apply (flip_index_involutive n); assumption.
Qed.

Lemma phase_flip_run (s : vec) (n q : nat) :
  length s = (2 ^ n)%nat -> (q < n)%nat ->
  exists out,
    Service.apply_phase_flip s (Z.of_nat q) = ret out /\
    length out = (2 ^ n)%nat /\
    (forall i, (i < 2 ^ n)%nat ->
       getitem out i = phase_entry s (Z.of_nat n - 1 - Z.of_nat q) i) /\
    norm2 out = norm2 s.
Proof.
  intros Hlen Hq. unfold Service.apply_phase_flip.
  rewrite (log2_len_pow2 s n Hlen), bind_ret.
  rewrite phase_loop_entries by lia.
  eexists. split; [reflexivity|].
  split; [rewrite length_map, length_seq; exact Hlen|]. split.
  - intros i Hi. rewrite getitem_map_seq by (rewrite Hlen; exact Hi). reflexivity.
  - unfold norm2. rewrite length_map, length_seq.
    apply Rsum_ext. intros i Hi. rewrite getitem_map_seq by exact Hi.
    unfold phase_entry. destruct (Z.land _ 1 =? 0)%Z; [reflexivity|].
    unfold Cnorm2, Cmult, RtoC. simpl. ring.
Qed.

Lemma shifted_bit (a sh : Z) :
  (0 <= sh)%Z -> Z.land (Z.shiftr a sh) 1 = Z.b2z (Z.testbit a sh).
Proof.
  intros H. change (Z.land (Z.shiftr a sh) 1) with (Z.land (Z.shiftr a sh) (Z.ones 1)).
  rewrite Z.land_ones by lia. change (2 ^ 1)%Z with 2%Z.
  rewrite <- Z.bit0_mod, Z.shiftr_spec by lia. rewrite Z.add_0_l. reflexivity.
Qed.

Lemma vec_ext (u v : vec) (N : nat) :
  length u = N -> length v = N ->
  (forall i, (i < N)%nat -> getitem u i = getitem v i) -> u = v.
Proof.
  intros Hu Hv H. apply (nth_ext _ _ C0 C0); [congruence|].
  intros i Hi. apply H. lia.
Qed.

(** Every error [simulate_errors] can inject succeeds on a 2^n-amplitude
    state when the qubit is inside the register, and keeps the length
    and the squared norm of the state. *)
Lemma apply_error_run (s : vec) (n q : nat) (kind : ErrorType) :
  length s = (2 ^ n)%nat -> (q < n)%nat ->
  exists out,
    Service.apply_error s q kind = ret out /\
    length out = (2 ^ n)%nat /\ norm2 out = norm2 s.
Proof.
  intros Hlen Hq. destruct kind; cbn [Service.apply_error].
  - destruct (bit_flip_run s n q Hlen Hq) as (out & H & Hl & _ & Hn). eauto.
  - destruct (phase_flip_run s n q Hlen Hq) as (out & H & Hl & _ & Hn). eauto.
  - destruct (bit_flip_run s n q Hlen Hq) as (mid & H & Hl & _ & Hn).
    rewrite H, bind_ret.
    destruct (phase_flip_run mid n q Hl Hq) as (out & H' & Hl' & _ & Hn').
    exists out. split; [exact H'|]. split; [exact Hl' | congruence].
  - exists s. auto.
  - exists s. auto.
Qed.

(** A Pauli error on a qubit of the register keeps the length and the
    Euclidean norm of the state, whichever error type is drawn. *)
Theorem pauli_error_preserves_norm (s : vec) (n q : nat) (kind : ErrorType) :
  length s = (2 ^ n)%nat -> (q < n)%nat ->
  exists out,
    Service.apply_error s q kind = ret out /\
    length out = length s /\
    sqrt (norm2 out) = sqrt (norm2 s).
Proof.
  intros Hlen Hq. destruct (apply_error_run s n q kind Hlen Hq) as (out & H & Hl & Hn).
  exists out. split; [exact H|]. split; [congruence|]. rewrite Hn. reflexivity.
Qed.

Lemma pauli_error_preserves_norm_witness :
  exists out,
    Service.apply_error [C0; C1; C0; C0] 1 BOTH = ret out /\
    length out = length [C0; C1; C0; C0] /\
    sqrt (norm2 out) = sqrt (norm2 [C0; C1; C0; C0]).
Proof.
  apply (pauli_error_preserves_norm [C0; C1; C0; C0] 2 1 BOTH).
  - reflexivity.
  - lia.
Defined.

(** Applying the same bit flip, or the same phase flip, twice gives back
    the state.  Applying the combined error BOTH (bit flip, then phase
    flip) twice gives back the state with every amplitude negated. *)
Theorem pauli_error_twice (s : vec) (n q : nat) :
  length s = (2 ^ n)%nat -> (q < n)%nat ->
  (mid <- Service.apply_error s q BIT_FLIP ;; Service.apply_error mid q BIT_FLIP) = ret s /\
  (mid <- Service.apply_error s q PHASE_FLIP ;; Service.apply_error mid q PHASE_FLIP) = ret s /\
  (mid <- Service.apply_error s q BOTH ;; Service.apply_error mid q BOTH)
  = ret (vscale (RtoC (-1)) s).
Proof.
  intros Hlen Hq. cbn [Service.apply_error].
  set (sh := (Z.of_nat n - 1 - Z.of_nat q)%Z).
  assert (Hsh : (0 <= sh < Z.of_nat n)%Z) by (unfold sh; lia).
  assert (Hbit : forall i, (i < 2 ^ n)%nat ->
            (Z.land (Z.shiftr (Z.of_nat (flip_index sh i)) sh) 1 =? 0)%Z
            = negb (Z.land (Z.shiftr (Z.of_nat i) sh) 1 =? 0)%Z).
  { intros i Hi. unfold flip_index.
    pose proof (lxor_pow2_range (Z.of_nat n) sh (Z.of_nat i) Hsh) as H.
    assert (Hp : (2 ^ Z.of_nat n)%Z = Z.of_nat (2 ^ n)).
    { rewrite Nat2Z.inj_pow. reflexivity. }
    rewrite Hp in H. specialize (H ltac:(lia)).
    rewrite Z2Nat.id by lia.
    rewrite !shifted_bit, Z.lxor_spec, Z.shiftl_1_l by lia.
    rewrite Z.pow2_bits_eqb, Z.eqb_refl by lia.
    destruct (Z.testbit (Z.of_nat i) sh); reflexivity. }
  destruct (bit_flip_run s n q Hlen Hq) as (x1 & Hx1 & Lx1 & Ex1 & _).
  destruct (bit_flip_run x1 n q Lx1 Hq) as (x2 & Hx2 & Lx2 & Ex2 & _).
  destruct (phase_flip_run s n q Hlen Hq) as (z1 & Hz1 & Lz1 & Ez1 & _).
  destruct (phase_flip_run z1 n q Lz1 Hq) as (z2 & Hz2 & Lz2 & Ez2 & _).
  destruct (phase_flip_run x1 n q Lx1 Hq) as (y1 & Hy1 & Ly1 & Ey1 & _).
  destruct (bit_flip_run y1 n q Ly1 Hq) as (y2 & Hy2 & Ly2 & Ey2 & _).
  destruct (phase_flip_run y2 n q Ly2 Hq) as (y3 & Hy3 & Ly3 & Ey3 & _).
  fold sh in Ex1, Ex2, Ez1, Ez2, Ey1, Ey2, Ey3.
  split; [|split].
  - rewrite Hx1, bind_ret, Hx2. f_equal. apply (vec_ext _ _ (2 ^ n) Lx2 Hlen).
    intros i Hi. rewrite Ex2, Ex1 by (try apply flip_index_lt; assumption).
    rewrite (flip_index_involutive n) by assumption. reflexivity.
  - rewrite Hz1, bind_ret, Hz2. f_equal. apply (vec_ext _ _ (2 ^ n) Lz2 Hlen).
    intros i Hi. rewrite Ez2 by exact Hi. unfold phase_entry. rewrite Ez1 by exact Hi.
    unfold phase_entry. destruct (Z.land _ 1 =? 0)%Z; [reflexivity|].
    unfold Cmult, RtoC. apply C_eq; simpl; ring.
  - rewrite Hx1, bind_ret, Hy1, bind_ret, Hy2, bind_ret, Hy3. f_equal.
    apply (vec_ext _ _ (2 ^ n) Ly3);
      [unfold vscale; rewrite length_map; exact Hlen|].
    intros i Hi. rewrite getitem_vscale.
    pose proof (flip_index_lt n sh i Hsh Hi) as Hfi.
    rewrite Ey3 by exact Hi. unfold phase_entry. rewrite Ey2 by exact Hi.
    rewrite Ey1 by exact Hfi. unfold phase_entry. rewrite Ex1 by exact Hfi.
    rewrite (flip_index_involutive n) by assumption.
    rewrite (Hbit i Hi).
    destruct (Z.land (Z.shiftr (Z.of_nat i) sh) 1 =? 0)%Z; cbn [negb];
      unfold Cmult, RtoC; apply C_eq; simpl; ring.
Qed.

Lemma pauli_error_twice_witness :
  (mid <- Service.apply_error [C0; C1; C0; C0] 1 BIT_FLIP ;;
   Service.apply_error mid 1 BIT_FLIP) = ret [C0; C1; C0; C0] /\
  (mid <- Service.apply_error [C0; C1; C0; C0] 1 PHASE_FLIP ;;
   Service.apply_error mid 1 PHASE_FLIP) = ret [C0; C1; C0; C0] /\
  (mid <- Service.apply_error [C0; C1; C0; C0] 1 BOTH ;;
   Service.apply_error mid 1 BOTH) = ret (vscale (RtoC (-1)) [C0; C1; C0; C0]).
Proof.
  apply (pauli_error_twice [C0; C1; C0; C0] 2 1).
  - reflexivity.
  - lia.
Defined.

End PauliErrorFacts.

(** ** Results for [simulate_errors] *)

Module NoiseFacts.
Import ErrorCorrection ArrayFacts PauliErrorFacts.
Local Open Scope R_scope.

(** What [simulate_errors] records about an injected error. *)
Definition injected (rate : R) (n : nat) (e : QubitError) : Prop :=
  (qubit_id e < n)%nat /\ probability e = rate /\ corrected e = false /\
  In (error_type e) [BIT_FLIP; PHASE_FLIP; BOTH].

Section WithRandomSource.

Variable RS : random_source.

(** [st'] differs from [st] at most in the state of the generator. *)
Definition only_rng_changed (st st' : Service.state RS) : Prop :=
  Service.error_correctors RS st' = Service.error_correctors RS st /\
  Service.error_history RS st' = Service.error_history RS st /\
  Service.correction_statistics RS st' = Service.correction_statistics RS st.

Lemma error_loop_run (n : nat) (rate : R) (qubits : list nat) :
  List.Forall (fun q => (q < n)%nat) qubits ->
  forall (noisy : vec) (errors : list QubitError) (st : Service.state RS),
    length noisy = (2 ^ n)%nat ->
    exists out errs st',
      Service.error_loop RS qubits rate noisy errors st
        = ret ((out, errors ++ errs), st') /\
      length out = (2 ^ n)%nat /\ norm2 out = norm2 noisy /\
      only_rng_changed st st' /\
      (length errs <= length qubits)%nat /\
      List.Forall (injected rate n) errs /\
      (rate <= 0 -> errs = [] /\ out = noisy) /\
      (1 <= rate -> map qubit_id errs = qubits).
Proof.
  induction 1 as [|q qubits Hq Hall IH]; intros noisy errors st Hlen.
  - exists noisy, [], st. rewrite app_nil_r. split; [reflexivity|].
    split; [exact Hlen|]. split; [reflexivity|]. split; [repeat split|].
    split; [simpl; lia|]. split; [constructor|]. split; auto.
  - cbn [Service.error_loop]. unfold Service.sbind at 1. unfold Service.draw_random.
    destruct (random RS (Service.rng RS st)) as [u g]. rewrite bind_ret.
    cbn [fst snd]. pose proof (draw_range u) as Hu.
    destruct (Rlt_dec (draw_value u) rate) as [Hlt | Hge].
    + unfold Service.sbind at 1. unfold Service.draw_error_type.
      cbn [Service.rng].
      destruct (choice RS 3 g) as [k g']. rewrite bind_ret.
      cbn [fst snd Service.error_correctors Service.error_history
           Service.correction_statistics].
      set (kind := nth (k mod 3) [BIT_FLIP; PHASE_FLIP; BOTH] BIT_FLIP).
      assert (Hkind : In kind [BIT_FLIP; PHASE_FLIP; BOTH]).
      { apply nth_In. cbn [length]. apply Nat.mod_upper_bound. lia. }
      unfold Service.sbind at 1. unfold Service.lift at 1.
      destruct (apply_error_run noisy n q kind Hlen Hq) as (mid & Hmid & Hl & Hn).
      rewrite Hmid, !bind_ret. cbn [fst snd].
      set (e := {| qubit_id := q; error_type := kind; probability := rate;
                   corrected := false |}).
      destruct (IH mid (errors ++ [e])
                  {| Service.rng := g';
                     Service.error_correctors := Service.error_correctors RS st;
                     Service.error_history := Service.error_history RS st;
                     Service.correction_statistics := Service.correction_statistics RS st |}
                  Hl)
        as (out & errs & st' & Hrun & Hlo & Hno & Honly & Hcount & Hinj & _ & Hsat).
      exists out, (e :: errs), st'.
      split; [rewrite Hrun, <- app_assoc; reflexivity|].
      split; [exact Hlo|]. split; [congruence|]. split; [exact Honly|].
      split; [simpl; lia|]. split.
      * constructor; [|exact Hinj]. repeat split; assumption.
      * split; [intros Hr; lra|]. intros Hr. cbn [map qubit_id e]. f_equal. apply Hsat, Hr.
    + destruct (IH noisy errors
                  {| Service.rng := g;
                     Service.error_correctors := Service.error_correctors RS st;
                     Service.error_history := Service.error_history RS st;
                     Service.correction_statistics := Service.correction_statistics RS st |}
                  Hlen)
        as (out & errs & st' & Hrun & Hlo & Hno & Honly & Hcount & Hinj & Hquiet & _).
      exists out, errs, st'. split; [exact Hrun|]. split; [exact Hlo|].
      split; [exact Hno|]. split; [exact Honly|]. split; [simpl; lia|].
      split; [exact Hinj|]. split; [exact Hquiet|]. intros Hr. lra.
Qed.

Lemma simulate_errors_run (s : vec) (n : nat) (rate : R) (st : Service.state RS) :
  length s = (2 ^ n)%nat ->
  exists out errs st',
    Service.simulate_errors RS s rate st = ret ((out, errs), st') /\
    length out = (2 ^ n)%nat /\ norm2 out = norm2 s /\
    Service.error_history RS st' = Service.error_history RS st ++ errs /\
    Service.error_correctors RS st' = Service.error_correctors RS st /\
    Service.correction_statistics RS st' = Service.correction_statistics RS st /\
    (length errs <= n)%nat /\
    List.Forall (injected rate n) errs /\
    (rate <= 0 -> errs = [] /\ out = s) /\
    (1 <= rate -> map qubit_id errs = seq 0 n).
Proof.
  intros Hlen. unfold Service.simulate_errors.
  unfold Service.sbind at 1. unfold Service.lift at 1.
  rewrite (log2_len_pow2 s n Hlen), !bind_ret. cbn [fst snd]. rewrite Nat2Z.id.
  unfold Service.sbind at 1.
  destruct (error_loop_run n rate (seq 0 n)) with (noisy := copy s) (errors := @nil QubitError)
                                                   (st := st)
    as (out & errs & st' & Hrun & Hlo & Hno & (Hc & Hh & Hs) & Hcount & Hinj & Hquiet & Hsat).
  - apply List.Forall_forall. intros q Hq. apply in_seq in Hq. lia.
  - rewrite copy_id. exact Hlen.
  - rewrite Hrun, bind_ret. cbn [fst snd app].
    eexists out, errs, _. split; [reflexivity|]. cbn.
    rewrite copy_id in Hno, Hquiet. rewrite length_seq in Hcount.
    split; [exact Hlo|]. split; [exact Hno|]. split; [rewrite Hh; reflexivity|].
    split; [exact Hc|]. split; [exact Hs|]. split; [exact Hcount|].
    split; [exact Hinj|]. split; assumption.
Qed.

End WithRandomSource.

(** [simulate_errors] on a state of 2^n amplitudes never raises, whatever
    the error rate and the random draws.  It keeps the length and the
    Euclidean norm of the state, injects at most n errors, each on a
    qubit below n with the given rate as its probability and a type among
    BIT_FLIP, PHASE_FLIP and BOTH, appends exactly the returned errors to
    [error_history], and changes neither the registered correctors nor
    the correction statistics. *)
Theorem simulate_errors_invariants (RS : random_source) (s : vec) (n : nat) (rate : R)
    (st : Service.state RS) :
  length s = (2 ^ n)%nat ->
  exists out errs st',
    Service.simulate_errors RS s rate st = ret ((out, errs), st') /\
    length out = length s /\
    sqrt (norm2 out) = sqrt (norm2 s) /\
    Service.error_history RS st' = Service.error_history RS st ++ errs /\
    Service.error_correctors RS st' = Service.error_correctors RS st /\
    Service.correction_statistics RS st' = Service.correction_statistics RS st /\
    (length errs <= n)%nat /\
    List.Forall (injected rate n) errs.
Proof.
  intros Hlen.
  destruct (simulate_errors_run RS s n rate st Hlen)
    as (out & errs & st' & Hrun & Hlo & Hno & Hh & Hc & Hs & Hcount & Hinj & _).
  exists out, errs, st'. split; [exact Hrun|]. split; [congruence|].
  split; [rewrite Hno; reflexivity|]. repeat (split; [assumption|]). exact Hinj.
Qed.

Lemma simulate_errors_invariants_witness :
  exists out errs st',
    Service.simulate_errors CycleFacts.half_source [C0; C1; C0; C0] (3 / 4)
      (Service.init CycleFacts.half_source 0%nat) = ret ((out, errs), st') /\
    length out = length [C0; C1; C0; C0] /\
    sqrt (norm2 out) = sqrt (norm2 [C0; C1; C0; C0]) /\
    Service.error_history CycleFacts.half_source st'
    = Service.error_history CycleFacts.half_source
        (Service.init CycleFacts.half_source 0%nat) ++ errs /\
    Service.error_correctors CycleFacts.half_source st'
    = Service.error_correctors CycleFacts.half_source
        (Service.init CycleFacts.half_source 0%nat) /\
    Service.correction_statistics CycleFacts.half_source st'
    = Service.correction_statistics CycleFacts.half_source
        (Service.init CycleFacts.half_source 0%nat) /\
    (length errs <= 2)%nat /\
    List.Forall (injected (3 / 4) 2) errs.
Proof.
  apply (simulate_errors_invariants CycleFacts.half_source [C0; C1; C0; C0] 2 (3 / 4)
           (Service.init CycleFacts.half_source 0%nat)).
  reflexivity.
Defined.

(** With an error rate of 0 or less no draw of [random()] is below the
    rate: [simulate_errors] returns the state unchanged with an empty
    error list, and [error_history] stays as it was. *)
Theorem simulate_errors_rate_zero (RS : random_source) (s : vec) (n : nat)
    (rate : R) (st : Service.state RS) :
  length s = (2 ^ n)%nat -> rate <= 0 ->
  exists st',
    Service.simulate_errors RS s rate st = ret ((s, []), st') /\
    Service.error_history RS st' = Service.error_history RS st.
Proof.
  intros Hlen Hr.
  destruct (simulate_errors_run RS s n rate st Hlen)
    as (out & errs & st' & Hrun & _ & _ & Hh & _ & _ & _ & _ & Hquiet & _).
  destruct (Hquiet Hr) as [-> ->]. rewrite app_nil_r in Hh.
  exists st'. split; assumption.
Qed.

Lemma simulate_errors_rate_zero_witness :
  exists st',
    Service.simulate_errors CycleFacts.half_source [C0; C1; C0; C0] 0
      (Service.init CycleFacts.half_source 0%nat) = ret (([C0; C1; C0; C0], []), st') /\
    Service.error_history CycleFacts.half_source st'
    = Service.error_history CycleFacts.half_source
        (Service.init CycleFacts.half_source 0%nat).
Proof.
  apply (simulate_errors_rate_zero CycleFacts.half_source [C0; C1; C0; C0] 2 0
           (Service.init CycleFacts.half_source 0%nat)).
  - reflexivity.
  - lra.
Defined.

(** With an error rate of 1 or more every draw of [random()] is below
    the rate: every qubit 0 .. n-1 gets exactly one error, in order. *)
Theorem simulate_errors_rate_one (RS : random_source) (s : vec) (n : nat)
    (rate : R) (st : Service.state RS) :
  length s = (2 ^ n)%nat -> 1 <= rate ->
  exists out errs st',
    Service.simulate_errors RS s rate st = ret ((out, errs), st') /\
    map qubit_id errs = seq 0 n /\
    length errs = n.
Proof.
  intros Hlen Hr.
  destruct (simulate_errors_run RS s n rate st Hlen)
    as (out & errs & st' & Hrun & _ & _ & _ & _ & _ & _ & _ & _ & Hsat).
  exists out, errs, st'. split; [exact Hrun|]. split; [apply Hsat, Hr|].
  rewrite <- (length_map qubit_id), (Hsat Hr). apply length_seq.
Qed.

Lemma simulate_errors_rate_one_witness :
  exists out errs st',
    Service.simulate_errors CycleFacts.half_source [C0; C1; C0; C0] 1
      (Service.init CycleFacts.half_source 0%nat) = ret ((out, errs), st') /\
    map qubit_id errs = seq 0 2 /\
    length errs = 2%nat.
Proof.
  apply (simulate_errors_rate_one CycleFacts.half_source [C0; C1; C0; C0] 2 1
           (Service.init CycleFacts.half_source 0%nat)).
  - reflexivity.
  - lra.
Defined.

End NoiseFacts.

(** ** Results for the Steane-7 corrector as a whole *)

Module CorrectionFacts.
Import ErrorCorrection ArrayFacts DecodeFacts RoundTripFacts PauliFacts.
Import ScenarioFacts CycleFacts SyndromeTableFacts PauliErrorFacts.
Local Open Scope R_scope.

Definition codewords : list nat := Steane.zero_codewords ++ Steane.one_codewords.

Lemma NoDup_codewords : List.NoDup codewords.
Proof.
  unfold codewords, Steane.zero_codewords, Steane.one_codewords. cbn [app].
  repeat (constructor; [simpl; intuition discriminate|]). constructor.
Qed.

Lemma codewords_lt : forall i, In i codewords -> (i < 2 ^ 7)%nat.
Proof. apply List.Forall_forall. exact codewords_lt_128. Qed.

(** *** [encode] *)

(** [SteaneCodeCorrector.encode] keeps the squared norm: the 128
    amplitudes it returns have squared moduli adding up to
    |alpha|^2 + |beta|^2, so a unit logical state is encoded as a unit
    physical state. *)
Theorem steane_encode_keeps_norm (alpha beta : C) :
  exists physical,
    Steane.encode [alpha; beta] = ret physical /\
    length physical = (2 ^ 7)%nat /\
    norm2 physical = Cnorm2 alpha + Cnorm2 beta.
Proof.
  destruct (steane_encode_spec alpha beta) as (v & Henc & Hlen & Hget).
  exists v. split; [exact Henc|]. split; [exact Hlen|].
  unfold norm2. rewrite Hlen.
  rewrite (Rsum_support _ _ codewords NoDup_codewords codewords_lt).
  - unfold codewords, Steane.zero_codewords, Steane.one_codewords.
    cbn [app map fold_right]. rewrite !Hget. cbn [mem existsb Nat.eqb orb].
    rewrite !Cnorm2_scaled_amp, !Cnorm2_amp_scaled. field.
  - intros i _ Hnin. rewrite Hget.
    destruct (mem i Steane.zero_codewords) eqn:Ez.
    { exfalso. apply Hnin, in_or_app. left. apply mem_In, Ez. }
    destruct (mem i Steane.one_codewords) eqn:Eo.
    { exfalso. apply Hnin, in_or_app. right. apply mem_In, Eo. }
    unfold Cnorm2, Cplus, Cmult, C0. simpl. ring.
Qed.

(** *** [correct_errors] *)

Lemma table_lookup_cases (key : list nat) (kind : string) (q : Z) :
  Steane.syndrome_table !! key = Some (kind, q) ->
  (kind = "I"%string /\ q = (-1)%Z) \/ (kind = "Z"%string /\ (0 <= q <= 6)%Z).
Proof.
  rewrite syndrome_table_contents. intros Hk. apply elem_of_list_to_map_2 in Hk.
  repeat (apply elem_of_cons in Hk as [Hk | Hk];
          [inversion Hk; subst; first [left; split; reflexivity | right; split; [reflexivity | lia]]|]).
  inversion Hk.
Qed.

(** Whatever the syndrome, [correct_errors] returns the state itself or
    the state after one phase flip: it never applies a bit flip. *)
Lemma correct_errors_cases (s : vec) (syn : SyndromeResult) :
  length s = (2 ^ 7)%nat ->
  exists out,
    Steane.correct_errors s syn = ret out /\
    (out = s \/ exists q, (0 <= q <= 6)%Z /\ phase_loop s (6 - q) = ret out).
Proof.
  intros Hlen. unfold Steane.correct_errors. rewrite copy_id.
  assert (Hx : match Steane.syndrome_table !! take 3 (syndrome syn) with
               | Some (error_type, qubit) =>
                   if (String.eqb error_type "X" && (qubit >=? 0)%Z)%bool
                   then Steane.apply_pauli_correction s qubit "X"
                   else ret s
               | None => ret s
               end = ret s).
  { destruct (Steane.syndrome_table !! take 3 (syndrome syn)) as [[kind q]|] eqn:E;
      [|reflexivity].
    destruct (table_lookup_cases _ _ _ E) as [[-> _] | [-> _]]; reflexivity. }
  rewrite Hx, bind_ret.
  destruct (Steane.syndrome_table !! drop 3 (syndrome syn)) as [[kind q]|] eqn:E.
  - destruct (table_lookup_cases _ _ _ E) as [[-> ->] | [-> Hq]].
    + exists s. split; [reflexivity | left; reflexivity].
    + change (String.eqb "Z" "Z") with true. cbn [andb].
      destruct (Z.geb_spec q 0) as [_|]; [|lia].
      unfold Steane.apply_pauli_correction. rewrite (log2_len_128 s Hlen), bind_ret.
      change (String.eqb "Z" "X") with false. cbv iota.
      replace (7 - 1 - q)%Z with (6 - q)%Z by lia.
      destruct (phase_loop_spec s (6 - q) ltac:(lia)) as (out & Hout & _).
      exists out. split; [exact Hout|]. right. exists q. split; assumption.
  - exists s. split; [reflexivity | left; reflexivity].
Qed.

Lemma correct_errors_moduli (s : vec) (syn : SyndromeResult) :
  length s = (2 ^ 7)%nat ->
  exists out,
    Steane.correct_errors s syn = ret out /\
    length out = (2 ^ 7)%nat /\
    forall i, Cnorm2 (getitem out i) = Cnorm2 (getitem s i).
Proof.
  intros Hlen. destruct (correct_errors_cases s syn Hlen) as (out & Hout & Hcase).
  exists out. split; [exact Hout|].
  destruct Hcase as [-> | (q & Hq & Hphase)]; [split; [exact Hlen | reflexivity]|].
  destruct (phase_loop_spec s (6 - q) ltac:(lia)) as (out' & Hout' & Hl & Hm).
  rewrite Hphase in Hout'. injection Hout' as <-. split; [congruence | exact Hm].
Qed.

(** [decode] only reads the moduli of the amplitudes. *)
Lemma decode_moduli (s s' : vec) :
  length s = (2 ^ 7)%nat -> length s' = (2 ^ 7)%nat ->
  (forall i, Cnorm2 (getitem s' i) = Cnorm2 (getitem s i)) ->
  Steane.decode s' = Steane.decode s.
Proof.
  intros Hlen Hlen' Hm.
  destruct (steane_decode_normalise s Hlen) as (e0 & e1 & He0 & He1 & ->).
  destruct (steane_decode_normalise s' Hlen') as (f0 & f1 & Hf0 & Hf1 & ->).
  destruct (steane_projection s 0 Hlen) as (a0 & Ha0 & HR0).
  destruct (steane_projection s 1 Hlen) as (a1 & Ha1 & HR1).
  destruct (steane_projection s' 0 Hlen') as (b0 & Hb0 & HS0).
  destruct (steane_projection s' 1 Hlen') as (b1 & Hb1 & HS1).
  rewrite He0 in Ha0. injection Ha0 as <-. rewrite He1 in Ha1. injection Ha1 as <-.
  rewrite Hf0 in Hb0. injection Hb0 as <-. rewrite Hf1 in Hb1. injection Hb1 as <-.
  rewrite HR0, HR1, HS0, HS1. do 2 f_equal.
  - f_equal. apply map_ext. intros i. rewrite Hm. reflexivity.
  - f_equal. apply map_ext. intros i. rewrite Hm. reflexivity.
Qed.

(** For every 128-amplitude state and every syndrome, [correct_errors]
    succeeds and leaves the modulus of every amplitude unchanged (it can
    only apply a phase flip, never a bit flip), so [decode] returns the
    same logical state after the correction as before it. *)
Theorem steane_correction_invisible_to_decode (s : vec) (syn : SyndromeResult) :
  length s = (2 ^ 7)%nat ->
  exists out,
    Steane.correct_errors s syn = ret out /\
    length out = (2 ^ 7)%nat /\
    (forall i, Cmod (getitem out i) = Cmod (getitem s i)) /\
    Steane.decode out = Steane.decode s.
Proof.
  intros Hlen. destruct (correct_errors_moduli s syn Hlen) as (out & Hout & Hl & Hm).
  exists out. split; [exact Hout|]. split; [exact Hl|]. split.
  - intros i. unfold Cmod. rewrite Hm. reflexivity.
  - apply decode_moduli; assumption.
Qed.

Lemma steane_correction_invisible_to_decode_witness :
  exists out,
    Steane.correct_errors (Steane.codeword_state Steane.zero_codewords)
      (mkSyndromeResult [0; 0; 0; 0; 1; 1]%nat (seq 0 7) (95 / 100)) = ret out /\
    length out = (2 ^ 7)%nat /\
    (forall i, Cmod (getitem out i)
               = Cmod (getitem (Steane.codeword_state Steane.zero_codewords) i)) /\
    Steane.decode out = Steane.decode (Steane.codeword_state Steane.zero_codewords).
Proof.
  apply (steane_correction_invisible_to_decode
           (Steane.codeword_state Steane.zero_codewords)
           (mkSyndromeResult [0; 0; 0; 0; 1; 1]%nat (seq 0 7) (95 / 100))).
  reflexivity.
Defined.

(** *** Bit flips *)

Lemma flipped_codewords_dark :
  forallb (fun q =>
     forallb (fun cw => negb (mem (flip_index (Z.of_nat 7 - 1 - Z.of_nat q) cw) codewords))
             codewords)
    (seq 0 7) = true.
Proof. vm_compute. reflexivity. Qed.

(** A single bit flip is never repaired: for every logical state, every
    qubit of the block and every syndrome handed to [correct_errors],
    the corrected state has no weight on any codeword and [decode] falls
    back to (1, 0). *)
Theorem steane_bit_flip_decodes_to_zero (alpha beta : C) (q : nat)
    (syn : SyndromeResult) :
  (q < 7)%nat ->
  exists encoded flipped corrected,
    Steane.encode [alpha; beta] = ret encoded /\
    Service.apply_bit_flip encoded (Z.of_nat q) = ret flipped /\
    Steane.correct_errors flipped syn = ret corrected /\
    Steane.decode corrected = ret [C1; C0].
Proof.
  intros Hq.
  destruct (steane_encode_spec alpha beta) as (v & Henc & Hlen & Hget).
  destruct (bit_flip_run v 7 q Hlen Hq) as (flipped & Hflip & Hlf & Hentries & _).
  destruct (correct_errors_moduli flipped syn Hlf) as (out & Hout & Hlo & Hm).
  exists v, flipped, out. repeat (split; [assumption|]).
  apply decode_no_codeword_weight; [exact Hlo|].
  intros cw Hcw. change (In cw codewords) in Hcw.
  rewrite Hm, Hentries by (apply codewords_lt, Hcw). rewrite Hget.
  pose proof flipped_codewords_dark as Hdark.
  rewrite forallb_forall in Hdark. specialize (Hdark q ltac:(apply in_seq; lia)).
  rewrite forallb_forall in Hdark. specialize (Hdark cw Hcw).
  apply negb_true_iff in Hdark.
  set (j := flip_index (Z.of_nat 7 - 1 - Z.of_nat q) cw) in *.
  assert (Hz : mem j Steane.zero_codewords = false).
  { destruct (mem j Steane.zero_codewords) eqn:E; [|reflexivity].
    apply mem_In in E. assert (Hin : In j codewords) by (apply in_or_app; auto).
    apply mem_In in Hin. congruence. }
  assert (Ho : mem j Steane.one_codewords = false).
  { destruct (mem j Steane.one_codewords) eqn:E; [|reflexivity].
    apply mem_In in E. assert (Hin : In j codewords) by (apply in_or_app; auto).
    apply mem_In in Hin. congruence. }
  rewrite Hz, Ho. unfold Cnorm2, Cplus, Cmult, C0. simpl. ring.
Qed.

Lemma steane_bit_flip_decodes_to_zero_witness :
  exists encoded flipped corrected,
    Steane.encode [C0; C1] = ret encoded /\
    Service.apply_bit_flip encoded (Z.of_nat 3) = ret flipped /\
    Steane.correct_errors flipped
      (mkSyndromeResult [0; 0; 0; 1; 0; 0]%nat (seq 0 7) (95 / 100)) = ret corrected /\
    Steane.decode corrected = ret [C1; C0].
Proof.
  apply (steane_bit_flip_decodes_to_zero C0 C1 3
           (mkSyndromeResult [0; 0; 0; 1; 0; 0]%nat (seq 0 7) (95 / 100))).
  lia.
Defined.

(** *** [measure_syndrome] *)

Lemma syndrome_bit_binary (m : R) : syndrome_bit m = 0%nat \/ syndrome_bit m = 1%nat.
Proof. unfold syndrome_bit. destruct (Rlt_dec m 0); auto. Qed.

Lemma measure_defined (s : vec) (bits : list nat) (pauli_type : string) :
  length s = (2 ^ length bits)%nat ->
  exists m, measure_pauli_operator s bits pauli_type = ret m.
Proof.
  intros H. rewrite (measure_pauli_operator_spec s bits pauli_type H). eauto.
Qed.

(** On a state of 128 amplitudes [measure_syndrome] never raises: it
    returns six bits, each 0 or 1 (the three X checks followed by the
    three Z checks), over the measured qubits 0 .. 6. *)
Theorem steane_measure_syndrome_shape (s : vec) :
  length s = (2 ^ 7)%nat ->
  exists syn,
    Steane.measure_syndrome s = ret syn /\
    length (syndrome syn) = 6%nat /\
    List.Forall (fun b => b = 0%nat \/ b = 1%nat) (syndrome syn) /\
    measured_qubits syn = seq 0 7.
Proof.
  intros Hlen. unfold Steane.measure_syndrome, Steane.x_stabilizers, Steane.z_stabilizers.
  cbn [mapM].
  repeat match goal with
  | |- context [measure_pauli_operator s ?bits ?pt] =>
      let m := fresh "m" in let Hm := fresh "Hm" in
      destruct (measure_defined s bits pt Hlen) as [m Hm]; rewrite Hm
  end.
  rewrite !bind_ret. eexists. split; [reflexivity|]. cbn [syndrome measured_qubits app].
  split; [reflexivity|]. split; [|reflexivity].
  repeat (constructor; [apply syndrome_bit_binary|]). constructor.
Qed.

Lemma steane_measure_syndrome_shape_witness :
  exists syn,
    Steane.measure_syndrome (Steane.codeword_state Steane.one_codewords) = ret syn /\
    length (syndrome syn) = 6%nat /\
    List.Forall (fun b => b = 0%nat \/ b = 1%nat) (syndrome syn) /\
    measured_qubits syn = seq 0 7.
Proof.
  apply (steane_measure_syndrome_shape (Steane.codeword_state Steane.one_codewords)).
  reflexivity.
Defined.

Lemma sandwich_wrong_length (s : vec) (M : matrix) :
  length s <> nrows M -> sandwich s M = raise (ValueError "matmul: dimension mismatch").
Proof.
  intros H. unfold sandwich, vecmat, vconj. rewrite length_map.
  destruct (decide (length s = nrows M)); [contradiction | reflexivity].
Qed.

(** A physical state whose length is not 128 is rejected: both [decode]
    and [measure_syndrome] raise the ValueError of the matrix product. *)
Theorem steane_wrong_length (s : vec) :
  length s <> (2 ^ 7)%nat ->
  Steane.decode s = raise (ValueError "matmul: dimension mismatch") /\
  Steane.measure_syndrome s = raise (ValueError "matmul: dimension mismatch").
Proof.
  intros Hlen. split.
  - unfold Steane.decode. rewrite sandwich_wrong_length; [reflexivity|].
    rewrite (proj1 (steane_projector_shape 0)). exact Hlen.
  - unfold Steane.measure_syndrome, Steane.x_stabilizers. cbn [mapM].
    unfold measure_pauli_operator at 1. rewrite sandwich_wrong_length; [reflexivity|].
    pose proof (build_operator_monomial [1; 1; 1; 1; 0; 0; 0]%nat "X") as (Hr & _).
    rewrite Hr. exact Hlen.
Qed.

Lemma steane_wrong_length_witness :
  Steane.decode [C1; C0] = raise (ValueError "matmul: dimension mismatch") /\
  Steane.measure_syndrome [C1; C0] = raise (ValueError "matmul: dimension mismatch").
Proof.
  apply (steane_wrong_length [C1; C0]). simpl. lia.
Defined.

(** *** The syndrome of an encoded state *)

(** Signed count of the indices of [T] that a Pauli string maps into [S]. *)
Definition cross_overlap (is_x : bool) (bits S T : list nat) : Z :=
  fold_right Z.add 0%Z
    (map (fun j => if mem (pauli_perm is_x bits j) S
                   then (if pauli_sign is_x bits j then -1 else 1)%Z else 0%Z) T).

Lemma overlap_sum (is_x : bool) (bits S T : list nat) :
  List.NoDup T -> (forall i, In i T -> (i < 2 ^ 7)%nat) ->
  Rsum (fun j => Re (Cmult (Cmult (Cconj (indicator S (pauli_perm is_x bits j)))
                                  (sign_value (pauli_sign is_x bits j)))
                           (indicator T j)))
       (2 ^ 7)
  = IZR (cross_overlap is_x bits S T) / 8.
Proof.
  intros Hnd Hlt. rewrite (Rsum_support _ _ T Hnd Hlt).
  - unfold cross_overlap. apply fold_right_eighths. intros j Hj.
    unfold indicator. apply mem_In in Hj. rewrite Hj.
    pose proof amp_sq as Ha.
    destruct (mem (pauli_perm is_x bits j) S), (pauli_sign is_x bits j);
      unfold sign_value, Cmult, Cconj, RtoC, C0, C1, Re; simpl fst; simpl snd.
    + transitivity (- (amp * amp)); [ring | rewrite Ha; field].
    + transitivity (amp * amp); [ring | rewrite Ha; field].
    + field.
    + field.
  - intros j Hj Hnin. unfold indicator at 2.
    destruct (mem j T) eqn:E; [apply mem_In in E; contradiction|].
    rewrite Cmult_0_r. reflexivity.
Qed.

Definition encoded_entry (alpha beta : C) (i : nat) : C :=
  Cplus (Cmult alpha (indicator Steane.zero_codewords i))
        (Cmult beta (indicator Steane.one_codewords i)).

Lemma encoded_term (alpha beta : C) (sg : bool) (i j : nat) :
  Re (Cmult (Cmult (Cconj (encoded_entry alpha beta i)) (sign_value sg))
            (encoded_entry alpha beta j))
  = Cnorm2 alpha
    * Re (Cmult (Cmult (Cconj (indicator Steane.zero_codewords i)) (sign_value sg))
                (indicator Steane.zero_codewords j))
    + (Cnorm2 beta
       * Re (Cmult (Cmult (Cconj (indicator Steane.one_codewords i)) (sign_value sg))
                   (indicator Steane.one_codewords j))
       + ((Re alpha * Re beta + Im alpha * Im beta)
          * Re (Cmult (Cmult (Cconj (indicator Steane.zero_codewords i)) (sign_value sg))
                      (indicator Steane.one_codewords j))
          + (Re alpha * Re beta + Im alpha * Im beta)
            * Re (Cmult (Cmult (Cconj (indicator Steane.one_codewords i)) (sign_value sg))
                        (indicator Steane.zero_codewords j)))).
Proof.
  unfold encoded_entry, indicator.
  destruct alpha as [a1 a2], beta as [b1 b2].
  destruct (mem i Steane.zero_codewords), (mem i Steane.one_codewords),
           (mem j Steane.zero_codewords), (mem j Steane.one_codewords), sg;
    unfold sign_value, Cnorm2, Cmult, Cplus, Cconj, RtoC, C0, C1, Re, Im;
    cbn [fst snd]; ring.
Qed.

(** The expectation value of a Pauli string on an encoded state. *)
Lemma measure_encoded (s : vec) (alpha beta : C) (bits : list nat) (pauli_type : string) :
  length s = (2 ^ 7)%nat -> length bits = 7%nat ->
  (forall i, getitem s i = encoded_entry alpha beta i) ->
  let is_x := String.eqb pauli_type "X" in
  let zc := Steane.zero_codewords in
  let oc := Steane.one_codewords in
  measure_pauli_operator s bits pauli_type
  = ret (Cnorm2 alpha * (IZR (cross_overlap is_x bits zc zc) / 8)
         + (Cnorm2 beta * (IZR (cross_overlap is_x bits oc oc) / 8)
            + ((Re alpha * Re beta + Im alpha * Im beta)
               * (IZR (cross_overlap is_x bits zc oc) / 8)
               + (Re alpha * Re beta + Im alpha * Im beta)
                 * (IZR (cross_overlap is_x bits oc zc) / 8)))).
Proof.
  intros Hlen Hbits Hget is_x zc oc.
  rewrite measure_pauli_operator_spec by (rewrite Hbits; exact Hlen).
  f_equal. rewrite Hlen. fold is_x.
  pose proof zero_codewords_lt as Hz. rewrite List.Forall_forall in Hz.
  assert (Ho : forall i, In i oc -> (i < 2 ^ 7)%nat).
  { intros i Hi. apply codewords_lt, in_or_app. right. exact Hi. }
  rewrite <- (overlap_sum is_x bits zc zc NoDup_zero_codewords Hz).
  rewrite <- (overlap_sum is_x bits oc oc NoDup_one_codewords Ho).
  rewrite <- (overlap_sum is_x bits zc oc NoDup_one_codewords Ho).
  rewrite <- (overlap_sum is_x bits oc zc NoDup_zero_codewords Hz).
  rewrite <- !Rsum_scale, <- !Rsum_plus.
  apply Rsum_ext. intros j _. rewrite !Hget. apply encoded_term.
Qed.

(** The six checks of the Steane code, with the Pauli type of each. *)
Definition checks : list (bool * list nat) :=
  map (pair true) Steane.x_stabilizers ++ map (pair false) Steane.z_stabilizers.

Lemma checks_on_code_space :
  forallb (fun '(is_x, bits) =>
             let zc := Steane.zero_codewords in
             let oc := Steane.one_codewords in
             ((0 <=? cross_overlap is_x bits zc zc) &&
              (0 <=? cross_overlap is_x bits oc oc) &&
              (cross_overlap is_x bits zc oc =? 0) &&
              (cross_overlap is_x bits oc zc =? 0))%Z)
          checks = true.
Proof. vm_compute. reflexivity. Qed.

Lemma encoded_check_bit (s : vec) (alpha beta : C) (bits : list nat) (pauli_type : string) :
  length s = (2 ^ 7)%nat ->
  (forall i, getitem s i = encoded_entry alpha beta i) ->
  In (String.eqb pauli_type "X", bits) checks ->
  (m <- measure_pauli_operator s bits pauli_type ;; ret (syndrome_bit m)) = ret 0%nat.
Proof.
  intros Hlen Hget Hin.
  assert (Hbits : length bits = 7%nat).
  { unfold checks, Steane.x_stabilizers, Steane.z_stabilizers in Hin. cbn [map app] in Hin.
    repeat (destruct Hin as [Hin | Hin]; [injection Hin as _ <-; reflexivity|]).
    destruct Hin. }
  rewrite (measure_encoded s alpha beta bits pauli_type Hlen Hbits Hget), bind_ret.
  pose proof checks_on_code_space as Hall. rewrite forallb_forall in Hall.
  specialize (Hall _ Hin). cbv zeta in Hall.
  apply andb_true_iff in Hall as [Hall Hxz]. apply andb_true_iff in Hall as [Hall Hzx].
  apply andb_true_iff in Hall as [Ha Hb].
  apply Z.leb_le, IZR_le in Ha. apply Z.leb_le, IZR_le in Hb.
  apply Z.eqb_eq in Hzx, Hxz. rewrite Hzx, Hxz.
  pose proof (Cnorm2_nonneg alpha) as Hna. pose proof (Cnorm2_nonneg beta) as Hnb.
  f_equal. unfold syndrome_bit.
  set (A := IZR (cross_overlap _ bits Steane.zero_codewords Steane.zero_codewords)) in *.
  set (B := IZR (cross_overlap _ bits Steane.one_codewords Steane.one_codewords)) in *.
  destruct (Rlt_dec _ 0) as [Hneg|_]; [|reflexivity].
  exfalso. assert (0 <= Cnorm2 alpha * (A / 8)) by (apply Rmult_le_pos; lra).
  assert (0 <= Cnorm2 beta * (B / 8)) by (apply Rmult_le_pos; lra).
  lra.
Qed.

Lemma encoded_syndrome (s : vec) (alpha beta : C) :
  length s = (2 ^ 7)%nat ->
  (forall i, getitem s i = encoded_entry alpha beta i) ->
  Steane.measure_syndrome s
  = ret (mkSyndromeResult [0; 0; 0; 0; 0; 0]%nat (seq 0 7) (95 / 100)).
Proof.
  intros Hlen Hget. unfold Steane.measure_syndrome.
  unfold Steane.x_stabilizers, Steane.z_stabilizers. cbn [mapM].
  rewrite !(encoded_check_bit s alpha beta _ _ Hlen Hget)
    by (unfold checks, Steane.x_stabilizers, Steane.z_stabilizers; cbn; tauto).
  rewrite !bind_ret. reflexivity.
Qed.

(** Every freshly encoded state, whatever the two logical amplitudes,
    measures the all-zero syndrome: the six checks all have a
    non-negative expectation value on the code space. *)
Theorem steane_encoded_syndrome_trivial (alpha beta : C) :
  exists encoded,
    Steane.encode [alpha; beta] = ret encoded /\
    Steane.measure_syndrome encoded
    = ret (mkSyndromeResult [0; 0; 0; 0; 0; 0]%nat (seq 0 7) (95 / 100)) /\
    Steane.correct_errors encoded
      (mkSyndromeResult [0; 0; 0; 0; 0; 0]%nat (seq 0 7) (95 / 100)) = ret encoded.
Proof.
  destruct (steane_encode_spec alpha beta) as (v & Henc & Hlen & Hget).
  exists v. split; [exact Henc|]. split.
  - apply (encoded_syndrome v alpha beta Hlen). exact Hget.
  - apply correct_errors_trivial.
Qed.

(** *** Cycles without noise *)

Section NoiseFree.

Variable RS : random_source.

(** The statistics after [k] more corrections with the Steane code. *)
Definition steane_counted (st st' : Service.state RS) (k : nat) : Prop :=
  Service.error_correctors RS st' = Service.error_correctors RS st /\
  Service.error_history RS st' = Service.error_history RS st /\
  forall code, Service.correction_statistics RS st' code
               = if decide (code = STEANE_7)
                 then (Service.correction_statistics RS st code + k)%nat
                 else Service.correction_statistics RS st code.

Lemma steane_counted_refl (st : Service.state RS) : steane_counted st st 0.
Proof.
  split; [reflexivity|]. split; [reflexivity|]. intros code.
  destruct (decide (code = STEANE_7)); lia.
Qed.

Lemma perform_error_correction_encoded (v : vec) (alpha beta : C)
    (st : Service.state RS) :
  length v = (2 ^ 7)%nat -> (forall i, getitem v i = encoded_entry alpha beta i) ->
  Service.registered RS STEANE_7 st = true ->
  exists st',
    Service.perform_error_correction RS v STEANE_7 st
    = ret ((v, mkSyndromeResult [0; 0; 0; 0; 0; 0]%nat (seq 0 7) (95 / 100)), st') /\
    steane_counted st st' 1.
Proof.
  intros Hlen Hget Hreg.
  unfold Service.perform_error_correction, Service.sbind, Service.lift, Service.corrector.
  rewrite Hreg, !bind_ret. cbn [fst snd].
  cbn [Service.corrector_measure_syndrome Service.corrector_correct_errors].
  rewrite (encoded_syndrome v alpha beta Hlen Hget), !bind_ret. cbn [fst snd].
  rewrite correct_errors_trivial, !bind_ret. cbn [fst snd].
  eexists. split; [reflexivity|]. split; [reflexivity|]. split; [reflexivity|].
  intros code. cbn. destruct (decide (code = STEANE_7)); lia.
Qed.

Lemma cycle_loop_noise_free (v logical decoded : vec) (alpha beta : C) (rate f : R)
    (ids : list nat) :
  length v = (2 ^ 7)%nat -> (forall i, getitem v i = encoded_entry alpha beta i) ->
  Steane.decode v = ret decoded -> fidelity logical decoded = ret f -> rate <= 0 ->
  forall (records : list CycleResult) (st : Service.state RS),
    Service.registered RS STEANE_7 st = true ->
    exists st',
      Service.cycle_loop RS ids logical STEANE_7 rate v records st
      = ret ((records ++ map (fun cyc => mkCycleResult cyc 0 [0; 0; 0; 0; 0; 0]%nat f) ids,
              v), st') /\
      steane_counted st st' (length ids).
Proof.
  intros Hlen Hget Hdec Hfid Hrate.
  induction ids as [|cyc ids IH]; intros records st Hreg.
  - exists st. cbn [Service.cycle_loop map]. rewrite app_nil_r.
    split; [reflexivity | apply steane_counted_refl].
  - cbn [Service.cycle_loop]. unfold Service.sbind at 1.
    destruct (NoiseFacts.simulate_errors_run RS v 7 rate st Hlen)
      as (out & errs & st1 & H1 & _ & _ & Hh1 & Hc1 & Hs1 & _ & _ & Hquiet & _).
    destruct (Hquiet Hrate) as [-> ->]. rewrite app_nil_r in Hh1.
    rewrite H1, bind_ret. cbn [fst snd]. unfold Service.sbind at 1.
    assert (Hreg1 : Service.registered RS STEANE_7 st1 = true).
    { unfold Service.registered in *. rewrite Hc1. exact Hreg. }
    destruct (perform_error_correction_encoded v alpha beta st1 Hlen Hget Hreg1)
      as (st2 & H2 & Hc2 & Hh2 & Hs2).
    rewrite H2, bind_ret. cbn [fst snd].
    assert (Hreg2 : Service.registered RS STEANE_7 st2 = true).
    { unfold Service.registered in *. rewrite Hc2. exact Hreg1. }
    unfold Service.sbind at 1. unfold Service.corrector at 1.
    rewrite Hreg2, bind_ret. cbn [fst snd].
    unfold Service.sbind at 1. unfold Service.lift at 1.
    cbn [Service.corrector_decode]. rewrite Hdec, !bind_ret. cbn [fst snd].
    unfold Service.sbind at 1. unfold Service.lift at 1.
    rewrite Hfid, !bind_ret. cbn [fst snd length syndrome].
    destruct (IH (records ++ [mkCycleResult cyc 0 [0; 0; 0; 0; 0; 0]%nat f]) st2 Hreg2)
      as (st' & Hrun & Hc' & Hh' & Hs').
    exists st'. split.
    + rewrite Hrun, <- app_assoc. reflexivity.
    + split; [congruence|]. split; [congruence|]. intros code.
      rewrite Hs', Hs2, Hs1. cbn [length]. destruct (decide (code = STEANE_7)); lia.
Qed.

Lemma full_cycle_noise_free (alpha beta : C) (rate : R) (num_cycles : nat)
    (st : Service.state RS) :
  Cnorm2 alpha + Cnorm2 beta = 1 -> rate <= 0 ->
  Service.registered RS STEANE_7 st = true ->
  exists results st',
    Service.full_error_correction_cycle RS [alpha; beta] STEANE_7 rate num_cycles st
    = ret (results, st') /\
    final_logical_state results = [RtoC (Cmod alpha); RtoC (Cmod beta)] /\
    fidelity [alpha; beta] [RtoC (Cmod alpha); RtoC (Cmod beta)]
    = ret (final_fidelity results) /\
    cycles results
    = map (fun cyc => mkCycleResult cyc 0 [0; 0; 0; 0; 0; 0]%nat (final_fidelity results))
          (seq 0 num_cycles) /\
    steane_counted st st' num_cycles.
Proof.
  intros Hnorm Hrate Hreg.
  destruct (steane_encode_spec alpha beta) as (v & Henc & Hlen & Hget).
  destruct (steane_roundtrip_moduli alpha beta Hnorm) as (v' & Henc' & _ & Hdec).
  rewrite Henc in Henc'. injection Henc' as <-.
  pose proof (RoundTripFidelity.fidelity_pair alpha beta (RtoC (Cmod alpha))
                (RtoC (Cmod beta))) as Hfid.
  set (f := Cnorm2 _) in Hfid.
  unfold Service.full_error_correction_cycle. unfold Service.sbind at 1.
  unfold Service.encode_logical_qubit. rewrite Hreg.
  cbn [Service.corrector_encode]. rewrite Henc, !bind_ret. cbn [fst snd].
  unfold Service.sbind at 1.
  destruct (cycle_loop_noise_free v [alpha; beta] _ alpha beta rate f (seq 0 num_cycles)
              Hlen Hget Hdec Hfid Hrate [] st Hreg) as (st' & Hloop & Hcount).
  rewrite Hloop, bind_ret. cbn [fst snd app].
  assert (Hreg' : Service.registered RS STEANE_7 st' = true).
  { unfold Service.registered in *. rewrite (proj1 Hcount). exact Hreg. }
  unfold Service.sbind at 1. unfold Service.corrector at 1.
  rewrite Hreg', bind_ret. cbn [fst snd].
  unfold Service.sbind at 1. unfold Service.lift at 1.
  cbn [Service.corrector_decode]. rewrite Hdec, !bind_ret. cbn [fst snd].
  unfold Service.sbind at 1. unfold Service.lift at 1.
  rewrite Hfid, !bind_ret. cbn [fst snd].
  eexists _, _. split; [reflexivity|]. cbn [final_logical_state final_fidelity cycles].
  split; [reflexivity|]. split; [reflexivity|]. split; [reflexivity|].
  rewrite length_seq in Hcount. exact Hcount.
Qed.

End NoiseFree.

(** Without noise (error rate 0 or less) the full Steane-7 cycle on any
    unit logical state runs to the end for every number of cycles and
    every random source: each cycle logs no error and measures the
    all-zero syndrome, the final decoded state is the pair of moduli
    (|alpha|, |beta|) and every recorded fidelity is the fidelity between
    the logical state and that pair; no error is logged and the
    correction counter of the Steane code goes up by one per cycle. *)
Theorem steane_noise_free_cycles (RS : random_source) (g : gen RS) (alpha beta : C)
    (rate : R) (num_cycles : nat) :
  Cnorm2 alpha + Cnorm2 beta = 1 -> rate <= 0 ->
  exists results st',
    Service.full_error_correction_cycle RS [alpha; beta] STEANE_7 rate num_cycles
      (Service.init RS g) = ret (results, st') /\
    final_logical_state results = [RtoC (Cmod alpha); RtoC (Cmod beta)] /\
    fidelity [alpha; beta] [RtoC (Cmod alpha); RtoC (Cmod beta)]
    = ret (final_fidelity results) /\
    cycles results
    = map (fun cyc => mkCycleResult cyc 0 [0; 0; 0; 0; 0; 0]%nat (final_fidelity results))
          (seq 0 num_cycles) /\
    Service.error_history RS st' = [] /\
    Service.correction_statistics RS st' STEANE_7 = num_cycles /\
    Service.correction_statistics RS st' SHOR_9 = 0%nat.
Proof.
  intros Hnorm Hrate.
  destruct (full_cycle_noise_free RS alpha beta rate num_cycles (Service.init RS g)
              Hnorm Hrate eq_refl)
    as (results & st' & Hrun & Hfinal & Hfid & Hcycles & _ & Hh & Hs).
  exists results, st'. split; [exact Hrun|]. split; [exact Hfinal|].
  split; [exact Hfid|]. split; [exact Hcycles|]. split; [exact Hh|]. split.
  - rewrite Hs. reflexivity.
  - rewrite Hs. reflexivity.
Qed.

Lemma steane_noise_free_cycles_witness :
  exists results st',
    Service.full_error_correction_cycle half_source [C0; C1] STEANE_7 0 3
      (Service.init half_source 0%nat) = ret (results, st') /\
    final_logical_state results = [RtoC (Cmod C0); RtoC (Cmod C1)] /\
    fidelity [C0; C1] [RtoC (Cmod C0); RtoC (Cmod C1)] = ret (final_fidelity results) /\
    cycles results
    = map (fun cyc => mkCycleResult cyc 0 [0; 0; 0; 0; 0; 0]%nat (final_fidelity results))
          (seq 0 3) /\
    Service.error_history half_source st' = [] /\
    Service.correction_statistics half_source st' STEANE_7 = 3%nat /\
    Service.correction_statistics half_source st' SHOR_9 = 0%nat.
Proof.
  apply (steane_noise_free_cycles half_source 0%nat C0 C1 0 3).
  - unfold Cnorm2, C0, C1. simpl. lra.
  - lra.
Defined.

End CorrectionFacts.

(** ** error_correction.py: the Shor and surface code syndrome measurements *)

Module StabilizerMeasurement.
Import ErrorCorrection.
Local Open Scope R_scope.

(** [ShorCodeCorrector.stabilizers] *)
Definition shor_stabilizers : list (list nat) :=
  [ [0; 0; 1; 1; 0; 0; 0; 0; 0];
    [0; 1; 1; 0; 0; 0; 0; 0; 0];
    [0; 0; 0; 0; 0; 1; 1; 0; 0];
    [0; 0; 0; 0; 1; 1; 0; 0; 0];
    [0; 0; 0; 0; 0; 0; 0; 0; 1];
    [0; 0; 0; 0; 0; 0; 0; 1; 1];
    [1; 1; 1; 1; 1; 1; 0; 0; 0];
    [0; 0; 0; 1; 1; 1; 1; 1; 1] ]%nat.

(** The nodes [(i, j, 'data')] and [(i, j, 'syndrome')] of the lattice. *)
Inductive node_type : Type := Data | Syndrome.

Definition node : Type := (nat * nat * node_type)%type.

Definition node_type_eqb (a b : node_type) : bool :=
  match a, b with
  | Data, Data | Syndrome, Syndrome => true
  | _, _ => false
  end.

Definition node_eqb (a b : node) : bool :=
  let '(i, j, t) := a in
  let '(i', j', t') := b in
  ((i =? i') && (j =? j'))%nat && node_type_eqb t t'.

(** An undirected graph as networkx keeps it: the nodes and the edges in
    insertion order. *)
Record graph : Type := mkGraph {
  graph_nodes : list node;
  graph_edges : list (node * node)
}.

(** [G.neighbors(n)], in the order the edges were added. *)
Definition neighbors (G : graph) (n : node) : list node :=
  flat_map (fun '(u, v) => if node_eqb u n then [v]
                           else if node_eqb v n then [u] else [])
           (graph_edges G).

(** [_build_surface_lattice] *)
Definition build_surface_lattice (distance : nat) : graph :=
  let nodes :=
    flat_map (fun i =>
      map (fun j => if ((i + j) mod 2 =? 0)%nat then (i, j, Data) else (i, j, Syndrome))
          (seq 0 distance))
      (seq 0 distance) in
  let edges :=
    flat_map (fun i =>
      flat_map (fun j =>
        if ((i + j) mod 2 =? 1)%nat then
          flat_map (fun '(di, dj) =>
            let ni := (Z.of_nat i + di)%Z in
            let nj := (Z.of_nat j + dj)%Z in
            if ((0 <=? ni) && (ni <? Z.of_nat distance) &&
                (0 <=? nj) && (nj <? Z.of_nat distance))%Z
            then if ((ni + nj) mod 2 =? 0)%Z
                 then [((i, j, Syndrome), (Z.to_nat ni, Z.to_nat nj, Data))]
                 else []
            else [])
            [(-1, 0); (1, 0); (0, -1); (0, 1)]%Z
        else [])
        (seq 0 distance))
      (seq 0 distance) in
  mkGraph nodes edges.

(** [_node_to_qubit_index] *)
Definition node_to_qubit_index (distance : nat) (n : node) : Z :=
  let '(i, j, t) := n in
  match t with
  | Data => Z.of_nat (i * distance + j)
  | Syndrome => (-1)%Z
  end.

(** [stabilizer[k] = 1] on a Python list. *)
Definition list_setitem (l : list nat) (k : Z) (x : nat) : result (list nat) :=
  let len := Z.of_nat (length l) in
  let pos := if (k <? 0)%Z then (len + k)%Z else k in
  if ((0 <=? pos) && (pos <? len))%Z then ret (<[Z.to_nat pos := x]> l)
  else raise (IndexError "list assignment index out of range").

(** The body of the loop of [_generate_surface_stabilizers] for one
    syndrome node. *)
Definition node_stabilizer (distance : nat) (nbrs : list node) : result (list nat) :=
  Shor.foldM (fun stabilizer neighbor =>
                match snd neighbor with
                | Data => list_setitem stabilizer (node_to_qubit_index distance neighbor) 1
                | Syndrome => ret stabilizer
                end)
             nbrs (repeat 0%nat (Surface.num_physical_qubits distance)).

(** [_generate_surface_stabilizers] *)
Definition generate_surface_stabilizers (distance : nat) (lattice : graph)
  : result (list (list nat)) :=
  Shor.foldM (fun stabilizers n =>
                match snd n with
                | Syndrome =>
                    let nbrs := neighbors lattice n in
                    stabilizer <- node_stabilizer distance nbrs ;;
                    if (0 <? length nbrs)%nat then ret (stabilizers ++ [stabilizer])
                    else ret stabilizers
                | Data => ret stabilizers
                end)
             (graph_nodes lattice) [].

(** [SurfaceCodeCorrector.__init__]: the stabilizers of the new corrector. *)
Definition surface_stabilizers (distance : nat) : result (list (list nat)) :=
  generate_surface_stabilizers distance (build_surface_lattice distance).

(** [self._measure_pauli_operator(...)] on a corrector whose class does
    not define it: only [SteaneCodeCorrector] does. *)
Definition missing_measure_pauli_operator : result R :=
  raise (AttributeError "_measure_pauli_operator").

(** [measure_syndrome] of [ShorCodeCorrector] and of
    [SurfaceCodeCorrector], for the stabilizers of the corrector. *)
Definition measure_syndrome_over (stabilizers : list (list nat)) (measured : list nat)
    (conf : R) (physical_state : vec) : result SyndromeResult :=
  syn <- mapM (fun stabilizer =>
                 m <- missing_measure_pauli_operator ;; ret (syndrome_bit m))
              stabilizers ;;
  ret {| syndrome := syn; measured_qubits := measured; confidence := conf |}.

Definition shor_measure_syndrome (physical_state : vec) : result SyndromeResult :=
  measure_syndrome_over shor_stabilizers (seq 0 9) (95 / 100) physical_state.

Definition surface_measure_syndrome (distance : nat) (stabilizers : list (list nat))
    (physical_state : vec) : result SyndromeResult :=
  measure_syndrome_over stabilizers (seq 0 (Surface.num_physical_qubits distance))
                        (98 / 100) physical_state.

End StabilizerMeasurement.

(** ** Results for the correctors without a Pauli measurement *)

Module MissingOperatorFacts.
Import ErrorCorrection ArrayFacts StabilizerMeasurement.
Local Open Scope R_scope.

Lemma measure_syndrome_over_cases (stabilizers : list (list nat)) (measured : list nat)
    (conf : R) (s : vec) :
  measure_syndrome_over stabilizers measured conf s
  = match stabilizers with
    | [] => ret (mkSyndromeResult [] measured conf)
    | _ :: _ => raise (AttributeError "_measure_pauli_operator")
    end.
Proof. destruct stabilizers; reflexivity. Qed.

(** *** The lattice *)

Lemma list_setitem_ok (l : list nat) (k : nat) (x : nat) :
  (k < length l)%nat -> list_setitem l (Z.of_nat k) x = ret (<[k := x]> l).
Proof.
  intros Hk. unfold list_setitem.
  destruct (Z.ltb_spec (Z.of_nat k) 0); [lia|].
  destruct (Z.leb_spec 0 (Z.of_nat k)); [|lia].
  destruct (Z.ltb_spec (Z.of_nat k) (Z.of_nat (length l))); [|lia].
  cbn [andb]. rewrite Nat2Z.id. reflexivity.
Qed.

(** What [node_stabilizer] returns when no assignment is out of range. *)
Definition mark (distance : nat) (stabilizer : list nat) (neighbor : node) : list nat :=
  match snd neighbor with
  | Data => <[(fst (fst neighbor) * distance + snd (fst neighbor))%nat := 1%nat]> stabilizer
  | Syndrome => stabilizer
  end.

Definition marked (distance : nat) (nbrs : list node) (start : list nat) : list nat :=
  fold_left (mark distance) nbrs start.

Lemma marked_cons (distance : nat) (n : node) (nbrs : list node) (start : list nat) :
  marked distance (n :: nbrs) start = marked distance nbrs (mark distance start n).
Proof. reflexivity. Qed.

Definition inside (distance : nat) (n : node) : Prop :=
  (fst (fst n) < distance)%nat /\ (snd (fst n) < distance)%nat.

Lemma index_inside (distance : nat) (n : node) :
  inside distance n ->
  (fst (fst n) * distance + snd (fst n) < distance * distance)%nat.
Proof. intros [Hi Hj]. nia. Qed.

Lemma length_marked (distance : nat) (nbrs : list node) (start : list nat) :
  length (marked distance nbrs start) = length start.
Proof.
  revert start. induction nbrs as [|[[i j] t] nbrs IH]; intros start; [reflexivity|].
  rewrite marked_cons, IH. unfold mark.
  destruct t; cbn [snd]; [apply length_insert | reflexivity].
Qed.

Lemma fold_stabilizer (distance : nat) (nbrs : list node) (start : list nat) :
  List.Forall (inside distance) nbrs ->
  (distance * distance <= length start)%nat ->
  Shor.foldM (fun stabilizer neighbor =>
                match snd neighbor with
                | Data => list_setitem stabilizer (node_to_qubit_index distance neighbor) 1
                | Syndrome => ret stabilizer
                end)
             nbrs start
  = ret (marked distance nbrs start).
Proof.
  intros Hall. revert start. induction Hall as [|[[i j] t] nbrs Hn _ IH]; intros start Hlen.
  - reflexivity.
  - rewrite marked_cons. cbn [Shor.foldM]. unfold mark.
    destruct t; cbn [snd node_to_qubit_index fst].
    + pose proof (index_inside distance (i, j, Data) Hn) as Hidx. cbn [fst snd] in Hidx.
      rewrite list_setitem_ok by lia. rewrite bind_ret.
      apply IH. rewrite length_insert. exact Hlen.
    + rewrite bind_ret. apply IH, Hlen.
Qed.

Lemma physical_qubits_cover (distance : nat) :
  (distance * distance <= Surface.num_physical_qubits distance)%nat.
Proof.
  unfold Surface.num_physical_qubits. destruct distance as [|d]; [simpl; lia|].
  rewrite Nat.pow_2_r. nia.
Qed.

Lemma edge_endpoints_inside (distance : nat) (u v : node) :
  In (u, v) (graph_edges (build_surface_lattice distance)) ->
  inside distance u /\ inside distance v /\ snd u = Syndrome /\ snd v = Data.
Proof.
  cbn [build_surface_lattice graph_edges]. intros H.
  apply in_flat_map in H as (i & Hi & H). apply in_flat_map in H as (j & Hj & H).
  apply in_seq in Hi, Hj.
  destruct ((i + j) mod 2 =? 1)%nat; [|destruct H].
  apply in_flat_map in H as ([di dj] & _ & H). cbv zeta in H.
  destruct (Z.leb_spec 0 (Z.of_nat i + di)); [|destruct H].
  destruct (Z.ltb_spec (Z.of_nat i + di) (Z.of_nat distance)); [|destruct H].
  destruct (Z.leb_spec 0 (Z.of_nat j + dj)); [|destruct H].
  destruct (Z.ltb_spec (Z.of_nat j + dj) (Z.of_nat distance)); [|destruct H].
  cbn [andb] in H.
  destruct ((Z.of_nat i + di + (Z.of_nat j + dj)) mod 2 =? 0)%Z; [|destruct H].
  destruct H as [H | []]. injection H as <- <-.
  unfold inside. cbn [fst snd]. repeat split; lia.
Qed.

Lemma neighbors_inside (distance : nat) (n : node) :
  List.Forall (inside distance) (neighbors (build_surface_lattice distance) n).
Proof.
  apply List.Forall_forall. intros m Hm. unfold neighbors in Hm.
  apply in_flat_map in Hm as ([u v] & Huv & Hm).
  destruct (edge_endpoints_inside distance u v Huv) as (Hu & Hv & _).
  destruct (node_eqb u n); [destruct Hm as [<- | []]; exact Hv|].
  destruct (node_eqb v n); [destruct Hm as [<- | []]; exact Hu | destruct Hm].
Qed.

(** The stabilizers as a plain list: one per syndrome node that has a
    neighbour, in node order. *)
Definition stabilizer_rows (distance : nat) : list (list nat) :=
  let lattice := build_surface_lattice distance in
  flat_map (fun n =>
              match snd n with
              | Syndrome =>
                  if (0 <? length (neighbors lattice n))%nat
                  then [marked distance (neighbors lattice n)
                               (repeat 0%nat (Surface.num_physical_qubits distance))]
                  else []
              | Data => []
              end)
           (graph_nodes lattice).

Lemma generate_run (distance : nat) (nodes : list node) (acc : list (list nat)) :
  let lattice := build_surface_lattice distance in
  Shor.foldM (fun stabilizers n =>
                match snd n with
                | Syndrome =>
                    let nbrs := neighbors lattice n in
                    stabilizer <- node_stabilizer distance nbrs ;;
                    if (0 <? length nbrs)%nat then ret (stabilizers ++ [stabilizer])
                    else ret stabilizers
                | Data => ret stabilizers
                end)
             nodes acc
  = ret (acc ++ flat_map (fun n =>
              match snd n with
              | Syndrome =>
                  if (0 <? length (neighbors lattice n))%nat
                  then [marked distance (neighbors lattice n)
                               (repeat 0%nat (Surface.num_physical_qubits distance))]
                  else []
              | Data => []
              end) nodes).
Proof.
  intros lattice. revert acc. induction nodes as [|[[i j] t] nodes IH]; intros acc.
  - cbn [Shor.foldM flat_map]. rewrite app_nil_r. reflexivity.
  - cbn [Shor.foldM flat_map]. destruct t; cbn [snd].
    + rewrite bind_ret, IH. reflexivity.
    + cbv zeta. unfold node_stabilizer.
      rewrite fold_stabilizer;
        [| apply neighbors_inside | rewrite repeat_length; apply physical_qubits_cover].
      rewrite bind_ret.
      destruct (0 <? length (neighbors lattice (i, j, Syndrome)))%nat.
      * rewrite bind_ret, IH, <- app_assoc. reflexivity.
      * rewrite bind_ret, IH. reflexivity.
Qed.

Lemma surface_stabilizers_run (distance : nat) :
  surface_stabilizers distance = ret (stabilizer_rows distance).
Proof.
  unfold surface_stabilizers, generate_surface_stabilizers.
  rewrite generate_run. reflexivity.
Qed.

Lemma marked_entries (distance : nat) (nbrs : list node) (start : list nat) (k : nat) :
  List.Forall (inside distance) nbrs ->
  nth k (marked distance nbrs start) 0%nat = nth k start 0%nat \/
  (nth k (marked distance nbrs start) 0%nat = 1%nat /\ (k < distance * distance)%nat).
Proof.
  intros Hall. revert start. induction Hall as [|[[i j] t] nbrs Hn _ IH]; intros start.
  - left. reflexivity.
  - rewrite marked_cons. unfold mark. destruct t; cbn [snd fst].
    + destruct (IH (<[(i * distance + j)%nat := 1%nat]> start)) as [H | H]; [|right; exact H].
      destruct (Nat.eq_dec k (i * distance + j)%nat) as [-> | Hne].
      * destruct (Nat.lt_ge_cases (i * distance + j)%nat (length start)) as [Hlt | Hge].
        -- right. split; [|apply (index_inside distance (i, j, Data) Hn)].
           rewrite H, nth_lookup, list_lookup_insert_eq by exact Hlt. reflexivity.
        -- left. rewrite H.
           rewrite !nth_overflow; [reflexivity | lia | rewrite length_insert; lia].
      * left. rewrite H, !nth_lookup, list_lookup_insert_ne by congruence. reflexivity.
    + apply IH.
Qed.

(** Building the stabilizers of a surface code never raises, whatever the
    distance.  Each stabilizer is a list of 2*d^2 - 1 bits, and a bit can
    only be set at an index below d^2: the physical qubits d^2 .. 2*d^2-2
    are not touched by any stabilizer. *)
Theorem surface_stabilizers_shape (distance : nat) :
  exists rows,
    surface_stabilizers distance = ret rows /\
    List.Forall (fun row =>
                   length row = Surface.num_physical_qubits distance /\
                   forall k, nth k row 0%nat = 0%nat \/
                             (nth k row 0%nat = 1%nat /\ (k < distance * distance)%nat))
                rows.
Proof.
  exists (stabilizer_rows distance). split; [apply surface_stabilizers_run|].
  apply List.Forall_forall. intros row Hrow. unfold stabilizer_rows in Hrow.
  apply in_flat_map in Hrow as ([[i j] t] & _ & Hrow). cbv zeta in Hrow.
  destruct t; cbn [snd] in Hrow; [destruct Hrow|].
  destruct (0 <? length _)%nat; [|destruct Hrow]. destruct Hrow as [<- | []].
  split; [rewrite length_marked; apply repeat_length|].
  intros k.
  destruct (marked_entries distance
              (neighbors (build_surface_lattice distance) (i, j, Syndrome))
              (repeat 0%nat (Surface.num_physical_qubits distance)) k
              (neighbors_inside distance _)) as [H | H]; [|right; exact H].
  left. rewrite H.
  destruct (Nat.lt_ge_cases k (Surface.num_physical_qubits distance)).
  - apply nth_repeat_lt. assumption.
  - apply nth_overflow. rewrite repeat_length. assumption.
Qed.


(** *** Which distances have stabilizers *)

Lemma stabilizer_rows_small (distance : nat) :
  (distance <= 1)%nat -> stabilizer_rows distance = [].
Proof.
  intros H. destruct distance as [|[|d]]; [reflexivity | reflexivity | lia].
Qed.

Lemma stabilizer_rows_nonempty (distance : nat) :
  (2 <= distance)%nat -> stabilizer_rows distance <> [].
Proof.
  intros Hd.
  set (n := (0%nat, 1%nat, Syndrome) : node).
  assert (Hnode : In n (graph_nodes (build_surface_lattice distance))).
  { cbn [build_surface_lattice graph_nodes]. apply in_flat_map. exists 0%nat.
    split; [apply in_seq; lia|]. apply in_map_iff. exists 1%nat.
    split; [reflexivity | apply in_seq; lia]. }
  assert (Hedge : In (n, (1%nat, 1%nat, Data))
                     (graph_edges (build_surface_lattice distance))).
  { cbn [build_surface_lattice graph_edges]. apply in_flat_map. exists 0%nat.
    split; [apply in_seq; lia|]. apply in_flat_map. exists 1%nat.
    split; [apply in_seq; lia|]. change ((0 + 1) mod 2 =? 1)%nat with true. cbv iota.
    apply in_flat_map. exists (1, 0)%Z. split; [simpl; tauto|]. cbv zeta.
    change (Z.of_nat 0 + 1)%Z with 1%Z. change (Z.of_nat 1 + 0)%Z with 1%Z.
    change (0 <=? 1)%Z with true.
    destruct (Z.ltb_spec 1 (Z.of_nat distance)); [|lia].
    cbn [andb]. change ((1 + 1) mod 2 =? 0)%Z with true. cbv iota.
    left. reflexivity. }
  assert (Hnbr : In (1%nat, 1%nat, Data) (neighbors (build_surface_lattice distance) n)).
  { unfold neighbors. apply in_flat_map. exists (n, (1%nat, 1%nat, Data)).
    split; [exact Hedge|]. change (node_eqb n n) with true. cbv iota. left. reflexivity. }
  intros Hnil.
  assert (Hin : In (marked distance (neighbors (build_surface_lattice distance) n)
                           (repeat 0%nat (Surface.num_physical_qubits distance)))
                   (stabilizer_rows distance)).
  { unfold stabilizer_rows. cbv zeta. apply in_flat_map. exists n. split; [exact Hnode|].
    cbn [snd n].
    destruct (neighbors (build_surface_lattice distance) n) as [|m rest]; [destruct Hnbr|].
    cbn [length Nat.ltb Nat.leb]. left. reflexivity. }
  rewrite Hnil in Hin. destruct Hin.
Qed.

(** The syndrome measurements of the Shor and surface correctors call a
    method their classes do not have.  [ShorCodeCorrector.measure_syndrome]
    raises AttributeError on every state.  The surface corrector does so
    for every distance of 2 or more; for distance 0 or 1 the lattice has
    no syndrome node with a neighbour, the loop body never runs and an
    empty syndrome is returned. *)
Theorem measure_syndrome_missing_operator (s : vec) (distance : nat) :
  shor_measure_syndrome s = raise (AttributeError "_measure_pauli_operator") /\
  exists rows,
    surface_stabilizers distance = ret rows /\
    surface_measure_syndrome distance rows s
    = if (2 <=? distance)%nat
      then raise (AttributeError "_measure_pauli_operator")
      else ret (mkSyndromeResult [] (seq 0 (Surface.num_physical_qubits distance))
                                 (98 / 100)).
Proof.
  split; [reflexivity|].
  exists (stabilizer_rows distance). split; [apply surface_stabilizers_run|].
  unfold surface_measure_syndrome. rewrite measure_syndrome_over_cases.
  destruct (Nat.leb_spec 2 distance) as [Hd | Hd].
  - pose proof (stabilizer_rows_nonempty distance Hd) as Hne.
    destruct (stabilizer_rows distance); [contradiction | reflexivity].
  - rewrite stabilizer_rows_small by lia. reflexivity.
Qed.

(** *** The full cycle with these correctors *)

(** The dispatch of the service agrees with the two methods: the
    surface corrector it registers has distance 3. *)
Lemma corrector_measure_syndrome_agrees (s : vec) :
  Service.corrector_measure_syndrome SHOR_9 s = shor_measure_syndrome s /\
  Service.corrector_measure_syndrome SURFACE s
  = surface_measure_syndrome 3 (stabilizer_rows 3) s.
Proof.
  split; [reflexivity|].
  unfold surface_measure_syndrome. rewrite measure_syndrome_over_cases.
  pose proof (stabilizer_rows_nonempty 3 ltac:(lia)) as Hne.
  destruct (stabilizer_rows 3); [contradiction | reflexivity].
Qed.

Lemma surface_encode_run (alpha beta : C) :
  exists v, surface_encode 3 [alpha; beta] = ret v /\ length v = (2 ^ 17)%nat.
Proof.
  unfold surface_encode. change (Surface.num_physical_qubits 3) with 17%nat.
  rewrite (ShorFacts.item_in_range [alpha; beta] 0) by (simpl; lia).
  rewrite bind_ret.
  rewrite (ShorFacts.item_in_range [alpha; beta] 1) by (simpl; lia).
  rewrite bind_ret. eexists. split; [reflexivity|].
  rewrite !length_setitem. unfold zeros. apply repeat_length.
Qed.

Section Cycles.

Variable RS : random_source.

Lemma first_cycle_raises (code : CorrectionCode) (n : nat) (v logical : vec) (rate : R)
    (ids : list nat) (cyc : nat) (records : list CycleResult) (st : Service.state RS) :
  code = SHOR_9 \/ code = SURFACE ->
  length v = (2 ^ n)%nat ->
  Service.registered RS code st = true ->
  Service.cycle_loop RS (cyc :: ids) logical code rate v records st
  = raise (AttributeError "_measure_pauli_operator").
Proof.
  intros Hcode Hlen Hreg. cbn [Service.cycle_loop]. unfold Service.sbind at 1.
  destruct (NoiseFacts.simulate_errors_run RS v n rate st Hlen)
    as (out & errs & st1 & H1 & _ & _ & _ & Hc1 & _).
  rewrite H1, bind_ret. cbn [fst snd]. unfold Service.sbind at 1.
  assert (Hreg1 : Service.registered RS code st1 = true).
  { unfold Service.registered in *. rewrite Hc1. exact Hreg. }
  unfold Service.perform_error_correction. unfold Service.sbind at 1.
  unfold Service.corrector at 1. rewrite Hreg1, bind_ret. cbn [fst snd].
  unfold Service.sbind at 1. unfold Service.lift at 1.
  destruct Hcode as [-> | ->]; reflexivity.
Qed.

End Cycles.

(** With the Shor-9 or the surface code, [full_error_correction_cycle]
    never completes a cycle: for every 2-entry logical state, error rate
    and random source, and every number of cycles of at least 1, the
    call raises AttributeError in the syndrome measurement of the first
    cycle (after the encoding and the error injection have run). *)
Theorem cycle_raises_without_operator (RS : random_source) (g : gen RS)
    (alpha beta : C) (rate : R) (n : nat) :
  Service.full_error_correction_cycle RS [alpha; beta] SHOR_9 rate (S n)
    (Service.init RS g) = raise (AttributeError "_measure_pauli_operator") /\
  Service.full_error_correction_cycle RS [alpha; beta] SURFACE rate (S n)
    (Service.init RS g) = raise (AttributeError "_measure_pauli_operator").
Proof.
  split.
  - destruct (ShorFacts.shor_encode_spec alpha beta) as (v & Henc & Hlen & _).
    unfold Service.full_error_correction_cycle. unfold Service.sbind at 1.
    unfold Service.encode_logical_qubit.
    change (Service.registered RS SHOR_9 (Service.init RS g)) with true. cbv iota.
    cbn [Service.corrector_encode]. rewrite Henc, !bind_ret. cbn [fst snd].
    unfold Service.sbind at 1. cbn [seq].
    match goal with
    | |- context [Service.cycle_loop RS _ _ _ _ _ _ ?st] =>
        rewrite (first_cycle_raises RS SHOR_9 9 v [alpha; beta] rate (seq 1 n) 0%nat [] st
                   (or_introl eq_refl) Hlen eq_refl)
    end.
    reflexivity.
  - destruct (surface_encode_run alpha beta) as (v & Henc & Hlen).
    unfold Service.full_error_correction_cycle. unfold Service.sbind at 1.
    unfold Service.encode_logical_qubit.
    change (Service.registered RS SURFACE (Service.init RS g)) with false. cbv iota.
    destruct (decide (SURFACE = SURFACE)) as [_|Hne]; [|contradiction].
    cbn [Service.corrector_encode]. rewrite Henc, !bind_ret. cbn [fst snd].
    unfold Service.sbind at 1. cbn [seq].
    match goal with
    | |- context [Service.cycle_loop RS _ _ _ _ _ _ ?st] =>
        rewrite (first_cycle_raises RS SURFACE 17 v [alpha; beta] rate (seq 1 n) 0%nat [] st
                   (or_intror eq_refl) Hlen eq_refl)
    end.
    reflexivity.
Qed.

End MissingOperatorFacts.

(** ** error_correction.py: [get_error_statistics] *)

Module Statistics.
Import ErrorCorrection.

(** [error.error_type.name] *)
Definition error_type_name (t : ErrorType) : string :=
  match t with
  | BIT_FLIP => "BIT_FLIP"
  | PHASE_FLIP => "PHASE_FLIP"
  | BOTH => "BOTH"
  | MEASUREMENT => "MEASUREMENT"
  | DECOHERENCE => "DECOHERENCE"
  end.

(** The dict returned by [get_error_statistics], without the entry
    [average_error_rate], which is computed from the wall clock. *)
Record ErrorStatistics : Type := mkErrorStatistics {
  total_errors : nat;
  error_breakdown : gmap string nat;
  correction_attempts : CorrectionCode -> nat
}.

(** The loop [for error in self.error_history: error_counts[name] += 1]
    on a [defaultdict(int)]. *)
Definition count_errors (history : list QubitError) : gmap string nat :=
  fold_left (fun error_counts error =>
               let name := error_type_name (error_type error) in
               <[name := (default 0 (error_counts !! name) + 1)%nat]> error_counts)
            history (∅ : gmap string nat).

Definition get_error_statistics {RS : random_source} (st : Service.state RS)
  : ErrorStatistics :=
  {| total_errors := length (Service.error_history RS st);
     error_breakdown := count_errors (Service.error_history RS st);
     correction_attempts := Service.correction_statistics RS st |}.

End Statistics.

(** ** Results for [get_error_statistics] *)

Module StatisticsFacts.
Import ErrorCorrection Statistics HistogramFacts.

Lemma error_type_name_inj (a b : ErrorType) :
  error_type_name a = error_type_name b -> a = b.
Proof. destruct a, b; simpl; intros H; try reflexivity; discriminate H. Qed.

Definition ErrorType_eq_dec (a b : ErrorType) : {a = b} + {a <> b}.
Proof. decide equality. Defined.

Definition error_step (error_counts : gmap string nat) (error : QubitError)
  : gmap string nat :=
  let name := error_type_name (error_type error) in
  <[name := (default 0 (error_counts !! name) + 1)%nat]> error_counts.

Lemma count_errors_fold (history : list QubitError) (m0 : gmap string nat) (t : ErrorType) :
  total (fold_left error_step history m0) = total m0 + length history /\
  default 0 (fold_left error_step history m0 !! error_type_name t)
  = default 0 (m0 !! error_type_name t)
    + count_occ ErrorType_eq_dec (map error_type history) t.
Proof.
  revert m0. induction history as [|e history IH]; intros m0.
  - cbn [fold_left length map count_occ]. lia.
  - cbn [fold_left length map count_occ]. destruct (IH (error_step m0 e)) as [Ht Hc].
    rewrite Ht, Hc. unfold error_step. cbv zeta. rewrite total_increment. split; [lia|].
    destruct (ErrorType_eq_dec (error_type e) t) as [-> | Hne].
    + rewrite lookup_insert_eq. cbn [default]. unfold Datatypes.id. lia.
    + rewrite lookup_insert_ne; [reflexivity|].
      intros E. apply Hne, error_type_name_inj, E.
Qed.

(** The error breakdown is consistent with the log: its counts add up to
    [total_errors], and the count under the name of an error type is the
    number of logged errors of that type. *)
Theorem error_breakdown_consistent (RS : random_source) (st : Service.state RS)
    (t : ErrorType) :
  let stats := get_error_statistics st in
  total (error_breakdown stats) = total_errors stats /\
  default 0 (error_breakdown stats !! error_type_name t)
  = count_occ ErrorType_eq_dec (map error_type (Service.error_history RS st)) t /\
  correction_attempts stats = Service.correction_statistics RS st.
Proof.
  cbv zeta. cbn [get_error_statistics total_errors error_breakdown correction_attempts].
  change (count_errors (Service.error_history RS st))
    with (fold_left error_step (Service.error_history RS st) ∅).
  destruct (count_errors_fold (Service.error_history RS st) ∅ t) as [Ht Hc].
  rewrite Ht, Hc, total_empty, lookup_empty.
  split; [reflexivity|]. split; reflexivity.
Qed.

End StatisticsFacts.

(** ** Results for the syndrome of a single Pauli error (Steane-7) *)

Module SingleErrorFacts.
Import ErrorCorrection ArrayFacts RoundTripFacts PauliFacts ScenarioFacts.
Import CycleFacts PauliErrorFacts CorrectionFacts.
Local Open Scope R_scope.

(** Signed count of the indices [j] of [T] that [rho] maps into [S], with
    the sign [sg j]. *)
Definition general_overlap (rho : nat -> nat) (sg : nat -> bool) (S T : list nat) : Z :=
  fold_right Z.add 0%Z
    (map (fun j => if mem (rho j) S then (if sg j then -1 else 1)%Z else 0%Z) T).

Lemma general_overlap_sum (rho : nat -> nat) (sg : nat -> bool) (S T : list nat) :
  List.NoDup T -> (forall i, In i T -> (i < 2 ^ 7)%nat) ->
  Rsum (fun j => Re (Cmult (Cmult (Cconj (indicator S (rho j))) (sign_value (sg j)))
                           (indicator T j)))
       (2 ^ 7)
  = IZR (general_overlap rho sg S T) / 8.
Proof.
  intros Hnd Hlt. rewrite (Rsum_support _ _ T Hnd Hlt).
  - unfold general_overlap. apply fold_right_eighths. intros j Hj.
    unfold indicator. apply mem_In in Hj. rewrite Hj.
    pose proof amp_sq as Ha.
    destruct (mem (rho j) S), (sg j);
      unfold sign_value, Cmult, Cconj, RtoC, C0, C1, Re; simpl fst; simpl snd.
    + transitivity (- (amp * amp)); [ring | rewrite Ha; field].
    + transitivity (amp * amp); [ring | rewrite Ha; field].
    + field.
    + field.
  - intros j Hj Hnin. unfold indicator at 2.
    destruct (mem j T) eqn:E; [apply mem_In in E; contradiction|].
    rewrite Cmult_0_r. reflexivity.
Qed.

(** A state with amplitude [alpha / sqrt 8] on [S0] and [beta / sqrt 8]
    on [S1], up to the signs [t]. *)
Definition component_entry (t : nat -> bool) (S0 S1 : list nat) (alpha beta : C)
    (i : nat) : C :=
  Cmult (sign_value (t i))
        (Cplus (Cmult alpha (indicator S0 i)) (Cmult beta (indicator S1 i))).

Lemma component_term (t : nat -> bool) (S0 S1 : list nat) (alpha beta : C) (sg : bool)
    (i j : nat) :
  let sg' := xorb (t i) (xorb (t j) sg) in
  let cross := Re alpha * Re beta + Im alpha * Im beta in
  Re (Cmult (Cmult (Cconj (component_entry t S0 S1 alpha beta i)) (sign_value sg))
            (component_entry t S0 S1 alpha beta j))
  = Cnorm2 alpha
    * Re (Cmult (Cmult (Cconj (indicator S0 i)) (sign_value sg')) (indicator S0 j))
    + (Cnorm2 beta
       * Re (Cmult (Cmult (Cconj (indicator S1 i)) (sign_value sg')) (indicator S1 j))
       + (cross
          * Re (Cmult (Cmult (Cconj (indicator S0 i)) (sign_value sg')) (indicator S1 j))
          + cross
            * Re (Cmult (Cmult (Cconj (indicator S1 i)) (sign_value sg')) (indicator S0 j)))).
Proof.
  cbv zeta. unfold component_entry, indicator.
  destruct alpha as [a1 a2], beta as [b1 b2].
  destruct (mem i S0), (mem i S1), (mem j S0), (mem j S1), (t i), (t j), sg;
    unfold sign_value, Cnorm2, Cmult, Cplus, Cconj, RtoC, C0, C1, Re, Im;
    cbn [fst snd xorb]; ring.
Qed.

(** The four overlaps that decide a check on such a state. *)
Definition check_overlaps (is_x : bool) (bits : list nat) (t : nat -> bool)
    (S0 S1 : list nat) : Z * Z * Z * Z :=
  let rho := pauli_perm is_x bits in
  let sg := fun j => xorb (t (rho j)) (xorb (t j) (pauli_sign is_x bits j)) in
  (general_overlap rho sg S0 S0, general_overlap rho sg S1 S1,
   general_overlap rho sg S0 S1, general_overlap rho sg S1 S0).

Lemma measure_component (s : vec) (t : nat -> bool) (S0 S1 : list nat) (alpha beta : C)
    (bits : list nat) (pauli_type : string) :
  length s = (2 ^ 7)%nat -> length bits = 7%nat ->
  (forall i, (i < 2 ^ 7)%nat -> getitem s i = component_entry t S0 S1 alpha beta i) ->
  List.NoDup S0 -> List.NoDup S1 ->
  (forall i, In i S0 -> (i < 2 ^ 7)%nat) -> (forall i, In i S1 -> (i < 2 ^ 7)%nat) ->
  let '(A, B, X0, X1) := check_overlaps (String.eqb pauli_type "X") bits t S0 S1 in
  measure_pauli_operator s bits pauli_type
  = ret (Cnorm2 alpha * (IZR A / 8)
         + (Cnorm2 beta * (IZR B / 8)
            + ((Re alpha * Re beta + Im alpha * Im beta) * (IZR X0 / 8)
               + (Re alpha * Re beta + Im alpha * Im beta) * (IZR X1 / 8)))).
Proof.
  intros Hlen Hbits Hget Hnd0 Hnd1 Hlt0 Hlt1. unfold check_overlaps.
  rewrite measure_pauli_operator_spec by (rewrite Hbits; exact Hlen).
  f_equal. rewrite Hlen.
  set (is_x := String.eqb pauli_type "X").
  set (rho := pauli_perm is_x bits).
  set (sg := fun j => xorb (t (rho j)) (xorb (t j) (pauli_sign is_x bits j))).
  pose proof (build_operator_monomial bits pauli_type) as (_ & _ & Hrho & _).
  fold is_x in Hrho. fold rho in Hrho. rewrite Hbits in Hrho.
  rewrite <- (general_overlap_sum rho sg S0 S0 Hnd0 Hlt0).
  rewrite <- (general_overlap_sum rho sg S1 S1 Hnd1 Hlt1).
  rewrite <- (general_overlap_sum rho sg S0 S1 Hnd1 Hlt1).
  rewrite <- (general_overlap_sum rho sg S1 S0 Hnd0 Hlt0).
  rewrite <- !Rsum_scale, <- !Rsum_plus.
  apply Rsum_ext. intros j Hj. rewrite (Hget j Hj), (Hget _ (Hrho j Hj)).
  apply (component_term t S0 S1 alpha beta (pauli_sign is_x bits j) (rho j) j).
Qed.

(** The syndrome bit the four overlaps force on a state of non-zero
    norm, when they force one. *)
Definition forced_bit (o : Z * Z * Z * Z) : option nat :=
  let '(A, B, X0, X1) := o in
  if ((X0 =? 0) && (X1 =? 0))%Z then
    if ((0 <=? A) && (0 <=? B))%Z then Some 0%nat
    else if ((A <? 0) && (B <? 0))%Z then Some 1%nat
    else None
  else None.

Lemma forced_bit_sound (A B X0 X1 : Z) (alpha beta : C) (b : nat) :
  forced_bit (A, B, X0, X1) = Some b -> 0 < Cnorm2 alpha + Cnorm2 beta ->
  syndrome_bit (Cnorm2 alpha * (IZR A / 8)
                + (Cnorm2 beta * (IZR B / 8)
                   + ((Re alpha * Re beta + Im alpha * Im beta) * (IZR X0 / 8)
                      + (Re alpha * Re beta + Im alpha * Im beta) * (IZR X1 / 8))))
  = b.
Proof.
  unfold forced_bit. intros H Hpos.
  destruct (Z.eqb_spec X0 0) as [-> |]; [|discriminate].
  destruct (Z.eqb_spec X1 0) as [-> |]; [|discriminate]. cbn [andb] in H.
  pose proof (Cnorm2_nonneg alpha) as Ha. pose proof (Cnorm2_nonneg beta) as Hb.
  unfold syndrome_bit.
  destruct (Z.leb_spec 0 A) as [HA | HA]; cbn [andb] in H.
  - destruct (Z.leb_spec 0 B) as [HB | HB].
    + injection H as <-. apply IZR_le in HA, HB.
      destruct (Rlt_dec _ 0) as [Hneg|_]; [|reflexivity]. exfalso.
      assert (0 <= Cnorm2 alpha * (IZR A / 8)) by (apply Rmult_le_pos; lra).
      assert (0 <= Cnorm2 beta * (IZR B / 8)) by (apply Rmult_le_pos; lra).
      lra.
    + destruct (Z.ltb_spec A 0); [lia | discriminate].
  - destruct (Z.ltb_spec A 0) as [_|]; [|lia]. cbn [andb] in H.
    destruct (Z.ltb_spec B 0) as [HB | HB]; [|discriminate].
    injection H as <-.
    assert (HA' : IZR A <= -1) by (apply IZR_le; lia).
    assert (HB' : IZR B <= -1) by (apply IZR_le; lia).
    destruct (Rlt_dec _ 0) as [_|Hnn]; [reflexivity|]. exfalso. apply Hnn. nra.
Qed.

(** The syndrome forced on a state of the given shape. *)
Definition forced_syndrome (t : nat -> bool) (S0 S1 : list nat) : list (option nat) :=
  map (fun '(is_x, bits) => forced_bit (check_overlaps is_x bits t S0 S1)) checks.

Lemma component_syndrome (s : vec) (t : nat -> bool) (S0 S1 : list nat) (alpha beta : C)
    (bits_out : list nat) :
  length s = (2 ^ 7)%nat ->
  (forall i, (i < 2 ^ 7)%nat -> getitem s i = component_entry t S0 S1 alpha beta i) ->
  List.NoDup S0 -> List.NoDup S1 ->
  (forall i, In i S0 -> (i < 2 ^ 7)%nat) -> (forall i, In i S1 -> (i < 2 ^ 7)%nat) ->
  0 < Cnorm2 alpha + Cnorm2 beta ->
  forced_syndrome t S0 S1 = map Some bits_out ->
  Steane.measure_syndrome s = ret (mkSyndromeResult bits_out (seq 0 7) (95 / 100)).
Proof.
  intros Hlen Hget Hnd0 Hnd1 Hlt0 Hlt1 Hpos Hforced.
  assert (Hbit : forall pauli_type bits b,
            length bits = 7%nat ->
            forced_bit (check_overlaps (String.eqb pauli_type "X") bits t S0 S1) = Some b ->
            (m <- measure_pauli_operator s bits pauli_type ;; ret (syndrome_bit m)) = ret b).
  { intros pauli_type bits b Hbits Hb.
    pose proof (measure_component s t S0 S1 alpha beta bits pauli_type Hlen Hbits Hget
                  Hnd0 Hnd1 Hlt0 Hlt1) as Hm.
    destruct (check_overlaps (String.eqb pauli_type "X") bits t S0 S1) as [[[A B] X0] X1].
    rewrite Hm, bind_ret. f_equal. apply forced_bit_sound; assumption. }
  unfold forced_syndrome, checks, Steane.x_stabilizers, Steane.z_stabilizers in Hforced.
  cbn [map app] in Hforced.
  destruct bits_out as [|b1 [|b2 [|b3 [|b4 [|b5 [|b6 [|b7 rest]]]]]]]; try discriminate Hforced.
  injection Hforced as H1 H2 H3 H4 H5 H6.
  unfold Steane.measure_syndrome, Steane.x_stabilizers, Steane.z_stabilizers. cbn [mapM].
  pose proof (Hbit "X"%string (nth 0 Steane.x_stabilizers []) b1 eq_refl H1) as E1.
  pose proof (Hbit "X"%string (nth 1 Steane.x_stabilizers []) b2 eq_refl H2) as E2.
  pose proof (Hbit "X"%string (nth 2 Steane.x_stabilizers []) b3 eq_refl H3) as E3.
  pose proof (Hbit "Z"%string (nth 0 Steane.z_stabilizers []) b4 eq_refl H4) as E4.
  pose proof (Hbit "Z"%string (nth 1 Steane.z_stabilizers []) b5 eq_refl H5) as E5.
  pose proof (Hbit "Z"%string (nth 2 Steane.z_stabilizers []) b6 eq_refl H6) as E6.
  unfold Steane.x_stabilizers, Steane.z_stabilizers in E1, E2, E3, E4, E5, E6.
  cbn [nth] in E1, E2, E3, E4, E5, E6.
  rewrite E1, E2, E3, E4, E5, E6.
  rewrite !bind_ret. reflexivity.
Qed.

(** *** Bit flips *)

Fixpoint distinct (l : list nat) : bool :=
  match l with
  | [] => true
  | x :: l' => negb (mem x l') && distinct l'
  end.

Lemma distinct_NoDup (l : list nat) : distinct l = true -> List.NoDup l.
Proof.
  induction l as [|x l IH]; intros H; [constructor|].
  cbn [distinct] in H. apply andb_true_iff in H as [Hx Hl].
  constructor; [|apply IH, Hl].
  intros Hin. apply mem_In in Hin. rewrite Hin in Hx. discriminate.
Qed.

Definition flipped_sets (q : nat) : list nat * list nat :=
  let f := flip_index (Z.of_nat 7 - 1 - Z.of_nat q) in
  (map f Steane.zero_codewords, map f Steane.one_codewords).

(** The syndrome after a bit flip on qubit [q]: the X half is zero and
    the Z half shows the bits of the last two Z checks at [q]. *)
Definition bit_flip_syndrome (q : nat) : list nat :=
  [0; 0; 0; 0; nth q (nth 1 Steane.z_stabilizers []) 0; nth q (nth 2 Steane.z_stabilizers []) 0]%nat.

Lemma flipped_sets_table :
  forallb (fun q =>
     let '(S0, S1) := flipped_sets q in
     forallb (fun i =>
                Bool.eqb (mem (flip_index (Z.of_nat 7 - 1 - Z.of_nat q) i) Steane.zero_codewords)
                         (mem i S0) &&
                Bool.eqb (mem (flip_index (Z.of_nat 7 - 1 - Z.of_nat q) i) Steane.one_codewords)
                         (mem i S1))
             (seq 0 (2 ^ 7)) &&
     forallb (fun i => (i <? 2 ^ 7)%nat) (S0 ++ S1) &&
     distinct S0 && distinct S1 &&
     bool_decide (forced_syndrome (fun _ => false) S0 S1 = map Some (bit_flip_syndrome q)))
    (seq 0 7) = true.
Proof. vm_compute. reflexivity. Qed.

(** A bit flip on qubit q of any encoded state of non-zero norm measures
    the syndrome (0, 0, 0, 0, a, b), where a and b are the bits of the
    second and third Z checks at q: the first Z check never fires, a
    flip of qubit 3 gives the all-zero syndrome, and the pairs of qubits
    (0, 4), (1, 5) and (2, 6) give the same syndrome. *)
Theorem steane_bit_flip_syndrome (alpha beta : C) (q : nat) :
  (q < 7)%nat -> 0 < Cnorm2 alpha + Cnorm2 beta ->
  exists encoded flipped,
    Steane.encode [alpha; beta] = ret encoded /\
    Service.apply_bit_flip encoded (Z.of_nat q) = ret flipped /\
    Steane.measure_syndrome flipped
    = ret (mkSyndromeResult (bit_flip_syndrome q) (seq 0 7) (95 / 100)).
Proof.
  intros Hq Hpos.
  destruct (steane_encode_spec alpha beta) as (v & Henc & Hlen & Hget).
  destruct (bit_flip_run v 7 q Hlen Hq) as (flipped & Hflip & Hlf & Hentries & _).
  exists v, flipped. split; [exact Henc|]. split; [exact Hflip|].
  pose proof flipped_sets_table as Htab. rewrite forallb_forall in Htab.
  specialize (Htab q ltac:(apply in_seq; lia)).
  destruct (flipped_sets q) as [S0 S1].
  apply andb_true_iff in Htab as [Htab Hsyn]. apply andb_true_iff in Htab as [Htab Hnd1].
  apply andb_true_iff in Htab as [Htab Hnd0]. apply andb_true_iff in Htab as [Hmem Hlt].
  apply bool_decide_eq_true in Hsyn. apply distinct_NoDup in Hnd0, Hnd1.
  rewrite forallb_forall in Hmem, Hlt.
  apply (component_syndrome flipped (fun _ => false) S0 S1 alpha beta); trivial.
  - intros i Hi. rewrite (Hentries i Hi), Hget.
    specialize (Hmem i ltac:(apply in_seq; lia)).
    apply andb_true_iff in Hmem as [H0 H1]. apply Bool.eqb_prop in H0, H1.
    unfold component_entry, indicator. rewrite H0, H1. cbn [sign_value].
    rewrite Cmult_1_l. reflexivity.
  - intros i Hi. apply Nat.ltb_lt, Hlt, in_or_app. left. exact Hi.
  - intros i Hi. apply Nat.ltb_lt, Hlt, in_or_app. right. exact Hi.
Qed.

Lemma steane_bit_flip_syndrome_witness :
  exists encoded flipped,
    Steane.encode [C0; C1] = ret encoded /\
    Service.apply_bit_flip encoded (Z.of_nat 5) = ret flipped /\
    Steane.measure_syndrome flipped
    = ret (mkSyndromeResult (bit_flip_syndrome 5) (seq 0 7) (95 / 100)).
Proof.
  apply (steane_bit_flip_syndrome C0 C1 5).
  - lia.
  - unfold Cnorm2, C0, C1. simpl. lra.
Defined.

(** *** Phase flips *)

Definition phase_signs (q : nat) (i : nat) : bool :=
  negb (Z.land (Z.shiftr (Z.of_nat i) (Z.of_nat 7 - 1 - Z.of_nat q)) 1 =? 0)%Z.

(** The syndrome after a phase flip on qubit [q]: the Z half is zero and
    the X half shows the bits of the last two X checks at [q]. *)
Definition phase_flip_syndrome (q : nat) : list nat :=
  [0; nth q (nth 1 Steane.x_stabilizers []) 0; nth q (nth 2 Steane.x_stabilizers []) 0; 0; 0; 0]%nat.

Lemma phase_flip_table :
  forallb (fun q =>
     bool_decide (forced_syndrome (phase_signs q) Steane.zero_codewords Steane.one_codewords
                  = map Some (phase_flip_syndrome q)) &&
     bool_decide (Steane.syndrome_table !! drop 3 (phase_flip_syndrome q)
                  = Some ("I"%string, (-1)%Z)))
    (seq 0 7) = true.
Proof. vm_compute. reflexivity. Qed.

(** A phase flip on qubit q of any encoded state of non-zero norm
    measures the syndrome (0, a, b, 0, 0, 0), where a and b are the bits
    of the second and third X checks at q (all zero for qubit 3), and
    [correct_errors] then returns the phase-flipped state unchanged: the
    table entry found for the X half is of kind Z, so the branch that
    would act on it is not taken. *)
Theorem steane_phase_flip_left_in_place (alpha beta : C) (q : nat) :
  (q < 7)%nat -> 0 < Cnorm2 alpha + Cnorm2 beta ->
  exists encoded flipped syn,
    Steane.encode [alpha; beta] = ret encoded /\
    Service.apply_phase_flip encoded (Z.of_nat q) = ret flipped /\
    Steane.measure_syndrome flipped = ret syn /\
    syndrome syn = phase_flip_syndrome q /\
    Steane.correct_errors flipped syn = ret flipped.
Proof.
  intros Hq Hpos.
  destruct (steane_encode_spec alpha beta) as (v & Henc & Hlen & Hget).
  destruct (phase_flip_run v 7 q Hlen Hq) as (flipped & Hflip & Hlf & Hentries & _).
  pose proof phase_flip_table as Htab. rewrite forallb_forall in Htab.
  specialize (Htab q ltac:(apply in_seq; lia)).
  apply andb_true_iff in Htab as [Hsyn Hlook].
  apply bool_decide_eq_true in Hsyn. apply bool_decide_eq_true in Hlook as Hz.
  exists v, flipped, (mkSyndromeResult (phase_flip_syndrome q) (seq 0 7) (95 / 100)).
  split; [exact Henc|]. split; [exact Hflip|]. split; [|split; [reflexivity|]].
  - pose proof zero_codewords_lt as Hz0. rewrite List.Forall_forall in Hz0.
    apply (component_syndrome flipped (phase_signs q) Steane.zero_codewords
             Steane.one_codewords alpha beta); trivial.
    + intros i Hi. rewrite (Hentries i Hi). unfold phase_entry, component_entry, phase_signs.
      rewrite Hget.
      destruct (Z.land _ 1 =? 0)%Z; cbn [negb sign_value].
      * rewrite Cmult_1_l. reflexivity.
      * apply Cmult_comm.
    + apply NoDup_zero_codewords.
    + apply NoDup_one_codewords.
    + intros i Hi. apply codewords_lt, in_or_app. right. exact Hi.
  - unfold Steane.correct_errors. cbn [syndrome]. rewrite copy_id.
    destruct (Steane.syndrome_table !! take 3 (phase_flip_syndrome q)) as [[kind k]|] eqn:E.
    + destruct (table_lookup_cases _ _ _ E) as [[-> _] | [-> _]];
        change (String.eqb "I" "X") with false; change (String.eqb "Z" "X") with false;
        cbn [andb]; rewrite bind_ret, Hz; reflexivity.
    + rewrite bind_ret, Hz. reflexivity.
Qed.

Lemma steane_phase_flip_left_in_place_witness :
  exists encoded flipped syn,
    Steane.encode [C1; C0] = ret encoded /\
    Service.apply_phase_flip encoded (Z.of_nat 2) = ret flipped /\
    Steane.measure_syndrome flipped = ret syn /\
    syndrome syn = phase_flip_syndrome 2 /\
    Steane.correct_errors flipped syn = ret flipped.
Proof.
  apply (steane_phase_flip_left_in_place C1 C0 2).
  - lia.
  - unfold Cnorm2, C0, C1. simpl. lra.
Defined.

End SingleErrorFacts.

(** ** The bit-flip scenario, traced state by state *)

Module FlipScenario.
Import ErrorCorrection ArrayFacts DecodeFacts RoundTripFacts PauliFacts ScenarioFacts.
Import CycleFacts PauliErrorFacts.
Local Open Scope R_scope.




End FlipScenario.

(** ** Sample states for the [decode] methods *)

Module DecodeSamples.
Import ErrorCorrection ArrayFacts DecodeFacts RoundTripFacts ShorFacts CorrectionFacts.
Local Open Scope R_scope.

(** A 7-qubit state with weight on a zero codeword (index 0) and on a
    one codeword (index 127), with different phases. *)
Definition steane_sample : vec :=
  setitem (setitem (zeros (2 ^ 7)) 0 (4, 4)) 127 (3, -3).

(** A 9-qubit state with weight on the indices 0, 63 and 455 that the
    Shor projectors read. *)
Definition shor_sample : vec :=
  setitem (setitem (setitem (zeros (2 ^ 9)) 0 (3, 4)) 63 (2, 1)) 455 (1, 1).

Lemma steane_sample_entry (i : nat) :
  getitem steane_sample i
  = if (i =? 127)%nat then (3, -3) else if (i =? 0)%nat then (4, 4) else C0.
Proof.
  unfold steane_sample.
  rewrite !getitem_setitem, getitem_zeros;
    [reflexivity | |];
    rewrite ?length_setitem; unfold zeros; rewrite repeat_length;
    apply Nat.ltb_lt; reflexivity.
Qed.

Lemma shor_sample_entry (i : nat) :
  getitem shor_sample i
  = if (i =? 455)%nat then (1, 1)
    else if (i =? 63)%nat then (2, 1)
    else if (i =? 0)%nat then (3, 4) else C0.
Proof.
  unfold shor_sample.
  rewrite !getitem_setitem, getitem_zeros;
    [reflexivity | | |];
    rewrite ?length_setitem; unfold zeros; rewrite repeat_length;
    apply Nat.ltb_lt; reflexivity.
Qed.

Lemma length_steane_sample : length steane_sample = (2 ^ 7)%nat.
Proof. unfold steane_sample. rewrite !length_setitem. apply repeat_length. Qed.

Lemma length_shor_sample : length shor_sample = (2 ^ 9)%nat.
Proof. unfold shor_sample. rewrite !length_setitem. apply repeat_length. Qed.

Lemma normalise_sample : normalise 4 (9 / 4) = [RtoC (4 / 5); RtoC (3 / 5)].
Proof.
  rewrite normalise_nonneg by lra.
  replace (4 + 9 / 4) with (25 / 4) by field.
  rewrite (sqrt_lem_1 4 2), (sqrt_lem_1 (9 / 4) (3 / 2)), (sqrt_lem_1 (25 / 4) (5 / 2))
    by (try lra; field).
  destruct (Rlt_dec 0 (5 / 2)) as [_|H]; [|lra].
  f_equal; [|f_equal]; f_equal; field.
Qed.

(** On the sample, the Steane [decode] takes the projection branch: the
    two weights are 4 and 9/4 and the normalised result is (4/5, 3/5). *)
Lemma steane_sample_decodes :
  Steane.decode steane_sample = ret [RtoC (4 / 5); RtoC (3 / 5)].
Proof.
  pose proof length_steane_sample as Hlen.
  destruct (steane_decode_normalise _ Hlen) as (e0 & e1 & He0 & He1 & ->).
  destruct (steane_projection _ 0 Hlen) as (e0' & He0' & HRe0).
  destruct (steane_projection _ 1 Hlen) as (e1' & He1' & HRe1).
  rewrite He0 in He0'. injection He0' as <-.
  rewrite He1 in He1'. injection He1' as <-.
  cbn [Nat.eqb] in HRe0, HRe1.
  unfold Steane.zero_codewords in HRe0. unfold Steane.one_codewords in HRe1.
  cbn [map fold_right] in HRe0, HRe1.
  rewrite !steane_sample_entry in HRe0, HRe1.
  cbn [Nat.eqb] in HRe0, HRe1.
  unfold Cnorm2, C0 in HRe0, HRe1. cbn [fst snd] in HRe0, HRe1.
  replace (Re e0) with 4 by (rewrite HRe0; field).
  replace (Re e1) with (9 / 4) by (rewrite HRe1; field).
  rewrite normalise_sample. reflexivity.
Qed.

(** On the sample, the Shor [decode] takes the projection branch as
    well, with the weights 4 and 9/4. *)
Lemma shor_sample_decodes :
  Shor.decode shor_sample = ret [RtoC (4 / 5); RtoC (3 / 5)].
Proof.
  pose proof length_shor_sample as Hlen.
  destruct (shor_decode_normalise _ Hlen) as (e0 & e1 & He0 & He1 & ->).
  destruct (shor_projection_zero _ Hlen) as (e0' & He0' & HRe0).
  destruct (shor_projection_one _ Hlen) as (e1' & He1' & HRe1).
  rewrite He0 in He0'. injection He0' as <-.
  rewrite He1 in He1'. injection He1' as <-.
  rewrite !shor_sample_entry in HRe0, HRe1.
  cbn [Nat.eqb] in HRe0, HRe1.
  unfold Cnorm2, C0 in HRe0, HRe1. cbn [fst snd] in HRe0, HRe1.
  replace (Re e0) with 4 by (rewrite HRe0; field).
  replace (Re e1) with (9 / 4) by (rewrite HRe1; field).
  rewrite normalise_sample. reflexivity.
Qed.

Lemma shor_decode_wrong_length (s : vec) :
  length s <> (2 ^ 9)%nat ->
  Shor.decode s = raise (ValueError "matmul: dimension mismatch").
Proof.
  intros Hlen. unfold Shor.decode. rewrite sandwich_wrong_length; [reflexivity|].
  rewrite (proj1 (shor_projector_shape 0)). exact Hlen.
Qed.

Lemma steane_decode_wrong_length (s : vec) :
  length s <> (2 ^ 7)%nat ->
  Steane.decode s = raise (ValueError "matmul: dimension mismatch").
Proof.
  intros Hlen. unfold Steane.decode. rewrite sandwich_wrong_length; [reflexivity|].
  rewrite (proj1 (steane_projector_shape 0)). exact Hlen.
Qed.

(** C10, as stated, fails on a state vector of another dimension.  The
    512-amplitude sample, a 9-qubit state, makes the Steane-7 [decode]
    raise the ValueError of the matrix product, and the 128-amplitude
    sample does the same to the Shor-9 [decode]; so does the 2-entry
    state (1, 0) for both.  No logical state is returned. *)
Lemma decode_dimension_counterexample :
  length shor_sample = (2 ^ 9)%nat /\
  Steane.decode shor_sample = raise (ValueError "matmul: dimension mismatch") /\
  (forall v, Steane.decode shor_sample <> ret v) /\
  length steane_sample = (2 ^ 7)%nat /\
  Shor.decode steane_sample = raise (ValueError "matmul: dimension mismatch") /\
  (forall v, Shor.decode steane_sample <> ret v) /\
  Steane.decode [C1; C0] = raise (ValueError "matmul: dimension mismatch") /\
  Shor.decode [C1; C0] = raise (ValueError "matmul: dimension mismatch").
Proof.
  assert (H9 : length shor_sample <> (2 ^ 7)%nat).
  { rewrite length_shor_sample. apply Nat.eqb_neq. reflexivity. }
  assert (H7 : length steane_sample <> (2 ^ 9)%nat).
  { rewrite length_steane_sample. apply Nat.eqb_neq. reflexivity. }
  assert (H2a : length [C1; C0] <> (2 ^ 7)%nat) by (apply Nat.eqb_neq; reflexivity).
  assert (H2b : length [C1; C0] <> (2 ^ 9)%nat) by (apply Nat.eqb_neq; reflexivity).
  split; [apply length_shor_sample|].
  split; [apply steane_decode_wrong_length, H9|].
  split; [intros v; rewrite (steane_decode_wrong_length _ H9); discriminate|].
  split; [apply length_steane_sample|].
  split; [apply shor_decode_wrong_length, H7|].
  split; [intros v; rewrite (shor_decode_wrong_length _ H7); discriminate|].
  split; [apply steane_decode_wrong_length, H2a | apply shor_decode_wrong_length, H2b].
Qed.

Lemma decode_real_nonneg_unit_witness :
  length steane_sample = (2 ^ 7)%nat /\ length shor_sample = (2 ^ 9)%nat /\
  Steane.decode steane_sample = ret [RtoC (4 / 5); RtoC (3 / 5)] /\
  Shor.decode shor_sample = ret [RtoC (4 / 5); RtoC (3 / 5)] /\
  (exists v, Steane.decode steane_sample = ret v /\ real_unit_logical v) /\
  (exists v, Shor.decode shor_sample = ret v /\ real_unit_logical v) /\
  real_unit_logical (Surface.decode shor_sample).
Proof.
  split; [apply length_steane_sample|]. split; [apply length_shor_sample|].
  split; [apply steane_sample_decodes|]. split; [apply shor_sample_decodes|].
  apply (decode_real_nonneg_unit steane_sample shor_sample shor_sample).
  - apply length_steane_sample.
  - apply length_shor_sample.
Defined.

End DecodeSamples.
